(** * Ordered-list maintenance of the Kanban board

    A shallow embedding of the card-ordering logic of the repository:
    the rank space and the move protocol of the backend, the board store of
    the frontend ([store/boardStore.ts]), the move mutation of
    [hooks/useBoard.ts] and the drag-and-drop handler of the board
    component ([components/Board/Board.tsx]).

    The backend modules are not among the sources; the README describes
    their algorithm and gives examples.  Their definitions are marked
    "Modelled from the spec" and follow the specification of RankSpace and
    MoveCoordinator; the pseudocode of [move_card] that the README gives
    is embedded as it is written ([Readme.move_card]).  The frontend
    definitions are translated from the TypeScript sources.  The
    repository holds the board store in two variants that differ in
    sorting only; the embedding follows the variant that defines
    [sortCards] and relates the other one to it ([PlainStore]).  The
    HTTP client ([api/client.ts]) and the sign-in handlers of [App.tsx]
    are embedded in [Client] and [App].

    Conventions.  JavaScript and Python strings are [string]s of one-byte
    characters, compared character by character on their codes
    ([String.compare]), as [<] does on the code units of a JavaScript
    string.  JavaScript numbers that hold identifiers, versions and
    indices are integers [Z]; arrays are [list]s; [T | null] and
    [T | undefined] are [option T]; a function that can read a property of
    [undefined] returns in [Js]. *)

From Stdlib Require Import ZArith NArith List String Ascii Bool Lia.
From Stdlib Require Import Permutation Sorted.
Import ListNotations.

Local Open Scope string_scope.
Local Open Scope list_scope.
Local Open Scope Z_scope.

(* ================================================================== *)
(** * Part I: definitions *)
(* ================================================================== *)

(** ** Lexicographic order on strings *)

(** [a < b] on strings, as JavaScript's [<] and Python's [<] compute it. *)
Definition str_lt (a b : string) : Prop := String.compare a b = Lt.

(** ** RankSpace *)

(** Modelled from the spec: what [rankBetween] gives, a rank or the
    [NeedsRebalance] condition. *)
Inductive RankResult : Type :=
| Rank (r : string)
| NeedsRebalance.

(** Modelled from the spec: the alphabet is lowercase ASCII, the codes of
    ["a"] to ["z"]. *)
Definition alphabetFirst : N := 97.
Definition alphabetLast : N := 122.

(** Modelled from the spec: the length threshold above which a rank is not
    produced (10 characters, as in the README). *)
Definition maxRankLength : nat := 10.

(** Modelled from the spec: a rank is a string over the alphabet. *)
Definition inAlphabet (c : ascii) : bool :=
  ((alphabetFirst <=? N_of_ascii c) && (N_of_ascii c <=? alphabetLast))%N.

(** Modelled from the spec: a valid rank, every character in the
    alphabet. *)
Fixpoint validRank (s : string) : bool :=
  match s with
  | EmptyString => true
  | String c rest => inAlphabet c && validRank rest
  end.

(** Modelled from the spec: the character of the lower bound at the
    current position; a missing trailing character counts as the lowest
    code point. *)
Definition lowerCode (lower : string) : N :=
  match lower with
  | EmptyString => alphabetFirst
  | String c _ => N_of_ascii c
  end.

(** Modelled from the spec: the character of the upper bound at the
    current position.  An absent upper bound lies one past the alphabet at
    every position; a missing trailing character of a present bound counts
    as the lowest code point. *)
Definition upperCode (upper : option string) : N :=
  match upper with
  | None => alphabetLast + 1
  | Some EmptyString => alphabetFirst
  | Some (String c _) => N_of_ascii c
  end.

Definition strTail (s : string) : string :=
  match s with
  | EmptyString => EmptyString
  | String _ rest => rest
  end.

(** Modelled from the spec: the walk of [rankBetween] (the backend module
    that holds [get_rank_between] is not among the sources).  Both bounds
    are walked character by character.  Where at least one unused code point
    lies between the two characters, the character at the midpoint is
    emitted and the walk stops; where there is no gap, the lower character
    is kept and the walk extends by one position.  [room] is the number of
    positions left before the length threshold; when it is used up the walk
    signals [NeedsRebalance]. *)
Fixpoint rankWalk (room : nat) (lower : string) (upper : option string)
  : RankResult :=
  match room with
  | O => NeedsRebalance
  | S room' =>
      let l := lowerCode lower in
      let u := upperCode upper in
      if (l + 2 <=? u)%N then
        Rank (String (ascii_of_N ((l + u) / 2)) EmptyString)
      else
        match rankWalk room' (strTail lower) (option_map strTail upper) with
        | Rank r => Rank (String (ascii_of_N l) r)
        | NeedsRebalance => NeedsRebalance
        end
  end.

(** Modelled from the spec: operation [rankBetween(lower, upper)] of
    RankSpace (the backend's [get_rank_between], whose module is not among
    the sources).  An absent lower bound is the empty prefix, so that
    [rankBetween None None] is the mid-alphabet rank ["n"], and appending
    after ["n"] gives ["t"], as in the README's walk-through. *)
Definition rankBetween (lower upper : option string) : RankResult :=
  rankWalk maxRankLength
    (match lower with Some l => l | None => EmptyString end) upper.

(** ** JavaScript values and array operations *)

(** A JavaScript computation either returns or throws.  The only exception
    the modelled code can raise is the [TypeError] of a property read on
    [undefined]. *)
Inductive Js (A : Type) : Type :=
| Ret (a : A)
| TypeError.

Arguments Ret {A} a.
Arguments TypeError {A}.

Definition js_bind {A B : Type} (m : Js A) (k : A -> Js B) : Js B :=
  match m with
  | Ret a => k a
  | TypeError => TypeError
  end.

Notation "x <- m ;; k" := (js_bind m (fun x => k))
  (at level 61, m at next level, right associativity).

(** [arr\[i\]]: [undefined] outside the array. *)
Definition arrayGet {A : Type} (l : list A) (i : Z) : option A :=
  if i <? 0 then None else nth_error l (Z.to_nat i).

(** [obj.prop] on a value that may be [undefined]. *)
Definition propOf {A B : Type} (f : A -> B) (o : option A) : Js B :=
  match o with
  | Some a => Ret (f a)
  | None => TypeError
  end.

(** [arr.length] *)
Definition len {A : Type} (l : list A) : Z := Z.of_nat (List.length l).

(** [arr.findIndex(p)]: the first index whose element satisfies [p],
    or [-1]. *)
Fixpoint findIndex {A : Type} (p : A -> bool) (l : list A) : Z :=
  match l with
  | [] => -1
  | x :: rest =>
      if p x then 0
      else let i := findIndex p rest in if i =? -1 then -1 else i + 1
  end.

(** The start index of [splice], as [Array.prototype.splice] resolves it:
    a negative start counts from the end, and the result is clamped to
    the array. *)
Definition spliceStart (start length : Z) : Z :=
  if start <? 0 then Z.max (length + start) 0 else Z.min start length.

(** [arr.splice(start, deleteCount, ...items)]: the deleted elements and
    the array afterwards. *)
Definition splice {A : Type} (start deleteCount : Z) (items l : list A)
  : list A * list A :=
  let s := spliceStart start (len l) in
  let d := Z.min (Z.max deleteCount 0) (len l - s) in
  (firstn (Z.to_nat d) (skipn (Z.to_nat s) l),
   firstn (Z.to_nat s) l ++ items ++ skipn (Z.to_nat (s + d)) l).

(** An in-place change of the first element of an array that satisfies
    [p], the element [arr.find(p)] returns. *)
Fixpoint updateFirst {A : Type} (p : A -> bool) (f : A -> A) (l : list A)
  : list A :=
  match l with
  | [] => []
  | x :: rest => if p x then f x :: rest else x :: updateFirst p f rest
  end.

(** [arr.sort(compareFn)]: the stable sort of the array by a comparator
    that returns a negative number, zero or a positive number.  An element
    is placed before the first element it does not compare greater than, so
    elements that compare equal keep their order. *)
Fixpoint sortInsert {A : Type} (compareFn : A -> A -> Z) (x : A) (l : list A)
  : list A :=
  match l with
  | [] => [x]
  | y :: rest =>
      if compareFn x y <=? 0 then x :: y :: rest
      else y :: sortInsert compareFn x rest
  end.

Definition arraySort {A : Type} (compareFn : A -> A -> Z) (l : list A)
  : list A :=
  fold_right (sortInsert compareFn) [] l.

(** ** Types ([types/index.ts]) *)

Module Card.
Record t : Type := mk {
  id : Z;
  title : string;
  description : option string;
  position : string;
  list_id : Z;
  version : Z;
  created_at : string
}.
End Card.

(** [Partial<Card>]: every field may be missing. *)
Module PartialCard.
Record t : Type := mk {
  id : option Z;
  title : option string;
  description : option (option string);
  position : option string;
  list_id : option Z;
  version : option Z;
  created_at : option string
}.
End PartialCard.

(** Interface [List]. *)
Module BoardList.
Record t : Type := mk {
  id : Z;
  name : string;
  position : string;
  board_id : Z;
  cards : list Card.t
}.
End BoardList.

Module Board.
Record t : Type := mk {
  id : Z;
  name : string;
  description : option string;
  owner_id : Z;
  created_at : string;
  updated_at : string;
  lists : list BoardList.t
}.
End Board.

Module MoveCardRequest.
Record t : Type := mk {
  target_list_id : Z;
  before_card_id : option Z;
  after_card_id : option Z;
  expected_version : Z
}.
End MoveCardRequest.

(** [{ ...list, cards }] *)
Definition withCards (l : BoardList.t) (cs : list Card.t) : BoardList.t :=
  BoardList.mk (BoardList.id l) (BoardList.name l) (BoardList.position l)
    (BoardList.board_id l) cs.

(** [{ ...board, lists }] *)
Definition withLists (b : Board.t) (ls : list BoardList.t) : Board.t :=
  Board.mk (Board.id b) (Board.name b) (Board.description b)
    (Board.owner_id b) (Board.created_at b) (Board.updated_at b) ls.

(** [card.list_id = listId] *)
Definition withListId (c : Card.t) (listId : Z) : Card.t :=
  Card.mk (Card.id c) (Card.title c) (Card.description c) (Card.position c)
    listId (Card.version c) (Card.created_at c).

Definition orElse {A : Type} (o : option A) (d : A) : A :=
  match o with
  | Some a => a
  | None => d
  end.

(** [{ ...card, ...updates }] *)
Definition spread (c : Card.t) (u : PartialCard.t) : Card.t :=
  Card.mk
    (orElse (PartialCard.id u) (Card.id c))
    (orElse (PartialCard.title u) (Card.title c))
    (orElse (PartialCard.description u) (Card.description c))
    (orElse (PartialCard.position u) (Card.position c))
    (orElse (PartialCard.list_id u) (Card.list_id c))
    (orElse (PartialCard.version u) (Card.version c))
    (orElse (PartialCard.created_at u) (Card.created_at c)).

(** ** The board store ([store/boardStore.ts], the variant with [sortCards]) *)

(** The data of the zustand store. *)
Record BoardState : Type := mkState {
  board : option Board.t
}.

(** The value [moveCardOptimistic] returns. *)
Record MoveCardResult : Type := mkMoveCardResult {
  previousBoard : option Board.t;
  card : option Card.t
}.

(** The comparator of [sortCards]. *)
Definition compareCards (a b : Card.t) : Z :=
  if (Card.position a <? Card.position b)%string then -1
  else if (Card.position b <? Card.position a)%string then 1
  else 0.

Definition sortCards (cards : list Card.t) : list Card.t :=
  arraySort compareCards cards.

Definition setBoard (b : Board.t) (st : BoardState) : BoardState :=
  let sortedBoard :=
    withLists b
      (map (fun list => withCards list (sortCards (BoardList.cards list)))
         (Board.lists b)) in
  mkState (Some sortedBoard).

(** [JSON.parse(JSON.stringify(board))]: a deep copy.  A board holds
    numbers, strings, [null] and arrays only, so the copy is equal to the
    original, and later changes of the copy leave the original as it is. *)
Definition jsonClone (b : Board.t) : Board.t := b.

Definition moveCardOptimistic
  (cardId sourceListId targetListId newIndex : Z) (st : BoardState)
  : Js (MoveCardResult * BoardState) :=
  match board st with
  | None => Ret (mkMoveCardResult None None, st)
  | Some previousBoard =>
      let newBoard := jsonClone previousBoard in
      match find (fun l => BoardList.id l =? sourceListId)
              (Board.lists newBoard) with
      | None => Ret (mkMoveCardResult (Some previousBoard) None, st)
      | Some sourceList =>
          let cardIndex :=
            findIndex (fun c => Card.id c =? cardId)
              (BoardList.cards sourceList) in
          if cardIndex =? -1 then
            Ret (mkMoveCardResult (Some previousBoard) None, st)
          else
            let (removed, remaining) :=
              splice cardIndex 1 [] (BoardList.cards sourceList) in
            let newBoard :=
              withLists newBoard
                (updateFirst (fun l => BoardList.id l =? sourceListId)
                   (fun l => withCards l remaining) (Board.lists newBoard)) in
            match find (fun l => BoardList.id l =? targetListId)
                    (Board.lists newBoard) with
            | None => Ret (mkMoveCardResult (Some previousBoard) None, st)
            | Some targetList =>
                match hd_error removed with
                | None => TypeError
                | Some card =>
                    let card := withListId card targetListId in
                    let insertIndex :=
                      Z.min newIndex (len (BoardList.cards targetList)) in
                    let inserted :=
                      snd (splice insertIndex 0 [card]
                             (BoardList.cards targetList)) in
                    let newBoard :=
                      withLists newBoard
                        (updateFirst (fun l => BoardList.id l =? targetListId)
                           (fun l => withCards l inserted)
                           (Board.lists newBoard)) in
                    Ret (mkMoveCardResult (Some previousBoard) (Some card),
                         mkState (Some newBoard))
                end
            end
      end
  end.

Definition revertBoard (previousBoard : option Board.t) (st : BoardState)
  : BoardState :=
  match previousBoard with
  | Some b => mkState (Some b)
  | None => st
  end.

Definition updateCardAfterMove (cardId : Z) (updates : PartialCard.t)
  (st : BoardState) : BoardState :=
  match board st with
  | None => st
  | Some b =>
      mkState (Some (withLists b
        (map (fun list =>
                withCards list
                  (sortCards
                     (map (fun card =>
                             if Card.id card =? cardId
                             then spread card updates else card)
                        (BoardList.cards list))))
           (Board.lists b))))
  end.

Definition addList (list : BoardList.t) (st : BoardState) : BoardState :=
  match board st with
  | None => st
  | Some b =>
      mkState (Some (withLists b (Board.lists b ++ [withCards list []])))
  end.

Definition removeList (listId : Z) (st : BoardState) : BoardState :=
  match board st with
  | None => st
  | Some b =>
      mkState (Some (withLists b
        (filter (fun l => negb (BoardList.id l =? listId)) (Board.lists b))))
  end.

Definition addCard (listId : Z) (card : Card.t) (st : BoardState)
  : BoardState :=
  match board st with
  | None => st
  | Some b =>
      mkState (Some (withLists b
        (map (fun list =>
                if BoardList.id list =? listId
                then withCards list (sortCards (BoardList.cards list ++ [card]))
                else list)
           (Board.lists b))))
  end.

Definition updateCard (cardId : Z) (updates : PartialCard.t)
  (st : BoardState) : BoardState :=
  match board st with
  | None => st
  | Some b =>
      mkState (Some (withLists b
        (map (fun list =>
                withCards list
                  (sortCards
                     (map (fun card =>
                             if Card.id card =? cardId
                             then spread card updates else card)
                        (BoardList.cards list))))
           (Board.lists b))))
  end.

Definition removeCard (cardId listId : Z) (st : BoardState) : BoardState :=
  match board st with
  | None => st
  | Some b =>
      mkState (Some (withLists b
        (map (fun list =>
                if BoardList.id list =? listId
                then withCards list
                       (filter (fun c => negb (Card.id c =? cardId))
                          (BoardList.cards list))
                else list)
           (Board.lists b))))
  end.

(** ** The move mutation ([hooks/useBoard.ts]) *)

(** The variables of [moveCardMutation], as [handleDragEnd] passes them
    to [moveCard]. *)
Record MoveCardVars : Type := mkVars {
  cardId : Z;
  sourceListId : Z;
  targetListId : Z;
  newIndex : Z;
  version : Z;
  beforeCardId : option Z;
  afterCardId : option Z
}.


Definition onMutate (v : MoveCardVars) (st : BoardState)
  : Js (MoveCardResult * BoardState) :=
  moveCardOptimistic (cardId v) (sourceListId v) (targetListId v)
    (newIndex v) st.

(** What [onError] shows and asks for besides the rollback. *)
Record ErrorFeedback : Type := mkFeedback {
  toast : string;
  invalidateBoardQuery : bool
}.

(** [error?.response?.status === code], for the status of an error that
    may have no response. *)
Definition statusIs (status : option Z) (code : Z) : bool :=
  match status with
  | Some s => s =? code
  | None => false
  end.

Definition conflictToast : string :=
  "Card was modified by another user. Refreshing...".

(** [onError(error, _variables, context)]; [status] is
    [error?.response?.status]. *)
Definition onError (status : option Z) (context : option MoveCardResult)
  (st : BoardState) : ErrorFeedback * BoardState :=
  let st :=
    match context with
    | Some ctx =>
        match previousBoard ctx with
        | Some b => revertBoard (Some b) st
        | None => st
        end
    | None => st
    end in
  if statusIs status 409 then (mkFeedback conflictToast true, st)
  else if statusIs status 422 then (mkFeedback "Invalid move request" false, st)
  else (mkFeedback "Failed to move card" false, st).

Definition onSuccess (updatedCard : Card.t) (st : BoardState) : BoardState :=
  updateCardAfterMove (Card.id updatedCard)
    (PartialCard.mk None None None
       (Some (Card.position updatedCard))
       (Some (Card.list_id updatedCard))
       (Some (Card.version updatedCard))
       None)
    st.

(** ** The drag-and-drop handler ([components/Board/Board.tsx]) *)

(** [over.data.current]: the data of the droppable under the pointer. *)
Inductive OverData : Type :=
| OverCard (card : Card.t)
| OverList (listId : Z)
| OverOther.

(** The parts of a [DragEndEvent] the handler reads:
    [active.data.current?.card] and [over]. *)
Record DragEndEvent : Type := mkDragEnd {
  activeCard : option Card.t;
  over : option OverData
}.

(** The neighbours of the insertion index and the call of [moveCard];
    the last part of [handleDragEnd]. *)
Definition dropAt (b : Board.t) (activeCard : Card.t)
  (targetListId newIndex : Z) : Js (option MoveCardVars) :=
  match find (fun l => BoardList.id l =? targetListId) (Board.lists b) with
  | None => Ret None
  | Some targetList =>
      let cardsWithoutActive :=
        filter (fun c => negb (Card.id c =? Card.id activeCard))
          (BoardList.cards targetList) in
      let adjustedIndex := newIndex in
      neighbours <-
        (if adjustedIndex =? 0 then
           if len cardsWithoutActive >? 0 then
             afterId <- propOf Card.id (arrayGet cardsWithoutActive 0) ;;
             Ret (None, Some afterId)
           else Ret (None, None)
         else if adjustedIndex >=? len cardsWithoutActive then
           if len cardsWithoutActive >? 0 then
             beforeId <- propOf Card.id
                           (arrayGet cardsWithoutActive
                              (len cardsWithoutActive - 1)) ;;
             Ret (Some beforeId, None)
           else Ret (None, None)
         else
           beforeId <- propOf Card.id
                         (arrayGet cardsWithoutActive (adjustedIndex - 1)) ;;
           afterId <- propOf Card.id
                        (arrayGet cardsWithoutActive adjustedIndex) ;;
           Ret (Some beforeId, Some afterId)) ;;
      Ret (Some (mkVars (Card.id activeCard) (Card.list_id activeCard)
                   targetListId adjustedIndex (Card.version activeCard)
                   (fst neighbours) (snd neighbours)))
  end.

(** [handleDragEnd(event)] with the board of the store.  The result is
    the call of [moveCard] the handler makes, [None] when it returns
    without one. *)
Definition handleDragEnd (board : option Board.t) (event : DragEndEvent)
  : Js (option MoveCardVars) :=
  match over event, board with
  | Some over, Some b =>
      match activeCard event with
      | None => Ret None
      | Some activeCard =>
          match over with
          | OverCard overCard =>
              let targetListId := Card.list_id overCard in
              match find (fun l => BoardList.id l =? targetListId)
                      (Board.lists b) with
              | None => Ret None
              | Some targetList =>
                  let oldIndex :=
                    findIndex (fun c => Card.id c =? Card.id activeCard)
                      (BoardList.cards targetList) in
                  let overIndex :=
                    findIndex (fun c => Card.id c =? Card.id overCard)
                      (BoardList.cards targetList) in
                  if Card.list_id activeCard =? targetListId then
                    if oldIndex =? overIndex then Ret None
                    else dropAt b activeCard targetListId overIndex
                  else dropAt b activeCard targetListId overIndex
              end
          | OverList listId =>
              match find (fun l => BoardList.id l =? listId)
                      (Board.lists b) with
              | None => Ret None
              | Some targetList =>
                  let cardsInTarget :=
                    filter (fun c => negb (Card.id c =? Card.id activeCard))
                      (BoardList.cards targetList) in
                  dropAt b activeCard listId (len cardsInTarget)
              end
          | OverOther => Ret None
          end
      end
  | _, _ => Ret None
  end.

(** The effect of a drag end on the store: the optimistic update of
    [onMutate] when the handler calls [moveCard], nothing otherwise. *)
Definition dragEnd (event : DragEndEvent) (st : BoardState)
  : Js BoardState :=
  call <- handleDragEnd (board st) event ;;
  match call with
  | None => Ret st
  | Some v => r <- onMutate v st ;; Ret (snd r)
  end.

(** ** MoveCoordinator *)

(** The backend module that holds [move_card] is not among the sources;
    the definitions of this part are modelled from the specification of
    the move protocol and the README's outline of it. *)

(** Modelled from the spec: an Item, the movable unit (a card row). *)
Module Item.
Record t : Type := mk {
  id : Z;
  containerId : Z;
  rank : string;
  version : Z;
  deletedAt : option Z
}.
End Item.

(** Modelled from the spec: a Container, the ordered list (a list row);
    its order is the order of its live items by rank. *)
Module Container.
Record t : Type := mk {
  id : Z;
  deletedAt : option Z
}.
End Container.

(** Modelled from the spec: the rows of the transactional store. *)
Record Store : Type := mkStore {
  containers : list Container.t;
  items : list Item.t
}.

(** Modelled from the spec: the arguments of [move]. *)
Module MoveRequest.
Record t : Type := mk {
  itemId : Z;
  targetContainerId : Z;
  beforeItemId : option Z;
  afterItemId : option Z;
  expectedVersion : Z
}.
End MoveRequest.

(** Modelled from the spec: the reasons of an [InvalidRequest]. *)
Inductive InvalidReason : Type :=
| UnknownItem
| UnknownContainer
| NeighborNotInTarget
| NeighborsNotAdjacent.

(** Modelled from the spec: the three terminal outcomes of a move, and
    the propagated [RebalanceFailure]. *)
Inductive MoveOutcome : Type :=
| Success (item : Item.t)
| Conflict (currentVersion : Z)
| InvalidRequest (reason : InvalidReason)
| RebalanceFailure.

(** Modelled from the spec: the interface of RankSpace, as
    MoveCoordinator consumes it.
    [rebalance] takes the live items of one container in their order and
    gives their new ranks in the same order, or nothing when it cannot
    produce a valid spacing. *)
Record RankSpace : Type := mkRankSpace {
  rs_rankBetween : option string -> option string -> RankResult;
  rs_rebalance : list Item.t -> option (list string)
}.

(** Modelled from the spec: an item is live when it is not
    soft-deleted. *)
Definition isLive (it : Item.t) : bool :=
  match Item.deletedAt it with
  | None => true
  | Some _ => false
  end.

(** Modelled from the spec: [lockItemForUpdate(id)] of the persistence
    layer, the row of the item or [None] for [NotFound]. *)
Definition lockItemForUpdate (id : Z) (s : Store) : option Item.t :=
  find (fun it => Item.id it =? id) (items s).

(** Modelled from the spec: the order of items by rank, lexicographic
    on the rank strings. *)
Definition compareRanks (a b : Item.t) : Z :=
  if (Item.rank a <? Item.rank b)%string then -1
  else if (Item.rank b <? Item.rank a)%string then 1
  else 0.

(** Modelled from the spec: [getLiveContainerItemsOrderedByRank] of the
    persistence layer; soft-deleted rows are left out. *)
Definition getLiveContainerItemsOrderedByRank (containerId : Z) (s : Store)
  : list Item.t :=
  arraySort compareRanks
    (filter (fun it => isLive it && (Item.containerId it =? containerId))
       (items s)).

(** Modelled from the spec: [writeItem] of the persistence layer; it
    persists [containerId], [rank] and [version] of the row with the
    item's id. *)
Definition writeItem (it : Item.t) (s : Store) : Store :=
  mkStore (containers s)
    (map (fun row =>
            if Item.id row =? Item.id it
            then Item.mk (Item.id row) (Item.containerId it) (Item.rank it)
                   (Item.version it) (Item.deletedAt row)
            else row)
       (items s)).

(** Modelled from the spec: an item with a new rank. *)
Definition withRank (it : Item.t) (r : string) : Item.t :=
  Item.mk (Item.id it) (Item.containerId it) r (Item.version it)
    (Item.deletedAt it).

(** Modelled from the spec: the rows of a rebalanced container are
    written one by one, each with its new rank. *)
Definition writeRanks (rows : list Item.t) (ranks : list string) (s : Store)
  : Store :=
  fold_left (fun acc p => writeItem (withRank (fst p) (snd p)) acc)
    (combine rows ranks) s.

(** Modelled from the spec: the target container exists and is live. *)
Definition containerIsLive (containerId : Z) (s : Store) : bool :=
  existsb
    (fun c =>
       (Container.id c =? containerId)
       && match Container.deletedAt c with None => true | Some _ => false end)
    (containers s).

(** Modelled from the spec: a supplied neighbour must be a live item of
    the target container. *)
Definition neighborInTarget (containerId : Z) (neighbor : option Z)
  (s : Store) : bool :=
  match neighbor with
  | None => true
  | Some n =>
      existsb
        (fun it =>
           (Item.id it =? n) && isLive it
           && (Item.containerId it =? containerId))
        (items s)
  end.

(** Modelled from the spec: step 1 of the move protocol, Validate. *)
Definition validate (r : MoveRequest.t) (s : Store) : option InvalidReason :=
  if negb (containerIsLive (MoveRequest.targetContainerId r) s) then
    Some UnknownContainer
  else if negb (neighborInTarget (MoveRequest.targetContainerId r)
                  (MoveRequest.beforeItemId r) s
                && neighborInTarget (MoveRequest.targetContainerId r)
                     (MoveRequest.afterItemId r) s) then
    Some NeighborNotInTarget
  else None.

(** Modelled from the spec: [before] is followed at once by [after] in
    the list of ids. *)
Fixpoint adjacentIds (before after : Z) (ids : list Z) : bool :=
  match ids with
  | x :: (y :: _) as rest =>
      ((x =? before) && (y =? after)) || adjacentIds before after rest
  | _ => false
  end.

(** Modelled from the spec: the neighbour pair of a request, checked
    again under the lock against the live items of the target container,
    the moved item left out. *)
Definition neighborsAdjacent (r : MoveRequest.t) (s : Store) : bool :=
  match MoveRequest.beforeItemId r, MoveRequest.afterItemId r with
  | Some b, Some a =>
      adjacentIds b a
        (filter (fun i => negb (i =? MoveRequest.itemId r))
           (map Item.id
              (getLiveContainerItemsOrderedByRank
                 (MoveRequest.targetContainerId r) s)))
  | _, _ => true
  end.

(** Modelled from the spec: the current rank of a neighbour, read from
    the store under the lock. *)
Definition neighborRank (neighbor : option Z) (s : Store) : option string :=
  match neighbor with
  | None => None
  | Some n => option_map Item.rank (lockItemForUpdate n s)
  end.

(** Modelled from the spec: step 5 of the move protocol, Apply. *)
Definition applyMove (x : Item.t) (r : MoveRequest.t) (newRank : string)
  (s : Store) : MoveOutcome * Store :=
  let updated :=
    Item.mk (Item.id x) (MoveRequest.targetContainerId r) newRank
      (Item.version x + 1) (Item.deletedAt x) in
  (Success updated, writeItem updated s).

(** Modelled from the spec: step 4 of the move protocol, RankCompute,
    followed by Apply.  When [rankBetween] signals [NeedsRebalance] the
    target container is rebalanced, the neighbour ranks are read again and
    the computation is retried once; a second failure, or a rebalance that
    cannot be done, is a [RebalanceFailure], and nothing is written. *)
Definition rankComputeAndApply (rs : RankSpace) (x : Item.t)
  (r : MoveRequest.t) (s : Store) : MoveOutcome * Store :=
  match rs_rankBetween rs (neighborRank (MoveRequest.beforeItemId r) s)
          (neighborRank (MoveRequest.afterItemId r) s) with
  | Rank newRank => applyMove x r newRank s
  | NeedsRebalance =>
      let rows :=
        getLiveContainerItemsOrderedByRank
          (MoveRequest.targetContainerId r) s in
      match rs_rebalance rs rows with
      | None => (RebalanceFailure, s)
      | Some ranks =>
          let s' := writeRanks rows ranks s in
          match rs_rankBetween rs
                  (neighborRank (MoveRequest.beforeItemId r) s')
                  (neighborRank (MoveRequest.afterItemId r) s') with
          | Rank newRank => applyMove x r newRank s'
          | NeedsRebalance => (RebalanceFailure, s)
          end
      end
  end.

(** Modelled from the spec: [move] of MoveCoordinator (the backend's
    [move_card]), one transaction against the store: Validate, Acquire,
    VersionCheck, RankCompute, Apply, Return. *)
Definition move (rs : RankSpace) (r : MoveRequest.t) (s : Store)
  : MoveOutcome * Store :=
  match validate r s with
  | Some reason => (InvalidRequest reason, s)
  | None =>
      match lockItemForUpdate (MoveRequest.itemId r) s with
      | None => (InvalidRequest UnknownItem, s)
      | Some x =>
          if negb (Item.version x =? MoveRequest.expectedVersion r) then
            (Conflict (Item.version x), s)
          else if negb (neighborsAdjacent r s) then
            (InvalidRequest NeighborsNotAdjacent, s)
          else rankComputeAndApply rs x r s
      end
  end.

(** Modelled from the spec: [rebalance] of RankSpace, single-character
    ranks spaced evenly over the alphabet with the step
    [alphabetSize / (itemCount + 1)]; it fails when the step leaves no
    unused code point between neighbours. *)
Definition rebalance (containerItems : list Item.t) : option (list string) :=
  let n := N.of_nat (List.length containerItems) in
  let step := (26 / (n + 1))%N in
  if (step <? 2)%N then None
  else
    Some (map (fun k =>
                 String (ascii_of_N (alphabetFirst + N.of_nat k * step))
                   EmptyString)
            (seq 1 (List.length containerItems))).

(** Modelled from the spec: the rank space of the repository. *)
Definition lexoRank : RankSpace := mkRankSpace rankBetween rebalance.

(** Modelled from the spec: the stores a store can become through any
    sequence of move requests (no other component writes rank or
    version). *)
Inductive reachable (rs : RankSpace) (s : Store) : Store -> Prop :=
| reachable_refl : reachable rs s s
| reachable_step (s1 : Store) (r : MoveRequest.t) :
    reachable rs s s1 -> reachable rs s (snd (move rs r s1)).

(** ** Notions used in the statements *)

(** [a.position <= b.position] in the character-wise order of strings. *)
Definition positionLe (a b : Card.t) : Prop :=
  String.compare (Card.position a) (Card.position b) <> Gt.

(** The cards are in ascending order of [position]. *)
Definition sortedByPosition (cards : list Card.t) : Prop :=
  StronglySorted positionLe cards.

(** Every list of the stored board is in ascending order of [position]. *)
Definition boardSorted (st : BoardState) : Prop :=
  match board st with
  | None => True
  | Some b =>
      Forall (fun l => sortedByPosition (BoardList.cards l)) (Board.lists b)
  end.

(** All cards of a board, list after list. *)
Definition allCards (b : Board.t) : list Card.t :=
  flat_map BoardList.cards (Board.lists b).

Definition totalCards (st : BoardState) : nat :=
  match board st with
  | None => O
  | Some b => List.length (allCards b)
  end.

(** The cards of the target list that remain when the moved card is left
    out, as [handleDragEnd] computes them. *)
Definition cardsWithout (activeId : Z) (cards : list Card.t) : list Card.t :=
  filter (fun c => negb (Card.id c =? activeId)) cards.

(** The array once the element at index [i] is taken out. *)
Definition removeAt {A : Type} (i : Z) (l : list A) : list A :=
  firstn (Z.to_nat i) l ++ skipn (S (Z.to_nat i)) l.

(** The index at which [splice] inserts when it is called with
    [Math.min(newIndex, length)] on an array of that length. *)
Definition insertIndexOf (newIndex length : Z) : Z :=
  spliceStart (Z.min newIndex length) length.

(** The array once [x] is put in at index [k]. *)
Definition insertAt {A : Type} (k : Z) (x : A) (l : list A) : list A :=
  firstn (Z.to_nat k) l ++ x :: skipn (Z.to_nat k) l.

(** The board is [null], or the source list, the card in it, or the
    target list is not found. *)
Definition notFound (cardId src tgt : Z) (st : BoardState) : Prop :=
  match board st with
  | None => True
  | Some b =>
      match find (fun l => BoardList.id l =? src) (Board.lists b) with
      | None => True
      | Some sourceList =>
          find (fun c => Card.id c =? cardId) (BoardList.cards sourceList)
            = None
          \/ find (fun l => BoardList.id l =? tgt) (Board.lists b) = None
      end
  end.

(** No two rows of the store have the same id. *)
Definition uniqueIds (s : Store) : Prop := NoDup (map Item.id (items s)).

(** The stored version of the item with the given id. *)
Definition versionOf (id : Z) (s : Store) : option Z :=
  option_map Item.version (lockItemForUpdate id s).

(** How one move request relates a row before it to the row after it:
    the id and the deletion mark stay; the container and the version
    change for the moved item of a successful move only. *)
Definition rowAfterMove (r : MoveRequest.t) (succeeded : bool)
  (a b : Item.t) : Prop :=
  Item.id b = Item.id a /\
  Item.deletedAt b = Item.deletedAt a /\
  if succeeded && (Item.id a =? MoveRequest.itemId r) then
    Item.containerId b = MoveRequest.targetContainerId r /\
    Item.version b = Item.version a + 1
  else
    Item.containerId b = Item.containerId a /\
    Item.version b = Item.version a.

Definition isSuccess (o : MoveOutcome) : bool :=
  match o with
  | Success _ => true
  | _ => false
  end.

(** The rows keep everything but their rank. *)
Definition sameButRank (a b : Item.t) : Prop :=
  Item.id b = Item.id a /\
  Item.containerId b = Item.containerId a /\
  Item.version b = Item.version a /\
  Item.deletedAt b = Item.deletedAt a.

(** A card after the answer [updated] of a successful move has been
    taken over: the card with the id of [updated] gets its [position],
    [version] and [list_id]; its other fields, and every other card, stay
    as they are. *)
Definition withMoveResult (updated c : Card.t) : Card.t :=
  if Card.id c =? Card.id updated then
    Card.mk (Card.id c) (Card.title c) (Card.description c)
      (Card.position updated) (Card.list_id updated) (Card.version updated)
      (Card.created_at c)
  else c.

(** ** Sample data *)

Definition cardA : Card.t := Card.mk 1 "A" None "a" 10 1 "2024-01-01".
Definition cardB : Card.t := Card.mk 2 "B" None "b" 10 4 "2024-01-02".
Definition cardC : Card.t := Card.mk 3 "C" None "c" 10 2 "2024-01-03".
Definition cardD : Card.t := Card.mk 4 "D" None "n" 20 7 "2024-01-04".

Definition sampleBoard : Board.t :=
  Board.mk 1 "Sprint" None 1 "2024-01-01" "2024-01-05"
    [ BoardList.mk 10 "Todo" "n" 1 [cardA; cardB; cardC];
      BoardList.mk 20 "Done" "t" 1 [cardD] ].

Definition sampleState : BoardState := mkState (Some sampleBoard).

Definition sampleStore : Store :=
  mkStore
    [ Container.mk 1 None; Container.mk 2 None; Container.mk 3 None ]
    [ Item.mk 1 1 "n" 3 None; Item.mk 2 2 "g" 1 None; Item.mk 3 2 "t" 1 None ].

(** Item 1 is to be moved into container 2, which holds exactly the
    ranks ["aaa"] and ["aac"]. *)
Definition gapStore : Store :=
  mkStore
    [ Container.mk 1 None; Container.mk 2 None ]
    [ Item.mk 1 1 "n" 1 None; Item.mk 2 2 "aaa" 1 None;
      Item.mk 3 2 "aac" 1 None ].

(** Item 1, last seen at version 1, is moved into container 2 between
    items 2 and 3. *)
Definition moveBetween : MoveRequest.t :=
  MoveRequest.mk 1 2 (Some 2) (Some 3) 1.

(** Item 1, last seen at version 3, is moved into container 2 between
    items 2 and 3. *)
Definition sampleMove : MoveRequest.t := MoveRequest.mk 1 2 (Some 2) (Some 3) 3.

(** ** The board store without sorting ([frontend/src/store/boardStore.ts]) *)

(** The store of [frontend/src/store/boardStore.ts] keeps the arrays in
    the order it is given them.  Its [revertBoard], [addList], [removeList]
    and [removeCard] read as in the variant above; the operations that
    differ follow. *)
Module PlainStore.

Definition setBoard (b : Board.t) (st : BoardState) : BoardState :=
  mkState (Some b).

Definition moveCardOptimistic
  (cardId sourceListId targetListId newIndex : Z) (st : BoardState)
  : Js (MoveCardResult * BoardState) :=
  match board st with
  | None => Ret (mkMoveCardResult None None, st)
  | Some previousBoard =>
      let newBoard := jsonClone previousBoard in
      match find (fun l => BoardList.id l =? sourceListId)
              (Board.lists newBoard) with
      | None => Ret (mkMoveCardResult (Some previousBoard) None, st)
      | Some sourceList =>
          let cardIndex :=
            findIndex (fun c => Card.id c =? cardId)
              (BoardList.cards sourceList) in
          if cardIndex =? -1 then
            Ret (mkMoveCardResult (Some previousBoard) None, st)
          else
            let (removed, remaining) :=
              splice cardIndex 1 [] (BoardList.cards sourceList) in
            let newBoard :=
              withLists newBoard
                (updateFirst (fun l => BoardList.id l =? sourceListId)
                   (fun l => withCards l remaining) (Board.lists newBoard)) in
            match find (fun l => BoardList.id l =? targetListId)
                    (Board.lists newBoard) with
            | None => Ret (mkMoveCardResult (Some previousBoard) None, st)
            | Some targetList =>
                match hd_error removed with
                | None => TypeError
                | Some card =>
                    let card := withListId card targetListId in
                    let insertIndex :=
                      if (sourceListId =? targetListId)
                         && (cardIndex <? newIndex)
                      then Z.min newIndex (len (BoardList.cards targetList))
                      else Z.min newIndex (len (BoardList.cards targetList)) in
                    let inserted :=
                      snd (splice insertIndex 0 [card]
                             (BoardList.cards targetList)) in
                    let newBoard :=
                      withLists newBoard
                        (updateFirst (fun l => BoardList.id l =? targetListId)
                           (fun l => withCards l inserted)
                           (Board.lists newBoard)) in
                    Ret (mkMoveCardResult (Some previousBoard) (Some card),
                         mkState (Some newBoard))
                end
            end
      end
  end.

Definition updateCardAfterMove (cardId : Z) (updates : PartialCard.t)
  (st : BoardState) : BoardState :=
  match board st with
  | None => st
  | Some b =>
      mkState (Some (withLists b
        (map (fun list =>
                withCards list
                  (map (fun card =>
                          if Card.id card =? cardId
                          then spread card updates else card)
                     (BoardList.cards list)))
           (Board.lists b))))
  end.

Definition addCard (listId : Z) (card : Card.t) (st : BoardState)
  : BoardState :=
  match board st with
  | None => st
  | Some b =>
      mkState (Some (withLists b
        (map (fun list =>
                if BoardList.id list =? listId
                then withCards list (BoardList.cards list ++ [card])
                else list)
           (Board.lists b))))
  end.

Definition updateCard (cardId : Z) (updates : PartialCard.t)
  (st : BoardState) : BoardState :=
  match board st with
  | None => st
  | Some b =>
      mkState (Some (withLists b
        (map (fun list =>
                withCards list
                  (map (fun card =>
                          if Card.id card =? cardId
                          then spread card updates else card)
                     (BoardList.cards list)))
           (Board.lists b))))
  end.

(** [onSuccess] of the move mutation over this store. *)
Definition onSuccess (updatedCard : Card.t) (st : BoardState) : BoardState :=
  updateCardAfterMove (Card.id updatedCard)
    (PartialCard.mk None None None
       (Some (Card.position updatedCard))
       (Some (Card.list_id updatedCard))
       (Some (Card.version updatedCard))
       None)
    st.

End PlainStore.

(** ** Further notions *)

(** A list with id [listId] of the stored board holds a card with id
    [cardId]. *)
Definition hasCard (cardId listId : Z) (st : BoardState) : bool :=
  match board st with
  | None => false
  | Some b =>
      existsb (fun l => (BoardList.id l =? listId)
                        && existsb (fun c => Card.id c =? cardId)
                             (BoardList.cards l))
        (Board.lists b)
  end.

(** The stored board has a list with id [listId]. *)
Definition hasList (listId : Z) (st : BoardState) : bool :=
  match board st with
  | None => false
  | Some b => existsb (fun l => BoardList.id l =? listId) (Board.lists b)
  end.

(** The board with every list's cards sorted by [sortCards]. *)
Definition sortLists (st : BoardState) : BoardState :=
  match board st with
  | None => st
  | Some b =>
      mkState (Some (withLists b
        (map (fun l => withCards l (sortCards (BoardList.cards l)))
           (Board.lists b))))
  end.

(** No two cards of the board have the same id. *)
Definition uniqueCardIds (b : Board.t) : Prop :=
  NoDup (map Card.id (allCards b)).

(** A card that is not on the sample board, and a list that is not. *)
Definition cardE : Card.t := Card.mk 5 "E" None "bb" 10 1 "2024-01-05".

Definition listReview : BoardList.t :=
  BoardList.mk 30 "Review" "w" 1 [cardE].

(** The cards with [c] put in after the cards whose [position] is not
    greater than its own and before the cards whose [position] is
    greater. *)
Definition placeByPosition (c : Card.t) (cards : list Card.t)
  : list Card.t :=
  filter (fun x => compareCards x c <=? 0) cards
  ++ c :: filter (fun x => negb (compareCards x c <=? 0)) cards.

(** The drop target is a card whose list the board holds, but not with
    that card in it, and the drop is not the one on the dragged card's
    own list that finds neither card. *)
Definition dropsOnMissingCard (b : Board.t) (event : DragEndEvent) : bool :=
  match activeCard event, over event with
  | Some activeCard, Some (OverCard overCard) =>
      match find (fun l => BoardList.id l =? Card.list_id overCard)
              (Board.lists b) with
      | Some targetList =>
          (findIndex (fun c => Card.id c =? Card.id overCard)
             (BoardList.cards targetList) =? -1)
          && negb ((Card.list_id activeCard =? Card.list_id overCard)
                   && (findIndex (fun c => Card.id c =? Card.id activeCard)
                         (BoardList.cards targetList) =? -1))
      | None => false
      end
  | _, _ => false
  end.

(** The [position] of the card [u] the server answers a move with lies
    between the positions of the cards the request named as neighbours:
    not below the one of the card sent as [beforeCardId], not above the
    one of the card sent as [afterCardId]. *)
Definition positionFits (b : Board.t) (v : MoveCardVars) (u : Card.t)
  : Prop :=
  forall x, In x (allCards b) ->
    (beforeCardId v = Some (Card.id x) -> positionLe x u) /\
    (afterCardId v = Some (Card.id x) -> positionLe u x).

(** An answer of the server to the move of [cardA] to the head of list
    20, before [cardD]. *)
Definition cardAMoved : Card.t := Card.mk 1 "A" None "g" 20 2 "2024-01-01".

(** ** The HTTP client ([api/client.ts]) *)

Module Client.

(** [localStorage]: the values set for string keys. *)
Definition Storage : Type := list (string * string).

(** [localStorage.getItem(key)]: [null] for a key that is not set. *)
Definition getItem (key : string) (s : Storage) : option string :=
  option_map snd (find (fun kv => (fst kv =? key)%string) s).

Definition removeItem (key : string) (s : Storage) : Storage :=
  filter (fun kv => negb (fst kv =? key)%string) s.

Definition setItem (key value : string) (s : Storage) : Storage :=
  (key, value) :: removeItem key s.

(** The truth value of a string that may be [null] or [undefined]: the
    empty string is falsy. *)
Definition truthy (o : option string) : bool :=
  match o with
  | Some s => negb (s =? "")%string
  | None => false
  end.

(** [s.includes(sub)] *)
Fixpoint includes (sub s : string) : bool :=
  String.prefix sub s
  || match s with
     | EmptyString => false
     | String _ rest => includes sub rest
     end.

(** The parts of a request configuration the interceptors read and
    write: [config.url] and [config.headers.Authorization]. *)
Record RequestConfig : Type := mkRequest {
  url : option string;
  authorization : option string
}.

(** The parts of an [AxiosError] the response interceptor reads:
    [error.config] and [error.response?.status]. *)
Record AxiosError : Type := mkError {
  config : option RequestConfig;
  status : option Z
}.

(** What the interceptors can change in the browser: [localStorage] and
    [window.location.href]. *)
Record Browser : Type := mkBrowser {
  storage : Storage;
  href : string
}.

(** The request interceptor. *)
Definition onRequest (config : RequestConfig) (w : Browser) : RequestConfig :=
  match getItem "token" (storage w) with
  | Some token =>
      if truthy (Some token) then
        mkRequest (url config) (Some (String.append "Bearer " token))
      else config
  | None => config
  end.

(** [error.config?.url?.includes('/auth/')]: [undefined] without a
    configuration or a url. *)
Definition isAuthEndpoint (error : AxiosError) : option bool :=
  match config error with
  | Some c => option_map (includes "/auth/") (url c)
  | None => None
  end.

(** The error handler of the response interceptor: the browser
    afterwards and the error the returned promise is rejected with. *)
Definition onResponseError (error : AxiosError) (w : Browser)
  : Browser * AxiosError :=
  let w :=
    if statusIs (status error) 401 && negb (orElse (isAuthEndpoint error) false)
    then mkBrowser (removeItem "token" (storage w)) "/"
    else w in
  (w, error).

Definition setAuthToken (token : string) (w : Browser) : Browser :=
  mkBrowser (setItem "token" token (storage w)) (href w).

Definition clearAuthToken (w : Browser) : Browser :=
  mkBrowser (removeItem "token" (storage w)) (href w).

Definition isAuthenticated (w : Browser) : bool :=
  truthy (getItem "token" (storage w)).

End Client.

(** ** Signing in and out ([App.tsx]) *)

Module App.

(** An entry of a validation error list: [err.msg] and [err.message],
    strings when present. *)
Record ErrorItem : Type := mkItem {
  msg : option string;
  message : option string
}.

(** [error.response.data.detail]: a string, an array of error entries,
    or any other value, of which only the truth value matters. *)
Inductive Detail : Type :=
| DetailString (s : string)
| DetailArray (items : list ErrorItem)
| DetailOther (truthy : bool).

(** The outcome of an awaited call of the API: the value it resolves
    with, or the rejection with [error.response?.data?.detail]. *)
Inductive ApiResult (A : Type) : Type :=
| Resolved (a : A)
| Rejected (detail : option Detail).

Arguments Resolved {A} a.
Arguments Rejected {A} detail.

(** The state of the [App] component. *)
Record State : Type := mkApp {
  isLoggedIn : bool;
  isLoading : bool;
  boardsList : list Board.t;
  selectedBoardId : option Z;
  email : string;
  password : string;
  fullName : string;
  isRegister : bool;
  authError : option string
}.

Definition defaultMessage : string :=
  "Invalid email or password. Please try again.".

(** [err.msg || err.message], as [join] writes it: nothing for
    [undefined]. *)
Definition itemText (err : ErrorItem) : string :=
  orElse (if Client.truthy (msg err) then msg err else message err) "".

(** The message [handleAuth] extracts from a rejection. *)
Definition messageOf (detail : option Detail) : string :=
  match detail with
  | Some (DetailString s) =>
      if Client.truthy (Some s) then s else defaultMessage
  | Some (DetailArray items) => String.concat ", " (map itemText items)
  | Some (DetailOther _) => defaultMessage
  | None => defaultMessage
  end.

(** [handleAuth] once the awaited call has settled: [register] is the
    outcome of [auth.register], [login] the [access_token] or the
    rejection of [auth.login]; only the one the form is in is called.
    The result is the state, the browser and the toast shown. *)
Definition handleAuth (register : ApiResult unit) (login : ApiResult string)
  (st : State) (w : Client.Browser)
  : State * Client.Browser * option string :=
  let failed detail :=
    (mkApp (isLoggedIn st) false (boardsList st) (selectedBoardId st)
       (email st) (password st) (fullName st) (isRegister st)
       (Some (messageOf detail)),
     w, None) in
  if isRegister st then
    match register with
    | Resolved _ =>
        (mkApp (isLoggedIn st) false (boardsList st) (selectedBoardId st)
           (email st) "" (fullName st) false None,
         w, Some "Account created! Please log in.")
    | Rejected detail => failed detail
    end
  else
    match login with
    | Resolved access_token =>
        (mkApp true false (boardsList st) None
           (email st) (password st) (fullName st) (isRegister st) None,
         Client.setAuthToken access_token w, Some "Welcome to Ascendo AI!")
    | Rejected detail => failed detail
    end.

Definition handleLogout (st : State) (w : Client.Browser)
  : State * Client.Browser :=
  (mkApp false (isLoading st) [] None "" "" "" (isRegister st) None,
   Client.clearAuthToken w).

(** The state the component starts in on a page load. *)
Definition initial (w : Client.Browser) : State :=
  mkApp (Client.isAuthenticated w) false [] None "" "" "" false None.

(** The error box is rendered: [authError && ...]. *)
Definition errorShown (st : State) : bool := Client.truthy (authError st).

End App.

(** The request of the error was sent to a url that contains
    ["/auth/"]. *)
Definition namesAuthEndpoint (error : Client.AxiosError) : Prop :=
  exists c u p q,
    Client.config error = Some c /\ Client.url c = Some u /\
    u = String.append p (String.append "/auth/" q).

(** The error of a request to [url] that was answered with [status]. *)
Definition errorOf (url : string) (status : Z) : Client.AxiosError :=
  Client.mkError (Some (Client.mkRequest (Some url) None)) (Some status).

(** ** Notions for a drop *)

(** The id of the list a drop goes to: the list of the card under the
    pointer, or the list whose area is under the pointer. *)
Definition dropTarget (over : OverData) : option Z :=
  match over with
  | OverCard overCard => Some (Card.list_id overCard)
  | OverList listId => Some listId
  | OverOther => None
  end.

(** The insertion index of a drop into [targetList]: the index of the
    card under the pointer, or the number of the list's other cards for a
    drop on the list's area. *)
Definition dropIndex (active : Card.t) (over : OverData)
  (targetList : BoardList.t) : Z :=
  match over with
  | OverCard overCard =>
      findIndex (fun c => Card.id c =? Card.id overCard)
        (BoardList.cards targetList)
  | OverList _ =>
      len (cardsWithout (Card.id active) (BoardList.cards targetList))
  | OverOther => -1
  end.

(** The drop is on a card of the dragged card's own list at the dragged
    card's index: the drop that moves nothing. *)
Definition samePosition (active : Card.t) (over : OverData)
  (targetList : BoardList.t) : bool :=
  match over with
  | OverCard overCard =>
      (Card.list_id active =? Card.list_id overCard)
      && (findIndex (fun c => Card.id c =? Card.id active)
            (BoardList.cards targetList)
          =? findIndex (fun c => Card.id c =? Card.id overCard)
               (BoardList.cards targetList))
  | _ => false
  end.

(** ** [move_card] as the README writes it ([README.md], Concurrency
    Handling) *)

Module Readme.

(** [class Card(Base)], with the [list_id] that [move_card] sets. *)
Record CardRow : Type := mkRow {
  id : Z;
  title : string;
  position : string;
  list_id : Z;
  version : Z
}.

(** How a call of [move_card] ends: with the commit of the row as it was
    written, with [HTTPException(409, ...)], or without a row whose
    [version] could be read. *)
Inductive Response : Type :=
| Committed (card : CardRow)
| Http409 (detail : string)
| NoRow.

(** [move_card(card_id, target_list_id, expected_version)] on the table
    of cards; [new_position], which the pseudocode leaves open, is a
    parameter.  The result is the response and the table afterwards. *)
Definition move_card (new_position : string)
  (card_id target_list_id expected_version : Z) (db : list CardRow)
  : Response * list CardRow :=
  match find (fun c => id c =? card_id) db with
  | None => (NoRow, db)
  | Some card =>
      if negb (version card =? expected_version) then
        (Http409 "Card was modified by another user", db)
      else
        let write :=
          fun c => mkRow (id c) (title c) new_position target_list_id
                     (version c + 1) in
        (Committed (write card),
         updateFirst (fun c => id c =? card_id) write db)
  end.

(** The tables that later calls of [move_card] lead to. *)
Inductive reached (db : list CardRow) : list CardRow -> Prop :=
| reached_here : reached db db
| reached_call (db1 : list CardRow) (new_position : string)
    (card_id target_list_id expected_version : Z) :
    reached db db1 ->
    reached db
      (snd (move_card new_position card_id target_list_id expected_version
              db1)).

(** The stored version of the card with the given id. *)
Definition versionOf (card_id : Z) (db : list CardRow) : option Z :=
  option_map version (find (fun c => id c =? card_id) db).

End Readme.

(** A table for [Readme.move_card]: card 5 at version 3 in list 1. *)
Definition sampleRows : list Readme.CardRow :=
  [ Readme.mkRow 4 "Plan" "g" 1 1; Readme.mkRow 5 "Build" "n" 1 3 ].

(** ** A session of the board page *)


















(* ================================================================== *)
(** * Part II: properties *)
(* ================================================================== *)

(** ** The string order *)

Lemma ascii_compare_refl (c : ascii) : Ascii.compare c c = Eq.
Proof. unfold Ascii.compare. apply N.compare_refl. Qed.

Lemma ascii_compare_lt (c d : ascii) :
  Ascii.compare c d = Lt <-> (N_of_ascii c < N_of_ascii d)%N.
Proof. unfold Ascii.compare. apply N.compare_lt_iff. Qed.

Lemma N_of_ascii_lt_256 (c : ascii) : (N_of_ascii c < 256)%N.
Proof. apply N_ascii_bounded. Qed.

Lemma str_compare_refl (s : string) : String.compare s s = Eq.
Proof.
  induction s as [|c s IH]; simpl; [reflexivity|].
  now rewrite ascii_compare_refl.
Qed.

Lemma str_lt_irrefl (s : string) : ~ str_lt s s.
Proof. unfold str_lt. rewrite str_compare_refl. discriminate. Qed.

Lemma str_lt_trans (a b c : string) : str_lt a b -> str_lt b c -> str_lt a c.
Proof.
  unfold str_lt. revert b c.
  induction a as [|x a IH]; intros [|y b] [|z c]; simpl; try discriminate; auto.
  destruct (Ascii.compare x y) eqn:Exy;
    destruct (Ascii.compare y z) eqn:Eyz; intros Hab Hbc; try discriminate.
  - apply Ascii.compare_eq_iff in Exy. apply Ascii.compare_eq_iff in Eyz.
    subst. rewrite ascii_compare_refl. eauto.
  - apply Ascii.compare_eq_iff in Exy. subst. now rewrite Eyz.
  - apply Ascii.compare_eq_iff in Eyz. subst. now rewrite Exy.
  - apply (proj1 (ascii_compare_lt _ _)) in Exy.
    apply (proj1 (ascii_compare_lt _ _)) in Eyz.
    assert (H : Ascii.compare x z = Lt) by (apply ascii_compare_lt; lia).
    now rewrite H.
Qed.

Lemma str_lt_empty_r (s : string) : ~ str_lt s EmptyString.
Proof. unfold str_lt. destruct s; simpl; discriminate. Qed.

(** ** RankSpace: the midpoint property *)

Lemma rankWalk_empty_empty (room : nat) :
  rankWalk room EmptyString (Some EmptyString) = NeedsRebalance.
Proof.
  induction room as [|room IH]; simpl; [reflexivity|].
  now rewrite IH.
Qed.

Lemma validRank_lowerCode (s : string) :
  validRank s = true ->
  (alphabetFirst <= lowerCode s <= alphabetLast)%N.
Proof.
  destruct s as [|c s]; simpl.
  - unfold alphabetFirst, alphabetLast. lia.
  - unfold inAlphabet. rewrite !andb_true_iff, !N.leb_le. tauto.
Qed.

Lemma validRank_upperCode (u : option string) :
  match u with Some s => validRank s = true | None => True end ->
  (alphabetFirst <= upperCode u <= alphabetLast + 1)%N.
Proof.
  destruct u as [[|c s]|]; simpl; unfold alphabetFirst, alphabetLast.
  - lia.
  - unfold inAlphabet, alphabetFirst, alphabetLast.
    rewrite !andb_true_iff, !N.leb_le. lia.
  - lia.
Qed.

Lemma validRank_strTail (s : string) :
  validRank s = true -> validRank (strTail s) = true.
Proof.
  destruct s as [|c s]; simpl; [auto|].
  rewrite andb_true_iff. tauto.
Qed.

Lemma midpoint_between (l u : N) :
  (l + 2 <= u)%N -> (l < (l + u) / 2 < u)%N.
Proof.
  intros H.
  pose proof (N.div_mod (l + u) 2 ltac:(lia)) as Hd.
  pose proof (N.mod_lt (l + u) 2 ltac:(lia)) as Hm.
  set (q := ((l + u) / 2)%N) in *. set (m := ((l + u) mod 2)%N) in *.
  lia.
Qed.

(** The rank returned by the walk lies strictly above the lower bound. *)
Lemma rankWalk_above_lower (room : nat) :
  forall lower upper r,
    rankWalk room lower upper = Rank r -> str_lt lower r.
Proof.
  induction room as [|room IH]; intros lower upper r; simpl; [discriminate|].
  destruct (lowerCode lower + 2 <=? upperCode upper)%N eqn:Egap.
  - intros [= <-]. apply N.leb_le in Egap.
    destruct lower as [|c lower]; [reflexivity|].
    unfold str_lt. simpl in *.
    assert (Hu : (upperCode upper <= 256)%N).
    { destruct upper as [[|d s]|]; simpl; unfold alphabetFirst, alphabetLast;
        try lia.
      pose proof (N_of_ascii_lt_256 d). lia. }
    pose proof (N_of_ascii_lt_256 c) as Hc.
    assert (Hm : Ascii.compare c
                   (ascii_of_N ((N_of_ascii c + upperCode upper) / 2)) = Lt).
    { pose proof (midpoint_between _ _ Egap) as Hmid.
      apply ascii_compare_lt. rewrite N_ascii_embedding; lia. }
    now rewrite Hm.
  - destruct (rankWalk room (strTail lower) (option_map strTail upper))
      as [r'|] eqn:Erec; [|discriminate].
    intros [= <-]. apply IH in Erec.
    destruct lower as [|c lower]; [reflexivity|].
    unfold str_lt in *. simpl in *.
    now rewrite ascii_N_embedding, ascii_compare_refl.
Qed.

(** With a valid upper bound strictly above the lower bound, the rank
    returned by the walk lies strictly below the upper bound. *)
Lemma rankWalk_below_upper (room : nat) :
  forall lower upper r,
    validRank upper = true ->
    str_lt lower upper ->
    rankWalk room lower (Some upper) = Rank r -> str_lt r upper.
Proof.
  induction room as [|room IH]; intros lower upper r Hv Hlt; simpl;
    [discriminate|].
  destruct upper as [|cu tu]; [now apply str_lt_empty_r in Hlt|].
  simpl in Hv. apply andb_true_iff in Hv as [Hcu Hv].
  unfold inAlphabet in Hcu. apply andb_true_iff in Hcu as [Hcu1 Hcu2].
  apply N.leb_le in Hcu1, Hcu2.
  pose proof (N_of_ascii_lt_256 cu) as Hcu256.
  change (upperCode (Some (String cu tu))) with (N_of_ascii cu).
  change (strTail (String cu tu)) with tu.
  destruct (lowerCode lower + 2 <=? N_of_ascii cu)%N eqn:Egap.
  - intros [= <-]. apply N.leb_le in Egap.
    pose proof (midpoint_between _ _ Egap) as Hmid.
    unfold str_lt. simpl.
    assert (Hm : Ascii.compare
                   (ascii_of_N ((lowerCode lower + N_of_ascii cu) / 2)) cu
                 = Lt).
    { apply ascii_compare_lt. rewrite N_ascii_embedding; lia. }
    now rewrite Hm.
  - destruct (rankWalk room (strTail lower) (Some tu)) as [r'|] eqn:Erec;
      [|discriminate].
    intros [= <-]. unfold str_lt in *.
    destruct lower as [|cl tl];
      cbn [String.compare lowerCode strTail] in *.
    + destruct (N.eq_dec (N_of_ascii cu) alphabetFirst) as [Heq|Hne].
      * rewrite <- Heq, ascii_N_embedding, ascii_compare_refl.
        destruct tu as [|d tu'].
        -- now rewrite rankWalk_empty_empty in Erec.
        -- apply (IH EmptyString (String d tu') r' Hv eq_refl Erec).
      * assert (Hc : Ascii.compare (ascii_of_N alphabetFirst) cu = Lt).
        { apply ascii_compare_lt. rewrite N_ascii_embedding;
            unfold alphabetFirst in *; lia. }
        now rewrite Hc.
    + rewrite ascii_N_embedding.
      destruct (Ascii.compare cl cu); try discriminate; eauto.
Qed.

(** The walk stays inside the alphabet. *)
Lemma rankWalk_valid (room : nat) :
  forall lower upper r,
    validRank lower = true ->
    match upper with Some u => validRank u = true | None => True end ->
    rankWalk room lower upper = Rank r -> validRank r = true.
Proof.
  induction room as [|room IH]; intros lower upper r Hl Hu; simpl;
    [discriminate|].
  pose proof (validRank_lowerCode _ Hl) as Hlc.
  pose proof (validRank_upperCode _ Hu) as Huc.
  unfold alphabetFirst, alphabetLast in Hlc, Huc.
  destruct (lowerCode lower + 2 <=? upperCode upper)%N eqn:Egap.
  - intros [= <-]. apply N.leb_le in Egap.
    pose proof (midpoint_between _ _ Egap) as Hmid.
    simpl. unfold inAlphabet, alphabetFirst, alphabetLast.
    rewrite N_ascii_embedding by lia.
    rewrite andb_true_r. apply andb_true_iff. rewrite !N.leb_le. lia.
  - destruct (rankWalk room (strTail lower) (option_map strTail upper))
      as [r'|] eqn:Erec; [|discriminate].
    intros [= <-]. simpl. apply andb_true_iff. split.
    + unfold inAlphabet, alphabetFirst, alphabetLast.
      rewrite N_ascii_embedding by lia.
      apply andb_true_iff. rewrite !N.leb_le. lia.
    + eapply IH; [| |exact Erec].
      * now apply validRank_strTail.
      * destruct upper as [u|]; simpl; [now apply validRank_strTail|exact I].
Qed.

(** The README's walk-through: the first card gets ["n"], a card appended
    after it gets ["t"], and a card between the two gets ["q"]. *)
Example rankBetween_first : rankBetween None None = Rank "n".
Proof. reflexivity. Qed.

Example rankBetween_append : rankBetween (Some "n") None = Rank "t".
Proof. reflexivity. Qed.

Example rankBetween_n_t : rankBetween (Some "n") (Some "t") = Rank "q".
Proof. reflexivity. Qed.

(** Two ranks with no room between them within the length threshold. *)
Example rankBetween_exhausted :
  rankBetween (Some "aaa") (Some "aab") = NeedsRebalance.
Proof. reflexivity. Qed.

(** C1.  For valid ranks [lower < upper], [rankBetween] either returns a
    rank [r] over the alphabet with [lower < r < upper] in the
    lexicographic order, or signals [NeedsRebalance]; it never returns a
    value outside the open interval. *)
Theorem rankBetween_midpoint (lower upper : string) :
  validRank lower = true ->
  validRank upper = true ->
  str_lt lower upper ->
  match rankBetween (Some lower) (Some upper) with
  | Rank r => str_lt lower r /\ str_lt r upper /\ validRank r = true
  | NeedsRebalance => True
  end.
Proof.
  intros Hl Hu Hlt. unfold rankBetween.
  destruct (rankWalk maxRankLength lower (Some upper)) as [r|] eqn:E;
    [|exact I].
  repeat split.
  - eapply rankWalk_above_lower; eauto.
  - eapply rankWalk_below_upper; eauto.
  - eapply rankWalk_valid; [exact Hl| |exact E]. exact Hu.
Qed.

Lemma rankBetween_midpoint_witness :
  validRank "n" = true /\ validRank "t" = true /\ str_lt "n" "t" /\
  match rankBetween (Some "n") (Some "t") with
  | Rank r => str_lt "n" r /\ str_lt r "t" /\ validRank r = true
  | NeedsRebalance => True
  end.
Proof.
  split; [reflexivity|]. split; [reflexivity|]. split; [reflexivity|].
  apply (rankBetween_midpoint "n" "t"); reflexivity.
Defined.

(** C2 as stated fails: between ["aaa"] and ["aac"] the code point of
    ["b"] is unused at the third position, so a rank is returned and no
    rebalance is signalled. *)
Lemma rankBetween_aaa_aac_no_rebalance :
  rankBetween (Some "aaa") (Some "aac") <> NeedsRebalance.
Proof. discriminate. Qed.

(** C2, amended.  Between ["aaa"] and ["aac"], [rankBetween] returns the
    intermediate rank ["aab"] at the first attempt: a rank over a-z,
    strictly between the two, and no [NeedsRebalance].  A move between
    the two items of a container that holds exactly these ranks succeeds
    with that rank, whatever the rebalance procedure is: the procedure is
    not called, and the ranks of the two neighbours stay as they are. *)
Theorem rankBetween_aaa_aac :
  rankBetween (Some "aaa") (Some "aac") = Rank "aab" /\
  validRank "aab" = true /\
  str_lt "aaa" "aab" /\ str_lt "aab" "aac" /\
  forall rebalanceFn : list Item.t -> option (list string),
    move (mkRankSpace rankBetween rebalanceFn) moveBetween gapStore
    = (Success (Item.mk 1 2 "aab" 2 None),
       mkStore (containers gapStore)
         [ Item.mk 1 2 "aab" 2 None; Item.mk 2 2 "aaa" 1 None;
           Item.mk 3 2 "aac" 1 None ]).
Proof.
  split; [reflexivity|]. split; [reflexivity|].
  split; [reflexivity|]. split; [reflexivity|].
  intros rebalanceFn. reflexivity.
Qed.

(** ** Arrays *)

Lemma len_nonneg {A : Type} (l : list A) : 0 <= len l.
Proof. unfold len. lia. Qed.

Lemma len_cons {A : Type} (x : A) (l : list A) : len (x :: l) = len l + 1.
Proof. unfold len. simpl List.length. lia. Qed.

Lemma findIndex_bounds {A : Type} (p : A -> bool) (l : list A) :
  -1 <= findIndex p l < len l.
Proof.
  induction l as [|x l IH]; simpl.
  - unfold len. simpl. lia.
  - rewrite len_cons. destruct (p x); [pose proof (len_nonneg l); lia|].
    destruct (findIndex p l =? -1) eqn:E; [pose proof (len_nonneg l); lia|].
    apply Z.eqb_neq in E. lia.
Qed.

Lemma findIndex_none {A : Type} (p : A -> bool) (l : list A) :
  findIndex p l = -1 <-> find p l = None.
Proof.
  induction l as [|x l IH]; simpl; [tauto|].
  destruct (p x); [split; discriminate|].
  destruct (findIndex p l =? -1) eqn:E.
  - apply Z.eqb_eq in E. tauto.
  - apply Z.eqb_neq in E. pose proof (findIndex_bounds p l) as Hb.
    split; [lia|]. intros H. apply IH in H. contradiction.
Qed.

Lemma findIndex_found {A : Type} (p : A -> bool) (l : list A) :
  findIndex p l <> -1 ->
  exists x,
    nth_error l (Z.to_nat (findIndex p l)) = Some x /\
    find p l = Some x /\ p x = true.
Proof.
  induction l as [|x l IH]; simpl; [congruence|].
  destruct (p x) eqn:Epx; [intros _; exists x; auto|].
  destruct (findIndex p l =? -1) eqn:E; [congruence|].
  apply Z.eqb_neq in E. intros _.
  destruct (IH E) as (y & Hn & Hf & Hp).
  exists y. repeat split; auto.
  pose proof (findIndex_bounds p l).
  replace (Z.to_nat (findIndex p l + 1)) with (S (Z.to_nat (findIndex p l)))
    by lia.
  exact Hn.
Qed.

Lemma nth_error_firstn_skipn {A : Type} (l : list A) (n : nat) (x : A) :
  nth_error l n = Some x -> l = firstn n l ++ x :: skipn (S n) l.
Proof.
  revert n. induction l as [|y l IH]; intros [|n]; simpl; try discriminate.
  - now intros [= ->].
  - intros H. f_equal. now apply IH.
Qed.

(** Removing the element at a valid index. *)
Lemma splice_remove {A : Type} (l : list A) (i : Z) (x : A) :
  0 <= i -> nth_error l (Z.to_nat i) = Some x ->
  splice i 1 [] l =
    ([x], firstn (Z.to_nat i) l ++ skipn (S (Z.to_nat i)) l).
Proof.
  intros Hi Hn.
  assert (Hlt : (Z.to_nat i < List.length l)%nat)
    by (apply nth_error_Some; congruence).
  unfold splice, spliceStart, len.
  replace (i <? 0) with false by (symmetry; apply Z.ltb_ge; lia).
  replace (Z.min i (Z.of_nat (List.length l))) with i by lia.
  replace (Z.min (Z.max 1 0) (Z.of_nat (List.length l) - i)) with 1 by lia.
  replace (Z.to_nat (i + 1)) with (S (Z.to_nat i)) by lia.
  f_equal.
  rewrite (nth_error_firstn_skipn l _ x Hn) at 1.
  rewrite skipn_app, firstn_length_le by lia.
  replace (Z.to_nat i - Z.to_nat i)%nat with O by lia.
  rewrite skipn_all2 by (rewrite firstn_length_le; lia).
  reflexivity.
Qed.

Lemma spliceStart_bounds (start n : Z) :
  0 <= n -> 0 <= spliceStart start n <= n.
Proof.
  unfold spliceStart. intros Hn.
  destruct (start <? 0) eqn:E; [apply Z.ltb_lt in E|apply Z.ltb_ge in E]; lia.
Qed.

(** Inserting one element. *)
Lemma splice_insert {A : Type} (l : list A) (i : Z) (x : A) :
  snd (splice i 0 [x] l) =
    firstn (Z.to_nat (spliceStart i (len l))) l
    ++ x :: skipn (Z.to_nat (spliceStart i (len l))) l.
Proof.
  unfold splice. cbn [snd].
  pose proof (spliceStart_bounds i (len l) (len_nonneg l)) as Hb.
  replace (Z.min (Z.max 0 0) (len l - spliceStart i (len l))) with 0 by lia.
  now rewrite Z.add_0_r.
Qed.

Lemma find_updateFirst_same {A : Type} (p : A -> bool) (f : A -> A)
  (l : list A) :
  (forall y, p (f y) = p y) ->
  find p (updateFirst p f l) = option_map f (find p l).
Proof.
  intros Hp. induction l as [|x l IH]; simpl; [reflexivity|].
  destruct (p x) eqn:E; simpl.
  - now rewrite Hp, E.
  - now rewrite E.
Qed.

Lemma find_updateFirst_none {A : Type} (p q : A -> bool) (f : A -> A)
  (l : list A) :
  (forall y, q (f y) = q y) ->
  find q (updateFirst p f l) = None <-> find q l = None.
Proof.
  intros Hq. induction l as [|x l IH]; simpl; [tauto|].
  destruct (p x); simpl.
  - rewrite Hq. destruct (q x); [split; discriminate|tauto].
  - destruct (q x); [split; discriminate|tauto].
Qed.

Lemma find_updateFirst_other {A : Type} (p q : A -> bool) (f : A -> A)
  (l : list A) :
  (forall y, p y = true -> q y = false) ->
  (forall y, q (f y) = q y) ->
  find q (updateFirst p f l) = find q l.
Proof.
  intros Hpq Hq. induction l as [|x l IH]; simpl; [reflexivity|].
  destruct (p x) eqn:E; simpl.
  - now rewrite Hq, (Hpq _ E).
  - now rewrite IH.
Qed.

(** The element [find] returns splits the array. *)
Lemma find_split {A : Type} (p : A -> bool) (l : list A) (x : A) :
  find p l = Some x ->
  exists pre post,
    l = pre ++ x :: post /\
    forall f, updateFirst p f l = pre ++ f x :: post.
Proof.
  induction l as [|y l IH]; simpl; [discriminate|].
  destruct (p y) eqn:E.
  - intros [= ->]. exists [], l. split; [reflexivity|].
    intros f. reflexivity.
  - intros H. destruct (IH H) as (pre & post & -> & Hu).
    exists (y :: pre), post. split; [reflexivity|].
    intros f. simpl. now rewrite Hu.
Qed.

(** ** The optimistic move *)

(** [moveCardOptimistic] without its array plumbing: it never throws, and
    it either gives up and leaves the store alone, or takes the card out
    of the source list and puts it into the target list. *)
Lemma moveCardOptimistic_unfold (cardId src tgt newIndex : Z)
  (st : BoardState) :
  moveCardOptimistic cardId src tgt newIndex st =
  match board st with
  | None => Ret (mkMoveCardResult None None, st)
  | Some b =>
      match find (fun l => BoardList.id l =? src) (Board.lists b) with
      | None => Ret (mkMoveCardResult (Some b) None, st)
      | Some sourceList =>
          match find (fun c => Card.id c =? cardId)
                  (BoardList.cards sourceList) with
          | None => Ret (mkMoveCardResult (Some b) None, st)
          | Some c =>
              let i :=
                findIndex (fun c => Card.id c =? cardId)
                  (BoardList.cards sourceList) in
              let lists1 :=
                updateFirst (fun l => BoardList.id l =? src)
                  (fun l => withCards l
                              (removeAt i (BoardList.cards sourceList)))
                  (Board.lists b) in
              match find (fun l => BoardList.id l =? tgt) lists1 with
              | None => Ret (mkMoveCardResult (Some b) None, st)
              | Some targetList =>
                  let c' := withListId c tgt in
                  Ret (mkMoveCardResult (Some b) (Some c'),
                       mkState (Some (withLists (withLists b lists1)
                         (updateFirst (fun l => BoardList.id l =? tgt)
                            (fun l => withCards l
                               (insertAt
                                  (insertIndexOf newIndex
                                     (len (BoardList.cards targetList)))
                                  c' (BoardList.cards targetList)))
                            lists1))))
              end
          end
      end
  end.
Proof.
  unfold moveCardOptimistic, jsonClone, removeAt, insertAt, insertIndexOf.
  destruct (board st) as [b|]; [|reflexivity].
  destruct (find (fun l => BoardList.id l =? src) (Board.lists b))
    as [sourceList|]; [|reflexivity].
  set (p := fun c => Card.id c =? cardId).
  destruct (findIndex p (BoardList.cards sourceList) =? -1) eqn:E.
  - apply Z.eqb_eq in E. apply findIndex_none in E. now rewrite E.
  - apply Z.eqb_neq in E.
    destruct (findIndex_found p _ E) as (c & Hn & Hf & _).
    pose proof (findIndex_bounds p (BoardList.cards sourceList)) as Hb.
    rewrite Hf.
    rewrite (splice_remove _ _ c) by (lia || exact Hn).
    cbn [withLists Board.lists].
    destruct (find (fun l => BoardList.id l =? tgt) _) as [targetList|];
      [|reflexivity].
    cbn [hd_error]. now rewrite splice_insert.
Qed.

Lemma removeAt_perm {A : Type} (l : list A) (i : Z) (x : A) :
  nth_error l (Z.to_nat i) = Some x -> Permutation l (x :: removeAt i l).
Proof.
  intros H. unfold removeAt.
  rewrite (nth_error_firstn_skipn l _ x H) at 1.
  symmetry. apply Permutation_middle.
Qed.

Lemma insertAt_perm {A : Type} (l : list A) (k : Z) (x : A) :
  Permutation (insertAt k x l) (x :: l).
Proof.
  unfold insertAt. rewrite <- (firstn_skipn (Z.to_nat k) l) at 3.
  symmetry. apply Permutation_middle.
Qed.

Lemma insertIndexOf_bounds (newIndex n : Z) :
  0 <= n ->
  Z.min newIndex n <= n /\
  0 <= insertIndexOf newIndex n <= n /\
  (0 <= newIndex -> insertIndexOf newIndex n = Z.min newIndex n).
Proof.
  intros Hn. unfold insertIndexOf, spliceStart.
  destruct (Z.min newIndex n <? 0) eqn:E;
    [apply Z.ltb_lt in E|apply Z.ltb_ge in E]; lia.
Qed.

(** Replacing the cards of the list [find] returns, by cards that are one
    card more or one card less, changes the cards of the board by that
    card. *)
Lemma flat_map_updateFirst (p : BoardList.t -> bool) (ls : list BoardList.t)
  (x : BoardList.t) (cs : list Card.t) :
  find p ls = Some x ->
  exists before after,
    flat_map BoardList.cards ls = before ++ BoardList.cards x ++ after /\
    flat_map BoardList.cards (updateFirst p (fun l => withCards l cs) ls)
      = before ++ cs ++ after.
Proof.
  intros H. destruct (find_split p ls x H) as (pre & post & -> & Hu).
  rewrite Hu. exists (flat_map BoardList.cards pre),
    (flat_map BoardList.cards post).
  rewrite !flat_map_app. simpl. auto.
Qed.

Lemma allCards_take_out (p : BoardList.t -> bool) (ls : list BoardList.t)
  (x : BoardList.t) (c : Card.t) (cs : list Card.t) :
  find p ls = Some x ->
  Permutation (BoardList.cards x) (c :: cs) ->
  Permutation (flat_map BoardList.cards ls)
    (c :: flat_map BoardList.cards
            (updateFirst p (fun l => withCards l cs) ls)).
Proof.
  intros H Hp.
  destruct (flat_map_updateFirst p ls x cs H) as (b & a & -> & ->).
  rewrite Hp. simpl. symmetry. apply Permutation_middle.
Qed.

Lemma allCards_put_in (p : BoardList.t -> bool) (ls : list BoardList.t)
  (x : BoardList.t) (c : Card.t) (cs : list Card.t) :
  find p ls = Some x ->
  Permutation cs (c :: BoardList.cards x) ->
  Permutation
    (flat_map BoardList.cards (updateFirst p (fun l => withCards l cs) ls))
    (c :: flat_map BoardList.cards ls).
Proof.
  intros H Hp.
  destruct (flat_map_updateFirst p ls x cs H) as (b & a & -> & ->).
  rewrite Hp. simpl. symmetry. apply Permutation_middle.
Qed.

(** C9.  [moveCardOptimistic] always returns (it never reads a property
    of [undefined]), with the board before the call as [previousBoard].
    When the board is [null], or the source list, the card, or the target
    list is not found, the store is left as it is and no card is
    returned.  Otherwise the card is returned with its [list_id] set to
    the target list; it is taken out of the source list and put into the
    target list at an index that [Math.min] and [splice] keep between [0]
    and the length of the list, which is [Math.min(newIndex, length)] for
    every [newIndex >= 0]; and the total number of cards is unchanged. *)
Theorem moveCardOptimistic_total_conserving
  (cardId src tgt newIndex : Z) (st : BoardState) :
  exists res st',
    moveCardOptimistic cardId src tgt newIndex st = Ret (res, st') /\
    previousBoard res = board st /\
    match card res with
    | None => notFound cardId src tgt st /\ st' = st
    | Some c' =>
        ~ notFound cardId src tgt st /\
        totalCards st' = totalCards st /\
        exists b b' sourceList targetList c,
          board st = Some b /\ board st' = Some b' /\
          find (fun l => BoardList.id l =? src) (Board.lists b)
            = Some sourceList /\
          find (fun l => BoardList.id l =? tgt) (Board.lists b)
            = Some targetList /\
          find (fun c => Card.id c =? cardId) (BoardList.cards sourceList)
            = Some c /\
          c' = withListId c tgt /\
          let remaining :=
            removeAt
              (findIndex (fun c => Card.id c =? cardId)
                 (BoardList.cards sourceList))
              (BoardList.cards sourceList) in
          let rest :=
            if src =? tgt then remaining else BoardList.cards targetList in
          let k := insertIndexOf newIndex (len rest) in
          find (fun l => BoardList.id l =? tgt) (Board.lists b')
            = Some (withCards targetList (insertAt k c' rest)) /\
          (src <> tgt ->
           find (fun l => BoardList.id l =? src) (Board.lists b')
             = Some (withCards sourceList remaining)) /\
          Z.min newIndex (len rest) <= len rest /\
          0 <= k <= len rest /\
          (0 <= newIndex -> k = Z.min newIndex (len rest))
    end.
Proof.
  rewrite moveCardOptimistic_unfold. unfold notFound, totalCards.
  destruct (board st) as [b|] eqn:Eb;
    [|eexists _, _; cbn; repeat split; auto].
  destruct (find (fun l => BoardList.id l =? src) (Board.lists b))
    as [sourceList|] eqn:Esrc;
    [|eexists _, _; cbn; repeat split; auto].
  destruct (find (fun c => Card.id c =? cardId) (BoardList.cards sourceList))
    as [c|] eqn:Ecard;
    [|eexists _, _; cbn; repeat split; auto].
  cbv zeta.
  set (i := findIndex (fun c => Card.id c =? cardId)
              (BoardList.cards sourceList)).
  set (remaining := removeAt i (BoardList.cards sourceList)).
  set (lists1 := updateFirst _ _ (Board.lists b)).
  assert (Hi : i <> -1).
  { intros Hi. apply findIndex_none in Hi. congruence. }
  destruct (findIndex_found _ _ Hi) as (c0 & Hn & Hf & _).
  fold i in Hn. rewrite Ecard in Hf. injection Hf as <-.
  assert (Htgt :
            find (fun l => BoardList.id l =? tgt) lists1 = None <->
            find (fun l => BoardList.id l =? tgt) (Board.lists b) = None).
  { apply find_updateFirst_none. reflexivity. }
  assert (Hsrc1 : find (fun l => BoardList.id l =? src) lists1
                  = Some (withCards sourceList remaining)).
  { unfold lists1. rewrite find_updateFirst_same by reflexivity.
    now rewrite Esrc. }
  destruct (find (fun l => BoardList.id l =? tgt) lists1)
    as [targetList1|] eqn:Etgt.
  2:{ eexists _, _. split; [reflexivity|]. cbn [previousBoard card].
      split; [reflexivity|]. split; [|reflexivity].
      right. now apply Htgt. }
  eexists _, _. split; [reflexivity|]. cbn [previousBoard card board].
  split; [reflexivity|]. split; [|split].
  - intros [H|H]; [congruence|]. apply Htgt in H. congruence.
  - unfold allCards. cbn [withLists Board.lists].
    rewrite (Permutation_length
               (allCards_put_in _ lists1 targetList1 (withListId c tgt) _
                  Etgt (insertAt_perm _ _ _))).
    rewrite (Permutation_length
               (allCards_take_out _ (Board.lists b) sourceList c _
                  Esrc (removeAt_perm _ _ _ Hn))).
    reflexivity.
  - cbn [withLists Board.lists].
    assert (Horig : exists targetList,
               find (fun l => BoardList.id l =? tgt) (Board.lists b)
                 = Some targetList /\
               targetList1
                 = withCards targetList
                     (if src =? tgt then remaining
                      else BoardList.cards targetList)).
    { destruct (src =? tgt) eqn:Est.
      - apply Z.eqb_eq in Est. subst tgt. exists sourceList.
        split; [exact Esrc|]. congruence.
      - apply Z.eqb_neq in Est. exists targetList1.
        split; [|now destruct targetList1].
        rewrite <- Etgt. unfold lists1. symmetry.
        apply find_updateFirst_other; [|reflexivity].
        intros y Hy. apply Z.eqb_eq in Hy. apply Z.eqb_neq. congruence. }
    destruct Horig as (targetList & Etgt0 & ->).
    exists b. eexists. exists sourceList, targetList, c.
    split; [reflexivity|]. split; [reflexivity|].
    split; [exact Esrc|]. split; [exact Etgt0|]. split; [exact Ecard|].
    split; [reflexivity|]. cbv zeta. fold i. fold remaining.
    cbn [withLists withCards Board.lists BoardList.cards].
    split; [|split].
    + rewrite find_updateFirst_same by reflexivity. now rewrite Etgt.
    + intros Hne. rewrite <- Hsrc1.
      apply find_updateFirst_other; [|reflexivity].
      intros y Hy. apply Z.eqb_eq in Hy. apply Z.eqb_neq. congruence.
    + apply insertIndexOf_bounds, len_nonneg.
Qed.


(** C3.  Whatever the error of a failed move is, [onError] with the
    context of the optimistic update puts the store back to the state
    before the update, as [revertBoard] does with the returned
    [previousBoard]; when there was a board before the update, it does so
    from every later state of the store.  The HTTP status 409, and no
    other, is shown as a conflict and makes the board be fetched again. *)
Theorem move_error_restores_board
  (cardId src tgt newIndex : Z) (st : BoardState) (status : option Z) :
  match moveCardOptimistic cardId src tgt newIndex st with
  | Ret (res, st1) =>
      revertBoard (previousBoard res) st1 = st /\
      snd (onError status (Some res) st1) = st /\
      (board st <> None ->
       forall later, snd (onError status (Some res) later) = st) /\
      (toast (fst (onError status (Some res) st1)) = conflictToast
       <-> status = Some 409) /\
      (invalidateBoardQuery (fst (onError status (Some res) st1)) = true
       <-> status = Some 409)
  | TypeError => False
  end.
Proof.
  assert (Hres : exists res st1,
             moveCardOptimistic cardId src tgt newIndex st = Ret (res, st1) /\
             previousBoard res = board st /\
             (board st = None -> st1 = st)).
  { rewrite moveCardOptimistic_unfold.
    destruct (board st) as [b|]; [|eexists _, _; repeat split].
    destruct (find _ (Board.lists b)) as [sourceList|];
      [destruct (find _ (BoardList.cards sourceList)) as [c|];
       [cbv zeta; destruct (find _ _) as [targetList|]|]|];
      eexists _, _; (split; [reflexivity|]); split;
        try reflexivity; discriminate. }
  destruct Hres as (res & st1 & -> & Hprev & Hnone).
  assert (Hrev : revertBoard (previousBoard res) st1 = st).
  { rewrite Hprev. destruct st as [[b|]]; cbn; [reflexivity|].
    now apply Hnone. }
  split; [exact Hrev|].
  assert (Hsnd : forall later,
             snd (onError status (Some res) later)
             = match previousBoard res with
               | Some b => revertBoard (Some b) later
               | None => later
               end).
  { intros later. unfold onError.
    destruct (statusIs status 409); [reflexivity|].
    now destruct (statusIs status 422). }
  assert (Hctx : match previousBoard res with
                 | Some b => revertBoard (Some b) st1
                 | None => st1
                 end = st).
  { destruct (previousBoard res); exact Hrev. }
  split; [now rewrite Hsnd|]. split.
  { intros Hsome later. rewrite Hsnd, Hprev.
    destruct st as [[b|]]; cbn in *; [reflexivity|congruence]. }
  unfold onError, statusIs. destruct status as [s|]; cbn.
  - destruct (s =? 409) eqn:E409; cbn.
    + apply Z.eqb_eq in E409. subst. repeat split; reflexivity.
    + apply Z.eqb_neq in E409.
      destruct (s =? 422); cbn;
        (split; split; try discriminate; intros [= ?]; contradiction).
  - split; split; discriminate.
Qed.

(** ** The drag end *)

Lemma arrayGet_none_iff {A : Type} (l : list A) (i : Z) :
  arrayGet l i = None <-> i < 0 \/ len l <= i.
Proof.
  unfold arrayGet, len.
  destruct (i <? 0) eqn:E; [apply Z.ltb_lt in E|apply Z.ltb_ge in E].
  - split; auto.
  - rewrite nth_error_None. lia.
Qed.

(** Leaving out the cards with one id shortens a list of distinct ids by
    one card at most. *)
Lemma cardsWithout_length (a : Z) (cards : list Card.t) :
  NoDup (map Card.id cards) ->
  len cards - 1 <= len (cardsWithout a cards).
Proof.
  unfold cardsWithout.
  induction cards as [|c cards IH]; intros Hnd.
  - cbn. lia.
  - cbn [map] in Hnd. apply NoDup_cons_iff in Hnd as [Hin Hnd].
    cbn [filter]. destruct (Card.id c =? a) eqn:E; cbn [negb].
    + apply Z.eqb_eq in E. subst a. rewrite len_cons.
      assert (Hall : filter (fun c0 => negb (Card.id c0 =? Card.id c)) cards
                     = cards).
      { apply forallb_filter_id. apply forallb_forall. intros x Hx.
        apply negb_true_iff, Z.eqb_neq. intros Heq. apply Hin.
        rewrite <- Heq. now apply in_map. }
      rewrite Hall. lia.
    + rewrite !len_cons. specialize (IH Hnd). lia.
Qed.

(** What [dropAt] passes to [moveCard]. *)
Lemma dropAt_call (b : Board.t) (active : Card.t) (tgt i : Z)
  (v : MoveCardVars) :
  dropAt b active tgt i = Ret (Some v) ->
  exists targetList,
    find (fun l => BoardList.id l =? tgt) (Board.lists b) = Some targetList /\
    targetListId v = tgt /\ newIndex v = i /\
    let remaining := cardsWithout (Card.id active) (BoardList.cards targetList) in
    0 <= i /\
    (remaining = [] -> beforeCardId v = None /\ afterCardId v = None) /\
    (i <= len remaining ->
     beforeCardId v = option_map Card.id (arrayGet remaining (i - 1)) /\
     afterCardId v = option_map Card.id (arrayGet remaining i)).
Proof.
  unfold dropAt.
  destruct (find (fun l => BoardList.id l =? tgt) (Board.lists b))
    as [targetList|]; [|discriminate].
  fold (cardsWithout (Card.id active) (BoardList.cards targetList)).
  intros H. exists targetList. split; [reflexivity|]. revert H.
  cbv zeta.
  generalize (cardsWithout (Card.id active) (BoardList.cards targetList)).
  intros remaining H.
  pose proof (len_nonneg remaining) as Hlen.
  assert (Hempty : remaining = [] -> len remaining = 0) by (now intros ->).
  destruct (i =? 0) eqn:E0.
  - apply Z.eqb_eq in E0. subst i.
    destruct (len remaining >? 0) eqn:Epos.
    + destruct remaining as [|x rest]; [discriminate|].
      cbn in H. injection H as <-.
      cbn [targetListId newIndex beforeCardId afterCardId fst snd].
      split; [reflexivity|]. split; [reflexivity|]. split; [lia|].
      split; [discriminate|]. intros _. split; reflexivity.
    + cbn in H. injection H as <-.
      cbn [targetListId newIndex beforeCardId afterCardId fst snd].
      rewrite Z.gtb_ltb in Epos. apply Z.ltb_ge in Epos.
      destruct remaining as [|x rest];
        [|rewrite len_cons in Epos; pose proof (len_nonneg rest); lia].
      split; [reflexivity|]. split; [reflexivity|]. split; [lia|].
      split; [auto|]. intros _. split; reflexivity.
  - apply Z.eqb_neq in E0.
    destruct (i >=? len remaining) eqn:Ege.
    + apply Z.geb_le in Ege.
      destruct (len remaining >? 0) eqn:Epos.
      * rewrite Z.gtb_ltb in Epos. apply Z.ltb_lt in Epos.
        destruct (arrayGet remaining (len remaining - 1)) as [x|] eqn:Elast;
          [|discriminate].
        cbn in H. injection H as <-.
        cbn [targetListId newIndex beforeCardId afterCardId fst snd].
        split; [reflexivity|]. split; [reflexivity|]. split; [lia|].
        split; [intros Hr; apply Hempty in Hr; lia|].
        intros Hle. assert (i = len remaining) by lia. subst i.
        rewrite Elast.
        assert (Hnone : arrayGet remaining (len remaining) = None)
          by (apply arrayGet_none_iff; lia).
        rewrite Hnone. split; reflexivity.
      * rewrite Z.gtb_ltb in Epos. apply Z.ltb_ge in Epos.
        cbn in H. injection H as <-.
        cbn [targetListId newIndex beforeCardId afterCardId fst snd].
        split; [reflexivity|]. split; [reflexivity|]. split; [lia|].
        split; [auto|]. intros Hle. lia.
    + rewrite Z.geb_leb in Ege. apply Z.leb_gt in Ege.
      destruct (arrayGet remaining (i - 1)) as [x|] eqn:Eb; [|discriminate].
      destruct (arrayGet remaining i) as [y|] eqn:Ea; [|discriminate].
      cbn in H. injection H as <-.
      cbn [targetListId newIndex beforeCardId afterCardId fst snd].
      assert (Hi : 0 <= i - 1).
      { destruct (Z.lt_ge_cases (i - 1) 0) as [Hneg|]; [|lia].
        assert (Hnone : arrayGet remaining (i - 1) = None)
          by (apply arrayGet_none_iff; lia).
        congruence. }
      split; [reflexivity|]. split; [reflexivity|]. split; [lia|].
      split; [intros Hr; apply Hempty in Hr; lia|].
      intros _. split; reflexivity.
Qed.

(** The call [handleDragEnd] makes is the call of [dropAt] for the dragged
    card, at an index that is the length of the remaining cards for a drop
    on a list, and the index of the card under the pointer for a drop on a
    card. *)
Lemma handleDragEnd_call (b : Board.t) (ev : DragEndEvent)
  (v : MoveCardVars) :
  handleDragEnd (Some b) ev = Ret (Some v) ->
  exists active targetList,
    activeCard ev = Some active /\
    find (fun l => BoardList.id l =? targetListId v) (Board.lists b)
      = Some targetList /\
    dropAt b active (targetListId v) (newIndex v) = Ret (Some v) /\
    (newIndex v
       = len (cardsWithout (Card.id active) (BoardList.cards targetList))
     \/ newIndex v < len (BoardList.cards targetList)).
Proof.
  unfold handleDragEnd.
  destruct (over ev) as [o|]; [|discriminate].
  destruct (activeCard ev) as [active|]; [|discriminate].
  destruct o as [overCard|listId|]; [| |discriminate].
  - destruct (find (fun l => BoardList.id l =? Card.list_id overCard)
                (Board.lists b)) as [targetList|] eqn:Ef; [|discriminate].
    intros H.
    assert (Hd : dropAt b active (Card.list_id overCard)
                   (findIndex (fun c => Card.id c =? Card.id overCard)
                      (BoardList.cards targetList)) = Ret (Some v)).
    { destruct (Card.list_id active =? Card.list_id overCard);
        [destruct (_ =? _); [discriminate|]|]; exact H. }
    clear H. destruct (dropAt_call _ _ _ _ _ Hd) as (tl & _ & Ht & Hi & _).
    rewrite Ht, Hi. exists active, targetList.
    repeat split; auto.
    right. apply findIndex_bounds.
  - destruct (find (fun l => BoardList.id l =? listId) (Board.lists b))
      as [targetList|] eqn:Ef; [|discriminate].
    intros Hd. destruct (dropAt_call _ _ _ _ _ Hd) as (tl & _ & Ht & Hi & _).
    rewrite Ht, Hi. exists active, targetList.
    repeat split; auto.
Qed.

(** The neighbours in a call of [moveCard]: the index is not negative,
    and for an index up to the number of remaining cards [beforeCardId]
    is the id of the remaining card before it and [afterCardId] the id of
    the one at it. *)
Lemma handleDragEnd_call_neighbours (b : Board.t) (ev : DragEndEvent)
  (v : MoveCardVars) :
  handleDragEnd (Some b) ev = Ret (Some v) ->
  exists active targetList,
    activeCard ev = Some active /\
    find (fun l => BoardList.id l =? targetListId v) (Board.lists b)
      = Some targetList /\
    let remaining :=
      cardsWithout (Card.id active) (BoardList.cards targetList) in
    let i := newIndex v in
    0 <= i /\
    (remaining = [] -> beforeCardId v = None /\ afterCardId v = None) /\
    (i <= len remaining ->
     beforeCardId v = option_map Card.id (arrayGet remaining (i - 1)) /\
     afterCardId v = option_map Card.id (arrayGet remaining i) /\
     (beforeCardId v = None <-> i = 0) /\
     (afterCardId v = None <-> i = len remaining)) /\
    (NoDup (map Card.id (BoardList.cards targetList)) -> i <= len remaining).
Proof.
  intros H.
  destruct (handleDragEnd_call b ev v H)
    as (active & targetList & Ha & Hf & Hd & Hidx).
  exists active, targetList. split; [exact Ha|]. split; [exact Hf|].
  destruct (dropAt_call _ _ _ _ _ Hd) as (tl & Hf' & _ & _ & Hspec).
  rewrite Hf in Hf'. injection Hf' as <-. cbv zeta in Hspec |- *.
  destruct Hspec as (H0 & Hempty & Hnb).
  set (remaining := cardsWithout (Card.id active) (BoardList.cards targetList))
    in *.
  split; [exact H0|]. split; [exact Hempty|]. split.
  - intros Hle. destruct (Hnb Hle) as [Hb Hafter].
    split; [exact Hb|]. split; [exact Hafter|].
    rewrite Hb, Hafter. split.
    + destruct (arrayGet remaining (newIndex v - 1)) eqn:E; cbn.
      * split; [discriminate|]. intros Hz.
        assert (arrayGet remaining (newIndex v - 1) = None)
          by (apply arrayGet_none_iff; lia).
        congruence.
      * apply arrayGet_none_iff in E. split; [lia|reflexivity].
    + destruct (arrayGet remaining (newIndex v)) eqn:E; cbn.
      * split; [discriminate|]. intros Hz.
        assert (arrayGet remaining (newIndex v) = None)
          by (apply arrayGet_none_iff; lia).
        congruence.
      * apply arrayGet_none_iff in E. split; [lia|reflexivity].
  - intros Hnd. destruct Hidx as [Hidx|Hidx]; [fold remaining in Hidx; lia|].
    pose proof (cardsWithout_length (Card.id active) _ Hnd) as Hlen.
    fold remaining in Hlen. lia.
Qed.

(** C10.  A drop on a card of the dragged card's own list, with the
    dragged card and the card under the pointer at the same index of that
    list, ends without a call of [moveCard], and the store is as it
    was. *)
Theorem handleDragEnd_same_position (st : BoardState) (b : Board.t)
  (active overCard : Card.t) (targetList : BoardList.t) :
  board st = Some b ->
  Card.list_id active = Card.list_id overCard ->
  find (fun l => BoardList.id l =? Card.list_id overCard) (Board.lists b)
    = Some targetList ->
  findIndex (fun c => Card.id c =? Card.id active) (BoardList.cards targetList)
    = findIndex (fun c => Card.id c =? Card.id overCard)
        (BoardList.cards targetList) ->
  handleDragEnd (board st)
    (mkDragEnd (Some active) (Some (OverCard overCard))) = Ret None /\
  dragEnd (mkDragEnd (Some active) (Some (OverCard overCard))) st = Ret st.
Proof.
  intros Hb Hlist Hfind Hidx.
  assert (H : handleDragEnd (board st)
                (mkDragEnd (Some active) (Some (OverCard overCard)))
              = Ret None).
  { rewrite Hb. unfold handleDragEnd. cbn [over activeCard].
    rewrite Hfind, Hidx, Hlist, !Z.eqb_refl. reflexivity. }
  split; [exact H|]. unfold dragEnd. now rewrite H.
Qed.

Lemma handleDragEnd_same_position_witness :
  board sampleState = Some sampleBoard /\
  Card.list_id cardB = Card.list_id cardB /\
  handleDragEnd (board sampleState)
    (mkDragEnd (Some cardB) (Some (OverCard cardB))) = Ret None /\
  dragEnd (mkDragEnd (Some cardB) (Some (OverCard cardB))) sampleState
    = Ret sampleState.
Proof.
  split; [reflexivity|]. split; [reflexivity|].
  apply (handleDragEnd_same_position sampleState sampleBoard cardB cardB
           (BoardList.mk 10 "Todo" "n" 1 [cardA; cardB; cardC]));
    reflexivity.
Defined.

(** ** Sorting by position *)

(** [<=] on strings: not greater. *)
Lemma str_le_cases (a b : string) :
  String.compare a b <> Gt <-> a = b \/ str_lt a b.
Proof.
  unfold str_lt. split.
  - destruct (String.compare a b) eqn:E; try congruence; intros _.
    + left. now apply String.compare_eq_iff.
    + now right.
  - intros [->|H].
    + rewrite str_compare_refl. discriminate.
    + rewrite H. discriminate.
Qed.

Lemma str_le_trans (a b c : string) :
  String.compare a b <> Gt -> String.compare b c <> Gt ->
  String.compare a c <> Gt.
Proof.
  rewrite !str_le_cases. intros [->|Hab] [->|Hbc]; auto.
  right. eapply str_lt_trans; eauto.
Qed.

Lemma str_le_total (a b : string) :
  String.compare a b <> Gt \/ String.compare b a <> Gt.
Proof.
  rewrite (String.compare_antisym b a).
  destruct (String.compare a b); cbn;
    [left; discriminate|left; discriminate|right; discriminate].
Qed.

Lemma positionLe_trans (a b c : Card.t) :
  positionLe a b -> positionLe b c -> positionLe a c.
Proof. apply str_le_trans. Qed.

(** The comparator of [sortCards] is not positive exactly on cards in
    order. *)
Lemma compareCards_le (a b : Card.t) :
  (compareCards a b <=? 0) = true <-> positionLe a b.
Proof.
  unfold compareCards, positionLe, String.ltb.
  rewrite (String.compare_antisym (Card.position b) (Card.position a)).
  destruct (String.compare (Card.position a) (Card.position b)); cbn;
    split; intros H; try reflexivity; try discriminate; congruence.
Qed.

Lemma sortInsert_perm {A : Type} (cmp : A -> A -> Z) (x : A) (l : list A) :
  Permutation (sortInsert cmp x l) (x :: l).
Proof.
  induction l as [|y l IH]; simpl; [reflexivity|].
  destruct (cmp x y <=? 0); [reflexivity|].
  rewrite IH. apply perm_swap.
Qed.

Lemma arraySort_perm {A : Type} (cmp : A -> A -> Z) (l : list A) :
  Permutation (arraySort cmp l) l.
Proof.
  induction l as [|x l IH]; simpl; [reflexivity|].
  rewrite sortInsert_perm. now constructor.
Qed.

Lemma sortInsert_sorted (x : Card.t) (l : list Card.t) :
  sortedByPosition l -> sortedByPosition (sortInsert compareCards x l).
Proof.
  unfold sortedByPosition.
  induction l as [|y l IH]; intros Hs; simpl.
  - repeat constructor.
  - apply StronglySorted_inv in Hs as [Hs Hy].
    destruct (compareCards x y <=? 0) eqn:E.
    + apply compareCards_le in E. constructor.
      * now constructor.
      * constructor; [exact E|].
        eapply Forall_impl; [|exact Hy].
        intros z Hz. eapply positionLe_trans; eauto.
    + constructor; [now apply IH|].
      assert (Hyx : positionLe y x).
      { destruct (str_le_total (Card.position x) (Card.position y)) as [H|H];
          [|exact H].
        apply compareCards_le in H. congruence. }
      eapply Permutation_Forall.
      * symmetry. apply sortInsert_perm.
      * now constructor.
Qed.

Lemma sortCards_sorted (cards : list Card.t) :
  sortedByPosition (sortCards cards).
Proof.
  unfold sortCards, arraySort.
  induction cards as [|c cards IH]; simpl.
  - constructor.
  - now apply sortInsert_sorted.
Qed.

Lemma sortCards_perm (cards : list Card.t) :
  Permutation (sortCards cards) cards.
Proof. apply arraySort_perm. Qed.

(** The sort is stable: cards that are in order already stay as they
    are. *)
Lemma sortCards_of_sorted (cards : list Card.t) :
  sortedByPosition cards -> sortCards cards = cards.
Proof.
  unfold sortCards, arraySort, sortedByPosition.
  induction 1 as [|c cards Hs IH Hc]; simpl; [reflexivity|].
  rewrite IH. destruct cards as [|d cards]; [reflexivity|]. simpl.
  apply Forall_inv in Hc. apply compareCards_le in Hc. now rewrite Hc.
Qed.

(** Cards with the same position keep their order, as the stable sort of
    JavaScript has it. *)
Lemma sortInsert_same_position (k : string) (x : Card.t) (l : list Card.t) :
  filter (fun c => (Card.position c =? k)%string) (sortInsert compareCards x l)
  = filter (fun c => (Card.position c =? k)%string) (x :: l).
Proof.
  induction l as [|y l IH]; [reflexivity|].
  cbn [sortInsert]. destruct (compareCards x y <=? 0) eqn:E; [reflexivity|].
  assert (Hne : Card.position x <> Card.position y).
  { intros Heq. assert (H : positionLe x y).
    { unfold positionLe. rewrite Heq, str_compare_refl. discriminate. }
    apply compareCards_le in H. congruence. }
  cbn [filter] in *. rewrite IH.
  destruct (String.eqb_spec (Card.position x) k) as [Hx|Hx];
    destruct (String.eqb_spec (Card.position y) k) as [Hy|Hy];
    try reflexivity.
  congruence.
Qed.

Lemma sortCards_stable (k : string) (cards : list Card.t) :
  filter (fun c => (Card.position c =? k)%string) (sortCards cards)
  = filter (fun c => (Card.position c =? k)%string) cards.
Proof.
  unfold sortCards, arraySort.
  induction cards as [|c cards IH]; [reflexivity|].
  cbn [fold_right]. rewrite sortInsert_same_position.
  cbn [filter]. now rewrite IH.
Qed.

Lemma filter_sorted (p : Card.t -> bool) (cards : list Card.t) :
  sortedByPosition cards -> sortedByPosition (filter p cards).
Proof.
  unfold sortedByPosition.
  induction 1 as [|c cards Hs IH Hc]; simpl; [constructor|].
  destruct (p c); [|exact IH].
  constructor; [exact IH|].
  apply Forall_forall. intros x Hx. apply filter_In in Hx as [Hx _].
  rewrite Forall_forall in Hc. now apply Hc.
Qed.



(** ** The move protocol *)

Lemma NoDup_map_inj {A B : Type} (f : A -> B) (l : list A) (a b : A) :
  NoDup (map f l) -> In a l -> In b l -> f a = f b -> a = b.
Proof.
  induction l as [|x l IH]; simpl; [tauto|].
  intros Hnd Ha Hb Hf. apply NoDup_cons_iff in Hnd as [Hx Hnd].
  destruct Ha as [->|Ha], Hb as [->|Hb]; auto.
  - exfalso. apply Hx. rewrite Hf. now apply in_map.
  - exfalso. apply Hx. rewrite <- Hf. now apply in_map.
Qed.

Lemma Forall2_map_r_in {A B : Type} (R R' : A -> B -> Prop) (g : B -> B)
  (l : list A) (l' : list B) :
  Forall2 R l l' ->
  (forall a b, In a l -> R a b -> R' a (g b)) ->
  Forall2 R' l (map g l').
Proof.
  induction 1 as [|a b l l' Hab _ IH]; intros Hg; simpl; constructor.
  - apply Hg; [now left|exact Hab].
  - apply IH. intros a0 b0 Hin. apply Hg. now right.
Qed.

Lemma Forall2_refl_on {A : Type} (R : A -> A -> Prop) (l : list A) :
  (forall a, R a a) -> Forall2 R l l.
Proof. intros HR. induction l; constructor; auto. Qed.

(** A lookup by id goes through rows that keep their ids. *)
Lemma find_id_Forall2 (R : Item.t -> Item.t -> Prop) (k : Z)
  (l l' : list Item.t) :
  Forall2 R l l' ->
  (forall a b, R a b -> Item.id b = Item.id a) ->
  match find (fun it => Item.id it =? k) l with
  | Some a =>
      exists b, find (fun it => Item.id it =? k) l' = Some b /\ R a b
  | None => find (fun it => Item.id it =? k) l' = None
  end.
Proof.
  intros H Hid. induction H as [|a b l l' Hab _ IH]; simpl; [reflexivity|].
  rewrite (Hid _ _ Hab). destruct (Item.id a =? k); [eauto|exact IH].
Qed.

Lemma arraySort_In {A : Type} (cmp : A -> A -> Z) (l : list A) (x : A) :
  In x (arraySort cmp l) -> In x l.
Proof. apply Permutation_in, arraySort_perm. Qed.

Lemma liveItems_In (c : Z) (s : Store) (x : Item.t) :
  In x (getLiveContainerItemsOrderedByRank c s) -> In x (items s).
Proof.
  unfold getLiveContainerItemsOrderedByRank. intros H.
  apply arraySort_In in H. now apply filter_In in H.
Qed.

Lemma fold_writeItem_rows (s : Store) (pairs : list (Item.t * string)) :
  uniqueIds s ->
  (forall p, In p pairs -> In (fst p) (items s)) ->
  forall acc,
    containers acc = containers s ->
    Forall2 sameButRank (items s) (items acc) ->
    containers
      (fold_left (fun acc p => writeItem (withRank (fst p) (snd p)) acc)
         pairs acc) = containers s /\
    Forall2 sameButRank (items s)
      (items
         (fold_left (fun acc p => writeItem (withRank (fst p) (snd p)) acc)
            pairs acc)).
Proof.
  intros Hu.
  induction pairs as [|p pairs IH]; intros Hpairs acc Hc Hrel; simpl.
  - auto.
  - apply IH.
    + intros q Hq. apply Hpairs. now right.
    + exact Hc.
    + cbn [writeItem items].
      apply (Forall2_map_r_in sameButRank sameButRank); [exact Hrel|].
      intros a b Ha (Hid & Hcont & Hver & Hdel).
      cbn [withRank Item.id Item.containerId Item.rank Item.version].
      destruct (Item.id b =? Item.id (fst p)) eqn:E; [|repeat split; auto].
      apply Z.eqb_eq in E.
      assert (a = fst p).
      { apply (NoDup_map_inj Item.id (items s)); auto.
        - apply Hpairs. now left.
        - congruence. }
      subst a. repeat split; cbn; auto.
Qed.

(** Rebalancing writes ranks only. *)
Lemma writeRanks_rows (s : Store) (rows : list Item.t) (ranks : list string) :
  uniqueIds s ->
  (forall x, In x rows -> In x (items s)) ->
  containers (writeRanks rows ranks s) = containers s /\
  Forall2 sameButRank (items s) (items (writeRanks rows ranks s)).
Proof.
  intros Hu Hrows. unfold writeRanks.
  apply fold_writeItem_rows; auto.
  - intros [x r] Hp. apply in_combine_l in Hp. now apply Hrows.
  - apply Forall2_refl_on. intros a. repeat split.
Qed.

Lemma find_id_map (g : Item.t -> Item.t) (k : Z) (l : list Item.t) :
  (forall a, Item.id (g a) = Item.id a) ->
  find (fun it => Item.id it =? k) (map g l)
    = option_map g (find (fun it => Item.id it =? k) l).
Proof.
  intros Hg. induction l as [|a l IH]; simpl; [reflexivity|].
  rewrite Hg. destruct (Item.id a =? k); [reflexivity|exact IH].
Qed.

Lemma lockItemForUpdate_some (k : Z) (s : Store) (x : Item.t) :
  lockItemForUpdate k s = Some x -> In x (items s) /\ Item.id x = k.
Proof.
  unfold lockItemForUpdate. intros H. apply find_some in H as [Hin Hid].
  split; [exact Hin|]. now apply Z.eqb_eq.
Qed.

(** Apply, on a store whose rows differ from those of [s] in their ranks
    at most. *)
Lemma applyMove_rows (r : MoveRequest.t) (x : Item.t) (newRank : string)
  (s s' : Store) :
  uniqueIds s ->
  lockItemForUpdate (MoveRequest.itemId r) s = Some x ->
  containers s' = containers s ->
  Forall2 sameButRank (items s) (items s') ->
  let updated :=
    Item.mk (Item.id x) (MoveRequest.targetContainerId r) newRank
      (Item.version x + 1) (Item.deletedAt x) in
  containers (writeItem updated s') = containers s /\
  Forall2 (rowAfterMove r true) (items s) (items (writeItem updated s')) /\
  lockItemForUpdate (MoveRequest.itemId r) (writeItem updated s')
    = Some updated.
Proof.
  intros Hu Hlock Hc Hrel updated.
  destruct (lockItemForUpdate_some _ _ _ Hlock) as [Hin Hid].
  split; [exact Hc|]. split.
  - cbn [writeItem items]. eapply Forall2_map_r_in; [exact Hrel|].
    intros a b Ha (Hbid & Hbc & Hbv & Hbd). unfold rowAfterMove.
    cbn [updated Item.id Item.containerId Item.rank Item.version
           Item.deletedAt andb].
    rewrite Hbid, Hid.
    destruct (Item.id a =? MoveRequest.itemId r) eqn:E;
      cbn [Item.id Item.containerId Item.version Item.deletedAt];
      [|auto].
    apply Z.eqb_eq in E.
    assert (a = x)
      by (apply (NoDup_map_inj Item.id (items s)); auto; congruence).
    subst a. auto.
  - unfold lockItemForUpdate in *. cbn [writeItem items].
    rewrite find_id_map
      by (intros a; destruct (Item.id a =? Item.id updated); reflexivity).
    pose proof (find_id_Forall2 sameButRank (MoveRequest.itemId r) _ _ Hrel)
      as Hf.
    rewrite Hlock in Hf.
    destruct Hf as (b & -> & Hbid & _ & _ & Hbd); [intros ? ? H; apply H|].
    cbn [option_map updated Item.id]. rewrite Hbid, Z.eqb_refl.
    now rewrite Hbd.
Qed.

Lemma rowAfterMove_refl (r : MoveRequest.t) (l : list Item.t) :
  Forall2 (rowAfterMove r false) l l.
Proof. apply Forall2_refl_on. intros a. repeat split. Qed.

Section MoveProtocol.

(** The rank space the coordinator works with; the protocol and its
    properties do not depend on how ranks are computed. *)
Variable rs : RankSpace.

(** What one move request does to the store. *)
Lemma move_spec (r : MoveRequest.t) (s : Store) :
  uniqueIds s ->
  containers (snd (move rs r s)) = containers s /\
  Forall2 (rowAfterMove r (isSuccess (fst (move rs r s))))
    (items s) (items (snd (move rs r s))) /\
  match fst (move rs r s) with
  | Success it =>
      validate r s = None /\
      exists x,
        lockItemForUpdate (MoveRequest.itemId r) s = Some x /\
        Item.version x = MoveRequest.expectedVersion r /\
        Item.id it = Item.id x /\
        Item.deletedAt it = Item.deletedAt x /\
        Item.containerId it = MoveRequest.targetContainerId r /\
        Item.version it = Item.version x + 1 /\
        lockItemForUpdate (MoveRequest.itemId r) (snd (move rs r s))
          = Some it
  | Conflict cur =>
      snd (move rs r s) = s /\
      validate r s = None /\
      versionOf (MoveRequest.itemId r) s = Some cur /\
      cur <> MoveRequest.expectedVersion r
  | InvalidRequest reason =>
      snd (move rs r s) = s /\
      (validate r s = Some reason \/ validate r s = None)
  | RebalanceFailure => snd (move rs r s) = s
  end.
Proof.
  intros Hu. unfold move.
  destruct (validate r s) as [reason|] eqn:Ev.
  { cbn. repeat split; auto using rowAfterMove_refl. }
  destruct (lockItemForUpdate (MoveRequest.itemId r) s) as [x|] eqn:El.
  2:{ cbn. repeat split; auto using rowAfterMove_refl. }
  destruct (Item.version x =? MoveRequest.expectedVersion r) eqn:Ever;
    cbn [negb].
  2:{ apply Z.eqb_neq in Ever. cbn. unfold versionOf. rewrite El.
      repeat split; auto using rowAfterMove_refl. }
  apply Z.eqb_eq in Ever.
  destruct (neighborsAdjacent r s); cbn [negb].
  2:{ cbn. repeat split; auto using rowAfterMove_refl. }
  assert (Happly : forall newRank s',
             containers s' = containers s ->
             Forall2 sameButRank (items s) (items s') ->
             let res := applyMove x r newRank s' in
             containers (snd res) = containers s /\
             Forall2 (rowAfterMove r (isSuccess (fst res)))
               (items s) (items (snd res)) /\
             match fst res with
             | Success it =>
                 None = (None : option InvalidReason) /\
                 exists x0,
                   Some x = Some x0 /\
                   Item.version x0 = MoveRequest.expectedVersion r /\
                   Item.id it = Item.id x0 /\
                   Item.deletedAt it = Item.deletedAt x0 /\
                   Item.containerId it = MoveRequest.targetContainerId r /\
                   Item.version it = Item.version x0 + 1 /\
                   lockItemForUpdate (MoveRequest.itemId r) (snd res)
                     = Some it
             | _ => False
             end).
  { intros newRank s' Hc Hrel.
    destruct (applyMove_rows r x newRank s s' Hu El Hc Hrel)
      as (Hc' & Hrows & Hlock').
    cbn. split; [exact Hc'|]. split; [exact Hrows|].
    split; [reflexivity|]. exists x. repeat split; auto. }
  unfold rankComputeAndApply.
  destruct (rs_rankBetween rs _ _) as [newRank|].
  { apply Happly; [reflexivity|].
    apply Forall2_refl_on. intros a. repeat split. }
  destruct (rs_rebalance rs _) as [ranks|].
  2:{ cbn. repeat split; auto using rowAfterMove_refl. }
  destruct (writeRanks_rows s
              (getLiveContainerItemsOrderedByRank
                 (MoveRequest.targetContainerId r) s) ranks Hu)
    as [Hc Hrel]; [intros y; apply liveItems_In|].
  destruct (rs_rankBetween rs _ _) as [newRank|].
  { apply Happly; assumption. }
  cbn. repeat split; auto using rowAfterMove_refl.
Qed.

Lemma Forall2_map_eq {A B : Type} (R : A -> A -> Prop) (f : A -> B)
  (l l' : list A) :
  Forall2 R l l' -> (forall a b, R a b -> f b = f a) -> map f l' = map f l.
Proof.
  intros H Hf. induction H as [|a b l l' Hab _ IH]; simpl; [reflexivity|].
  now rewrite (Hf _ _ Hab), IH.
Qed.

Lemma existsb_Forall2 {A : Type} (R : A -> A -> Prop) (p p' : A -> bool)
  (l l' : list A) :
  Forall2 R l l' ->
  (forall a b, R a b -> p a = true -> p' b = true) ->
  existsb p l = true -> existsb p' l' = true.
Proof.
  intros H Hp. induction H as [|a b l l' Hab _ IH]; simpl; [auto|].
  rewrite !orb_true_iff. intros [Ha|Hl]; [left; eauto|right; auto].
Qed.

Lemma move_uniqueIds (r : MoveRequest.t) (s : Store) :
  uniqueIds s -> uniqueIds (snd (move rs r s)).
Proof.
  intros Hu. destruct (move_spec r s Hu) as (_ & Hrows & _).
  unfold uniqueIds.
  rewrite (Forall2_map_eq _ Item.id _ _ Hrows); [exact Hu|].
  intros a b H. apply H.
Qed.

(** The version of an item never goes down, and it goes up, by one, only
    for the moved item of a successful move. *)
Lemma move_version (r : MoveRequest.t) (s : Store)
  (k v : Z) :
  uniqueIds s ->
  versionOf k s = Some v ->
  versionOf k (snd (move rs r s)) = Some v \/
  (versionOf k (snd (move rs r s)) = Some (v + 1) /\
   k = MoveRequest.itemId r /\
   exists it, fst (move rs r s) = Success it).
Proof.
  intros Hu Hv. destruct (move_spec r s Hu) as (_ & Hrows & _).
  unfold versionOf, lockItemForUpdate in *.
  pose proof (find_id_Forall2 _ k _ _ Hrows) as Hf.
  destruct (find (fun it => Item.id it =? k) (items s)) as [a|] eqn:Ea;
    [|discriminate].
  destruct Hf as (b & -> & Hid & _ & Hrow); [intros ? ? H; apply H|].
  apply find_some in Ea as [_ Ek]. apply Z.eqb_eq in Ek.
  cbn in Hv |- *. injection Hv as <-.
  destruct (fst (move rs r s)) as [it| | |]; cbn [isSuccess andb] in Hrow;
    try (left; f_equal; apply Hrow).
  destruct (Item.id a =? MoveRequest.itemId r) eqn:E.
  - apply Z.eqb_eq in E. right. destruct Hrow as [_ ->].
    split; [reflexivity|]. split; [congruence|]. now exists it.
  - left. f_equal. apply Hrow.
Qed.

Lemma reachable_versions (s1 s2 : Store) :
  uniqueIds s1 ->
  reachable rs s1 s2 ->
  uniqueIds s2 /\
  forall k v, versionOf k s1 = Some v ->
              exists v', versionOf k s2 = Some v' /\ v <= v'.
Proof.
  intros Hu. induction 1 as [|s2 r _ [Hu2 IH]].
  - split; [exact Hu|]. intros k v Hv. exists v. split; [exact Hv|lia].
  - split; [now apply move_uniqueIds|].
    intros k v Hv. destruct (IH k v Hv) as (v' & Hv' & Hle).
    destruct (move_version r s2 k v' Hu2 Hv') as [H|(H & _)].
    + exists v'. auto.
    + exists (v' + 1). split; [exact H|lia].
Qed.

(** A successful move leaves its own request valid. *)
Lemma validate_after_success (r : MoveRequest.t) (s s' : Store) :
  containers s' = containers s ->
  Forall2 (rowAfterMove r true) (items s) (items s') ->
  validate r s = None -> validate r s' = None.
Proof.
  intros Hc Hrows. unfold validate, containerIsLive. rewrite Hc.
  destruct (negb (existsb _ (containers s))); [discriminate|].
  assert (Hn : forall n,
             neighborInTarget (MoveRequest.targetContainerId r) n s = true ->
             neighborInTarget (MoveRequest.targetContainerId r) n s' = true).
  { intros [n|]; [|reflexivity]. cbn [neighborInTarget].
    apply (existsb_Forall2 _ _ _ _ _ Hrows).
    intros a b (Hid & Hdel & Hrow).
    rewrite !andb_true_iff, !Z.eqb_eq. intros [[Hn Hlive] Hcont].
    unfold isLive in *. rewrite Hid, Hdel. repeat split; auto.
    cbn [andb] in Hrow.
    destruct (Item.id a =? MoveRequest.itemId r); destruct Hrow; congruence. }
  destruct (neighborInTarget _ (MoveRequest.beforeItemId r) s) eqn:Eb;
    [|discriminate].
  destruct (neighborInTarget _ (MoveRequest.afterItemId r) s) eqn:Ea;
    [|discriminate].
  now rewrite (Hn _ Eb), (Hn _ Ea).
Qed.

Lemma move_stale (r : MoveRequest.t) (s : Store) (cur : Z) :
  versionOf (MoveRequest.itemId r) s = Some cur ->
  cur <> MoveRequest.expectedVersion r ->
  match validate r s with
  | Some reason => move rs r s = (InvalidRequest reason, s)
  | None => move rs r s = (Conflict cur, s)
  end.
Proof.
  unfold versionOf, move. intros Hv Hne.
  destruct (validate r s); [reflexivity|].
  destruct (lockItemForUpdate (MoveRequest.itemId r) s) as [x|];
    [|discriminate].
  cbn in Hv. injection Hv as ->.
  apply Z.eqb_neq in Hne. now rewrite Hne.
Qed.

(** *** The README's [move_card] *)

Lemma readme_move_card_version (new_position : string)
  (card_id target_list_id expected_version : Z) (db : list Readme.CardRow)
  (k old : Z) :
  Readme.versionOf k db = Some old ->
  Readme.versionOf k
    (snd (Readme.move_card new_position card_id target_list_id
            expected_version db)) = Some old \/
  (Readme.versionOf k
     (snd (Readme.move_card new_position card_id target_list_id
             expected_version db)) = Some (old + 1) /\
   k = card_id /\ old = expected_version /\
   exists card,
     fst (Readme.move_card new_position card_id target_list_id
            expected_version db) = Readme.Committed card).
Proof.
  unfold Readme.versionOf, Readme.move_card. intros Hold.
  destruct (find (fun c => Readme.id c =? card_id) db) as [card|] eqn:Ef;
    [|now left].
  destruct (Readme.version card =? expected_version) eqn:Ev; cbn [negb];
    [|now left].
  cbn [fst snd]. destruct (k =? card_id) eqn:Ek.
  - apply Z.eqb_eq in Ek. subst k. right.
    rewrite find_updateFirst_same by reflexivity. rewrite Ef in Hold |- *.
    cbn in Hold |- *. injection Hold as <-. apply Z.eqb_eq in Ev.
    repeat split; [congruence|eauto].
  - left. rewrite find_updateFirst_other; [exact Hold| |reflexivity].
    intros y Hy. apply Z.eqb_eq in Hy. apply Z.eqb_neq in Ek.
    apply Z.eqb_neq. congruence.
Qed.

Lemma readme_reached_version (db1 db2 : list Readme.CardRow) (k old : Z) :
  Readme.reached db1 db2 ->
  Readme.versionOf k db1 = Some old ->
  exists cur, Readme.versionOf k db2 = Some cur /\ old <= cur.
Proof.
  induction 1 as [|db2 np c t e _ IH]; intros Hold.
  - exists old. split; [exact Hold|lia].
  - destruct (IH Hold) as (cur & Hcur & Hle).
    destruct (readme_move_card_version np c t e db2 k cur Hcur)
      as [H|(H & _)].
    + exists cur. auto.
    + exists (cur + 1). split; [exact H|lia].
Qed.

Lemma readme_move_card_stale (new_position : string)
  (card_id target_list_id expected_version : Z) (db : list Readme.CardRow)
  (cur : Z) :
  Readme.versionOf card_id db = Some cur ->
  cur <> expected_version ->
  exists detail,
    Readme.move_card new_position card_id target_list_id expected_version db
    = (Readme.Http409 detail, db).
Proof.
  unfold Readme.versionOf, Readme.move_card. intros Hcur Hne.
  destruct (find (fun c => Readme.id c =? card_id) db) as [card|];
    [|discriminate].
  cbn in Hcur. injection Hcur as ->. apply Z.eqb_neq in Hne.
  rewrite Hne. cbn [negb]. eauto.
Qed.

(** C4.  When a move of an item that carries [expectedVersion v]
    succeeds, the version of the item is [v + 1], and every later request
    for the item that still carries [v] is turned down with a conflict.
    On [move_card] as the README writes it, which compares the version
    right after the lock, every such request, in every table reached by
    later calls, ends with status 409.  On the protocol of the
    MoveCoordinator, which validates the request first, the same request
    sent again gets [Conflict], a first and a second time; in every store
    reached by later moves, a request for the item that still carries [v]
    never succeeds and writes nothing, and it gets [Conflict] whenever it
    passes the Validate step.  A conflict writes no rows, and a version
    changes, by one, only for the moved item of a successful move. *)
Theorem stale_version_conflict :
  (forall (r : MoveRequest.t) (s s1 : Store) (it : Item.t),
     uniqueIds s ->
     move rs r s = (Success it, s1) ->
     let v := MoveRequest.expectedVersion r in
     Item.version it = v + 1 /\
     move rs r s1 = (Conflict (v + 1), s1) /\
     move rs r (snd (move rs r s1)) = (Conflict (v + 1), s1) /\
     (forall s2 r2,
        reachable rs s1 s2 ->
        MoveRequest.itemId r2 = MoveRequest.itemId r ->
        MoveRequest.expectedVersion r2 = v ->
        snd (move rs r2 s2) = s2 /\
        isSuccess (fst (move rs r2 s2)) = false /\
        (validate r2 s2 = None ->
         exists cur, v < cur /\ move rs r2 s2 = (Conflict cur, s2)))) /\
  (forall s2 r2 cur s3, move rs r2 s2 = (Conflict cur, s3) -> s3 = s2) /\
  (forall s2 r2 k old,
     uniqueIds s2 ->
     versionOf k s2 = Some old ->
     versionOf k (snd (move rs r2 s2)) <> Some old ->
     versionOf k (snd (move rs r2 s2)) = Some (old + 1) /\
     k = MoveRequest.itemId r2 /\
     exists it', fst (move rs r2 s2) = Success it') /\
  (forall new_position card_id target_list_id v db card db1,
     Readme.move_card new_position card_id target_list_id v db
     = (Readme.Committed card, db1) ->
     Readme.version card = v + 1 /\
     forall db2 new_position' target_list_id',
       Readme.reached db1 db2 ->
       exists detail,
         Readme.move_card new_position' card_id target_list_id' v db2
         = (Readme.Http409 detail, db2)) /\
  (forall new_position card_id target_list_id v db detail db',
     Readme.move_card new_position card_id target_list_id v db
     = (Readme.Http409 detail, db') ->
     db' = db) /\
  (forall new_position card_id target_list_id v db k old,
     Readme.versionOf k db = Some old ->
     Readme.versionOf k
       (snd (Readme.move_card new_position card_id target_list_id v db))
     <> Some old ->
     Readme.versionOf k
       (snd (Readme.move_card new_position card_id target_list_id v db))
     = Some (old + 1) /\
     k = card_id /\
     exists card,
       fst (Readme.move_card new_position card_id target_list_id v db)
       = Readme.Committed card).
Proof.
  split; [|split; [|split; [|split; [|split]]]].
  - intros r s s1 it Hu Hmove v.
    destruct (move_spec r s Hu) as (Hc & Hrows & Hout).
    rewrite Hmove in Hc, Hrows, Hout. cbn [fst snd isSuccess] in *.
    destruct Hout as (Hval & x & Hlock & Hxv & _ & _ & _ & Hitv & Hlock1).
    assert (Hv1 : versionOf (MoveRequest.itemId r) s1 = Some (v + 1)).
    { unfold versionOf. rewrite Hlock1. cbn. f_equal. subst v. lia. }
    assert (Hu1 : uniqueIds s1).
    { pose proof (move_uniqueIds r s Hu) as H. now rewrite Hmove in H. }
    assert (Hretry : move rs r s1 = (Conflict (v + 1), s1)).
    { pose proof (move_stale r s1 (v + 1) Hv1 ltac:(subst v; lia)) as H.
      now rewrite (validate_after_success r s s1 Hc Hrows Hval) in H. }
    split; [subst v; lia|]. split; [exact Hretry|].
    split; [now rewrite Hretry|].
    intros s2 r2 Hreach Hid Hexp.
    destruct (reachable_versions s1 s2 Hu1 Hreach) as [_ Hver].
    destruct (Hver _ _ Hv1) as (cur & Hcur & Hle).
    rewrite <- Hid in Hcur.
    pose proof (move_stale r2 s2 cur Hcur ltac:(lia)) as H.
    destruct (validate r2 s2) as [reason|].
    + rewrite H. repeat split. discriminate.
    + rewrite H. repeat split. intros _. exists cur. split; [lia|reflexivity].
  - intros s2 r2 cur s3. unfold move, rankComputeAndApply, applyMove.
    repeat match goal with
           | |- context [match ?e with _ => _ end] => destruct e
           end; congruence.
  - intros s2 r2 k old Hu2 Hold Hne.
    destruct (move_version r2 s2 k old Hu2 Hold) as [H|H];
      [contradiction|exact H].
  - intros np k t v db card db1 Hmove.
    assert (Hfound : exists c0,
               find (fun c => Readme.id c =? k) db = Some c0 /\
               Readme.version c0 = v /\
               card = Readme.mkRow (Readme.id c0) (Readme.title c0) np t
                        (Readme.version c0 + 1) /\
               db1 = updateFirst (fun c => Readme.id c =? k)
                       (fun c => Readme.mkRow (Readme.id c) (Readme.title c)
                                   np t (Readme.version c + 1)) db).
    { unfold Readme.move_card in Hmove.
      destruct (find (fun c => Readme.id c =? k) db) as [c0|];
        [|discriminate].
      destruct (Readme.version c0 =? v) eqn:Ev; cbn [negb] in Hmove;
        [|discriminate].
      apply Z.eqb_eq in Ev. injection Hmove as <- <-. eauto. }
    destruct Hfound as (c0 & Hf & Hv & -> & ->). cbn [Readme.version].
    split; [lia|]. intros db2 np' t' Hreach.
    assert (Hv1 : Readme.versionOf k
                    (updateFirst (fun c => Readme.id c =? k)
                       (fun c => Readme.mkRow (Readme.id c) (Readme.title c)
                                   np t (Readme.version c + 1)) db)
                  = Some (v + 1)).
    { unfold Readme.versionOf.
      rewrite find_updateFirst_same by reflexivity. rewrite Hf. cbn.
      now rewrite Hv. }
    destruct (readme_reached_version _ _ k (v + 1) Hreach Hv1)
      as (cur & Hcur & Hle).
    apply (readme_move_card_stale np' k t' v db2 cur Hcur). lia.
  - intros np k t v db detail db'. unfold Readme.move_card.
    destruct (find (fun c => Readme.id c =? k) db) as [c0|];
      [|discriminate].
    destruct (negb (Readme.version c0 =? v)); [|discriminate].
    now intros [= _ <-].
  - intros np k0 t v db k old Hold Hne.
    destruct (readme_move_card_version np k0 t v db k old Hold)
      as [H|(H & Hk & _ & Hc)]; [contradiction|auto].
Qed.

End MoveProtocol.

Lemma stale_version_conflict_witness :
  uniqueIds sampleStore /\
  move lexoRank sampleMove sampleStore
    = (Success (Item.mk 1 2 "m" 4 None),
       snd (move lexoRank sampleMove sampleStore)) /\
  move lexoRank sampleMove (snd (move lexoRank sampleMove sampleStore))
    = (Conflict 4, snd (move lexoRank sampleMove sampleStore)) /\
  Readme.move_card "q" 5 2 3 sampleRows
    = (Readme.Committed (Readme.mkRow 5 "Build" "q" 2 4),
       snd (Readme.move_card "q" 5 2 3 sampleRows)) /\
  exists detail,
    Readme.move_card "t" 5 9 3 (snd (Readme.move_card "q" 5 2 3 sampleRows))
    = (Readme.Http409 detail, snd (Readme.move_card "q" 5 2 3 sampleRows)).
Proof.
  assert (Hu : uniqueIds sampleStore).
  { unfold uniqueIds. cbn. repeat constructor; cbn; intuition lia. }
  split; [exact Hu|]. split; [reflexivity|]. split.
  - apply (proj1 (stale_version_conflict lexoRank) sampleMove sampleStore
             (snd (move lexoRank sampleMove sampleStore))
             (Item.mk 1 2 "m" 4 None) Hu eq_refl).
  - split; [reflexivity|].
    apply (proj1 (proj2 (proj2 (proj2 (stale_version_conflict lexoRank))))
             "q" 5 2 3 sampleRows (Readme.mkRow 5 "Build" "q" 2 4)
             (snd (Readme.move_card "q" 5 2 3 sampleRows)) eq_refl).
    apply Readme.reached_here.
Defined.

(** ** What a successful move changes *)

Lemma spread_move_fields (updated c : Card.t) :
  (if Card.id c =? Card.id updated
   then spread c
          (PartialCard.mk None None None
             (Some (Card.position updated))
             (Some (Card.list_id updated))
             (Some (Card.version updated))
             None)
   else c) = withMoveResult updated c.
Proof. unfold withMoveResult, spread. now destruct (_ =? _). Qed.

(** C5.  A successful move keeps the id (and the deletion mark) of the
    moved item, sets its container to the target, gives it its new rank
    and raises its version by one; no row gets another id, container or
    version.  In the frontend, [onSuccess] gives the card with the id of
    the answer its [position], [version] and [list_id], and leaves the
    other fields of that card, every other card, and every list and its
    set of cards as they are (each list is sorted again). *)
Theorem successful_move_changes :
  (forall (rs : RankSpace) (r : MoveRequest.t) (s s1 : Store) (it : Item.t),
     uniqueIds s ->
     move rs r s = (Success it, s1) ->
     exists old,
       lockItemForUpdate (MoveRequest.itemId r) s = Some old /\
       lockItemForUpdate (MoveRequest.itemId r) s1 = Some it /\
       Item.id it = Item.id old /\
       Item.id it = MoveRequest.itemId r /\
       Item.deletedAt it = Item.deletedAt old /\
       Item.containerId it = MoveRequest.targetContainerId r /\
       Item.version it = Item.version old + 1 /\
       map Item.id (items s1) = map Item.id (items s) /\
       Forall2 (rowAfterMove r true) (items s) (items s1)) /\
  (forall (updated : Card.t) (st : BoardState) (b : Board.t),
     board st = Some b ->
     exists b',
       board (onSuccess updated st) = Some b' /\
       withLists b' (Board.lists b) = b /\
       Forall2
         (fun l l' =>
            withCards l' (BoardList.cards l) = l /\
            Permutation (BoardList.cards l')
              (map (withMoveResult updated) (BoardList.cards l)))
         (Board.lists b) (Board.lists b')).
Proof.
  split.
  - intros rs r s s1 it Hu Hmove.
    destruct (move_spec rs r s Hu) as (_ & Hrows & Hout).
    rewrite Hmove in Hrows, Hout. cbn [fst snd isSuccess] in *.
    destruct Hout as (_ & x & Hlock & _ & Hid & Hdel & Hcont & Hver & Hlock1).
    exists x. repeat split; auto.
    + rewrite Hid. now apply lockItemForUpdate_some in Hlock.
    + apply (Forall2_map_eq _ Item.id _ _ Hrows). intros a b H. apply H.
  - intros updated [bo] b Hb. cbn in Hb. subst bo.
    unfold onSuccess, updateCardAfterMove. cbn [board].
    eexists. split; [reflexivity|]. split; [now destruct b|].
    cbn [withLists Board.lists].
    induction (Board.lists b) as [|l ls IH]; cbn [map]; constructor;
      [|exact IH].
    split; [now destruct l|]. cbn [withCards BoardList.cards].
    rewrite sortCards_perm.
    erewrite map_ext; [reflexivity|].
    intros c. apply spread_move_fields.
Qed.

Lemma successful_move_changes_witness :
  uniqueIds sampleStore /\
  exists old,
    lockItemForUpdate 1 sampleStore = Some old /\
    lockItemForUpdate 1 (snd (move lexoRank sampleMove sampleStore))
      = Some (Item.mk 1 2 "m" 4 None) /\
    Item.id old = 1 /\ Item.version old = 3.
Proof.
  assert (Hu : uniqueIds sampleStore).
  { unfold uniqueIds. cbn. repeat constructor; cbn; intuition lia. }
  split; [exact Hu|].
  destruct (proj1 successful_move_changes lexoRank sampleMove sampleStore
              (snd (move lexoRank sampleMove sampleStore))
              (Item.mk 1 2 "m" 4 None) Hu eq_refl)
    as (old & H1 & H2 & H3 & _ & _ & _ & H4 & _).
  exists old. cbn in H3, H4. repeat split; auto; lia.
Defined.

(** ** The model on the sample data *)

Example sample_drop_on_list :
  handleDragEnd (Some sampleBoard) (mkDragEnd (Some cardA) (Some (OverList 20)))
  = Ret (Some (mkVars 1 10 20 1 1 (Some 4) None)).
Proof. reflexivity. Qed.

Example sample_drop_on_first_card :
  handleDragEnd (Some sampleBoard) (mkDragEnd (Some cardC) (Some (OverCard cardA)))
  = Ret (Some (mkVars 3 10 10 0 2 None (Some 1))).
Proof. reflexivity. Qed.

(** A card under the pointer that the board does not hold in its list
    makes the handler read a property of [undefined]. *)
Example sample_drop_on_unknown_card :
  handleDragEnd (Some sampleBoard)
    (mkDragEnd (Some cardD) (Some (OverCard (Card.mk 9 "X" None "x" 10 1 ""))))
  = TypeError.
Proof. reflexivity. Qed.

Example sample_optimistic_move :
  option_map (fun r => (card (fst r), option_map allCards (board (snd r))))
    (match moveCardOptimistic 1 10 20 5 sampleState with
     | Ret r => Some r
     | TypeError => None
     end)
  = Some (Some (withListId cardA 20),
          Some [cardB; cardC; cardD; withListId cardA 20]).
Proof. reflexivity. Qed.

Example sample_conflict_feedback :
  fst (onError (Some 409) None sampleState) = mkFeedback conflictToast true /\
  fst (onError (Some 422) None sampleState)
    = mkFeedback "Invalid move request" false /\
  fst (onError None None sampleState) = mkFeedback "Failed to move card" false.
Proof. repeat split. Qed.

Example sample_on_success :
  option_map allCards
    (board (onSuccess (Card.mk 1 "A" None "bn" 10 2 "2024-01-01") sampleState))
  = Some [cardB; Card.mk 1 "A" None "bn" 10 2 "2024-01-01"; cardC; cardD].
Proof. reflexivity. Qed.

(* ================================================================== *)
(** * Part III: further properties of the code *)
(* ================================================================== *)

(** ** Sorting and filtering *)

Lemma sampleState_sorted : boardSorted sampleState.
Proof. cbn. repeat constructor; discriminate. Qed.

Lemma sortInsert_le_all (x : Card.t) (l : list Card.t) :
  Forall (positionLe x) l -> sortInsert compareCards x l = x :: l.
Proof.
  destruct l as [|y l]; [reflexivity|]. intros H.
  apply Forall_inv in H. cbn [sortInsert].
  now rewrite (proj2 (compareCards_le x y) H).
Qed.

Lemma filter_sortInsert (q : Card.t -> bool) (x : Card.t) (l : list Card.t) :
  sortedByPosition l ->
  filter q (sortInsert compareCards x l)
  = if q x then sortInsert compareCards x (filter q l) else filter q l.
Proof.
  induction l as [|y l IH]; intros Hs.
  - cbn. now destruct (q x).
  - apply StronglySorted_inv in Hs as [Hs' Hall]. cbn [sortInsert].
    destruct (compareCards x y <=? 0) eqn:E.
    + apply compareCards_le in E.
      assert (Hx : Forall (positionLe x) (y :: l)).
      { constructor; [exact E|]. eapply Forall_impl; [|exact Hall].
        intros z Hz. eapply positionLe_trans; eauto. }
      change (filter q (x :: y :: l))
        with (if q x then x :: filter q (y :: l) else filter q (y :: l)).
      destruct (q x); [|reflexivity].
      symmetry. apply sortInsert_le_all.
      apply Forall_forall. intros z Hz. apply filter_In in Hz.
      rewrite Forall_forall in Hx. apply Hx, Hz.
    + cbn [filter]. rewrite (IH Hs').
      destruct (q y), (q x); cbn [sortInsert]; try rewrite E; reflexivity.
Qed.

Lemma sortCards_cons (x : Card.t) (l : list Card.t) :
  sortCards (x :: l) = sortInsert compareCards x (sortCards l).
Proof. reflexivity. Qed.

Lemma filter_sortCards (q : Card.t -> bool) (l : list Card.t) :
  filter q (sortCards l) = sortCards (filter q l).
Proof.
  induction l as [|x l IH]; [reflexivity|].
  rewrite sortCards_cons, filter_sortInsert by apply sortCards_sorted.
  rewrite IH. cbn [filter]. now destruct (q x).
Qed.

(** X1.  [sortCards] is a stable sort by [position]: the result holds the
    same cards, each as often as the argument; it ascends by [position];
    cards of equal [position] keep the order they had; the argument is
    returned as it is exactly when it ascends already; and sorting
    commutes with every [filter]. *)
Theorem sortCards_stable_sort (cards : list Card.t) :
  Permutation (sortCards cards) cards /\
  sortedByPosition (sortCards cards) /\
  (forall k,
     filter (fun c => (Card.position c =? k)%string) (sortCards cards)
     = filter (fun c => (Card.position c =? k)%string) cards) /\
  (sortedByPosition cards <-> sortCards cards = cards) /\
  (forall q, filter q (sortCards cards) = sortCards (filter q cards)).
Proof.
  split; [apply sortCards_perm|]. split; [apply sortCards_sorted|].
  split; [intros k; apply sortCards_stable|]. split.
  - split; [apply sortCards_of_sorted|].
    intros H. rewrite <- H. apply sortCards_sorted.
  - intros q. apply filter_sortCards.
Qed.

(** ** Adding and removing *)

Lemma filter_none_out {A : Type} (p : A -> bool) (l : list A) :
  existsb p l = false -> filter (fun c => negb (p c)) l = l.
Proof.
  induction l as [|x l IH]; [reflexivity|]. cbn.
  intros H. apply orb_false_elim in H as [Hx Hl].
  rewrite Hx. cbn. now rewrite IH.
Qed.

Lemma withCards_same (l : BoardList.t) : withCards l (BoardList.cards l) = l.
Proof. now destruct l. Qed.

Lemma withLists_same (b : Board.t) : withLists b (Board.lists b) = b.
Proof. now destruct b. Qed.

Lemma removeCard_lists_absent (cardId listId : Z) (ls : list BoardList.t) :
  existsb (fun l => (BoardList.id l =? listId)
                    && existsb (fun c => Card.id c =? cardId)
                         (BoardList.cards l)) ls = false ->
  map (fun list =>
         if BoardList.id list =? listId
         then withCards list
                (filter (fun c => negb (Card.id c =? cardId))
                   (BoardList.cards list))
         else list) ls = ls.
Proof.
  induction ls as [|l ls IH]; [reflexivity|]. intros H.
  cbn in H. apply orb_false_elim in H as [Hl Hls].
  cbn [map]. rewrite (IH Hls). f_equal.
  destruct (BoardList.id l =? listId); [|reflexivity].
  cbn in Hl. rewrite (filter_none_out _ _ Hl). apply withCards_same.
Qed.

Lemma removeCard_absent (cardId listId : Z) (st : BoardState) :
  hasCard cardId listId st = false -> removeCard cardId listId st = st.
Proof.
  destruct st as [[b|]]; [|reflexivity]. unfold hasCard, removeCard.
  cbn [board]. intros H.
  rewrite (removeCard_lists_absent _ _ _ H). now rewrite withLists_same.
Qed.

Lemma removeCard_addCard_sorted (listId : Z) (c : Card.t) (st : BoardState) :
  boardSorted st ->
  removeCard (Card.id c) listId (addCard listId c st)
  = removeCard (Card.id c) listId st.
Proof.
  destruct st as [[b|]]; [|reflexivity]. unfold boardSorted, removeCard, addCard.
  cbn [board]. intros Hs. unfold withLists.
  cbn [Board.lists Board.id Board.name Board.description Board.owner_id
       Board.created_at Board.updated_at].
  do 3 f_equal.
  rewrite map_map. apply map_ext_in. intros l Hl.
  rewrite Forall_forall in Hs. specialize (Hs l Hl).
  destruct (BoardList.id l =? listId) eqn:E; [|now rewrite E].
  cbn [withCards BoardList.id BoardList.cards]. rewrite E.
  unfold withCards. cbn [BoardList.id BoardList.name BoardList.position
                           BoardList.board_id]. f_equal.
  rewrite filter_sortCards, filter_app. cbn [filter].
  rewrite Z.eqb_refl. cbn [negb]. rewrite app_nil_r, <- filter_sortCards.
  now rewrite sortCards_of_sorted.
Qed.

(** X2.  On a board whose lists ascend by [position], removing a card
    right after adding it undoes the addition: [removeCard] after
    [addCard] gives what [removeCard] alone gives, and gives the board
    back as it was when the list held no card with the new card's id.
    The sorting of [addCard] does not disturb the other cards. *)
Theorem removeCard_addCard (listId : Z) (c : Card.t) (st : BoardState) :
  boardSorted st ->
  removeCard (Card.id c) listId (addCard listId c st)
  = removeCard (Card.id c) listId st /\
  (hasCard (Card.id c) listId st = false ->
   removeCard (Card.id c) listId (addCard listId c st) = st).
Proof.
  intros Hs. split; [now apply removeCard_addCard_sorted|].
  intros H. rewrite removeCard_addCard_sorted by exact Hs.
  now apply removeCard_absent.
Qed.

Lemma removeCard_addCard_witness :
  boardSorted sampleState /\
  removeCard 5 10 (addCard 10 cardE sampleState) = sampleState.
Proof.
  split; [exact sampleState_sorted|].
  exact (proj2 (removeCard_addCard 10 cardE sampleState sampleState_sorted)
           eq_refl).
Defined.

(** X3.  [removeList] after [addList] gives what [removeList] alone
    gives, hence the board as it was when it had no list with the new
    list's id; and [addList] adds the list without its cards, so the
    number of cards on the board stays. *)
Theorem removeList_addList (list : BoardList.t) (st : BoardState) :
  removeList (BoardList.id list) (addList list st)
  = removeList (BoardList.id list) st /\
  (hasList (BoardList.id list) st = false ->
   removeList (BoardList.id list) (addList list st) = st) /\
  totalCards (addList list st) = totalCards st.
Proof.
  destruct st as [[b|]]; [|now repeat split].
  unfold removeList, addList, hasList, totalCards, allCards.
  cbn [board withLists Board.lists].
  assert (E : filter (fun l => negb (BoardList.id l =? BoardList.id list))
                (Board.lists b ++ [withCards list []])
              = filter (fun l => negb (BoardList.id l =? BoardList.id list))
                  (Board.lists b)).
  { rewrite filter_app. cbn. rewrite Z.eqb_refl. cbn. apply app_nil_r. }
  split; [now rewrite E|]. split.
  - intros H. rewrite E, (filter_none_out _ _ H). now destruct b.
  - rewrite flat_map_app. cbn. now rewrite app_nil_r.
Qed.

(** ** Moving a card and moving it back *)

Lemma updateFirst_twice {A : Type} (p : A -> bool) (f g : A -> A)
  (l : list A) :
  (forall y, p (f y) = p y) ->
  updateFirst p g (updateFirst p f l) = updateFirst p (fun y => g (f y)) l.
Proof.
  intros Hp. induction l as [|x l IH]; [reflexivity|]. cbn.
  destruct (p x) eqn:E; cbn.
  - now rewrite Hp, E.
  - now rewrite E, IH.
Qed.

Lemma updateFirst_fix {A : Type} (p : A -> bool) (f : A -> A) (l : list A)
  (x : A) :
  find p l = Some x -> f x = x -> updateFirst p f l = l.
Proof.
  induction l as [|y l IH]; [discriminate|]. cbn.
  destruct (p y); intros H Hf.
  - injection H as ->. now rewrite Hf.
  - now rewrite IH.
Qed.

Lemma withLists_twice (b : Board.t) (l1 l2 : list BoardList.t) :
  withLists (withLists b l1) l2 = withLists b l2.
Proof. reflexivity. Qed.

Lemma len_removeAt {A : Type} (l : list A) (i : Z) (x : A) :
  nth_error l (Z.to_nat i) = Some x -> len (removeAt i l) = len l - 1.
Proof.
  intros H. pose proof (Permutation_length (removeAt_perm l i x H)) as E.
  unfold len. cbn [List.length] in E. lia.
Qed.

Lemma insertAt_removeAt {A : Type} (l : list A) (i : Z) (x : A) :
  nth_error l (Z.to_nat i) = Some x -> insertAt i x (removeAt i l) = l.
Proof.
  intros H. unfold insertAt, removeAt.
  assert (Hlt : (Z.to_nat i < List.length l)%nat).
  { apply nth_error_Some. congruence. }
  rewrite firstn_app, skipn_app, firstn_firstn, Nat.min_id.
  rewrite length_firstn, Nat.min_l by lia.
  rewrite Nat.sub_diag. cbn [firstn skipn]. rewrite app_nil_r.
  rewrite skipn_firstn_comm, Nat.sub_diag. cbn [firstn app].
  symmetry. now apply nth_error_firstn_skipn.
Qed.

Lemma removeAt_insertAt {A : Type} (l : list A) (k : Z) (x : A) :
  0 <= k <= len l -> removeAt k (insertAt k x l) = l.
Proof.
  unfold len, insertAt, removeAt. intros Hk.
  set (n := Z.to_nat k). assert (Hn : (n <= List.length l)%nat) by lia.
  assert (Hf : List.length (firstn n l) = n).
  { rewrite length_firstn. lia. }
  rewrite firstn_app, Hf, Nat.sub_diag. cbn [firstn]. rewrite app_nil_r.
  rewrite firstn_all2 by lia.
  rewrite skipn_app, Hf. rewrite skipn_all2 by lia.
  replace (S n - n)%nat with 1%nat by lia. cbn [skipn app].
  apply firstn_skipn.
Qed.

Lemma find_insert_nat {A : Type} (p : A -> bool) (x : A) (n : nat)
  (l : list A) :
  find p l = None -> p x = true -> (n <= List.length l)%nat ->
  find p (firstn n l ++ x :: skipn n l) = Some x /\
  findIndex p (firstn n l ++ x :: skipn n l) = Z.of_nat n.
Proof.
  intros Hl Hx. revert l Hl. induction n as [|n IH]; intros l Hl Hn.
  - cbn. now rewrite Hx.
  - destruct l as [|y l]; [cbn in Hn; lia|]. cbn in Hl.
    destruct (p y) eqn:E; [discriminate|].
    cbn [firstn skipn app find findIndex]. rewrite E.
    destruct (IH l Hl) as [H1 H2]; [cbn in Hn; lia|].
    rewrite H1, H2. split; [reflexivity|].
    destruct (Z.of_nat n =? -1) eqn:E1; [apply Z.eqb_eq in E1|]; lia.
Qed.

Lemma find_insertAt {A : Type} (p : A -> bool) (x : A) (k : Z) (l : list A) :
  find p l = None -> p x = true -> 0 <= k <= len l ->
  find p (insertAt k x l) = Some x /\ findIndex p (insertAt k x l) = k.
Proof.
  unfold len, insertAt. intros Hl Hx Hk.
  destruct (find_insert_nat p x (Z.to_nat k) l Hl Hx) as [H1 H2]; [lia|].
  split; [exact H1|]. rewrite H2. lia.
Qed.

Lemma insertIndexOf_in_range (i n : Z) :
  0 <= i <= n -> insertIndexOf i n = i.
Proof.
  intros H. destruct (insertIndexOf_bounds i n) as (_ & _ & E); [lia|].
  rewrite E by lia. lia.
Qed.

Lemma withListId_same (c : Card.t) : withListId c (Card.list_id c) = c.
Proof. now destruct c. Qed.

(** What [moveCardOptimistic] does when the source list, the card and
    the target list are found, in terms of the lists before the move. *)
Lemma moveCardOptimistic_found (cardId src tgt newIndex : Z) (b : Board.t)
  (sl tl : BoardList.t) (c : Card.t) :
  find (fun l => BoardList.id l =? src) (Board.lists b) = Some sl ->
  find (fun c => Card.id c =? cardId) (BoardList.cards sl) = Some c ->
  find (fun l => BoardList.id l =? tgt) (Board.lists b) = Some tl ->
  let i := findIndex (fun c => Card.id c =? cardId) (BoardList.cards sl) in
  let remaining := removeAt i (BoardList.cards sl) in
  let lists1 :=
    updateFirst (fun l => BoardList.id l =? src)
      (fun l => withCards l remaining) (Board.lists b) in
  let rest := if src =? tgt then remaining else BoardList.cards tl in
  let c' := withListId c tgt in
  let k := insertIndexOf newIndex (len rest) in
  moveCardOptimistic cardId src tgt newIndex (mkState (Some b))
  = Ret (mkMoveCardResult (Some b) (Some c'),
         mkState (Some (withLists b
           (updateFirst (fun l => BoardList.id l =? tgt)
              (fun l => withCards l (insertAt k c' rest)) lists1)))) /\
  find (fun l => BoardList.id l =? tgt) lists1 = Some (withCards tl rest) /\
  find (fun l => BoardList.id l =? src) lists1
    = Some (withCards sl remaining) /\
  nth_error (BoardList.cards sl) (Z.to_nat i) = Some c /\
  0 <= i < len (BoardList.cards sl).
Proof.
  intros Hsl Hc Htl i remaining lists1 rest c' k.
  assert (Hi : i <> -1).
  { intros Hi. apply findIndex_none in Hi. unfold i in Hi. congruence. }
  destruct (findIndex_found _ _ Hi) as (c0 & Hn & Hf & _).
  fold i in Hn. rewrite Hc in Hf. injection Hf as <-.
  pose proof (findIndex_bounds (fun c => Card.id c =? cardId)
                (BoardList.cards sl)) as Hb. fold i in Hb.
  assert (Hsrc1 : find (fun l => BoardList.id l =? src) lists1
                  = Some (withCards sl remaining)).
  { unfold lists1. rewrite find_updateFirst_same by reflexivity.
    now rewrite Hsl. }
  assert (Htgt1 : find (fun l => BoardList.id l =? tgt) lists1
                  = Some (withCards tl rest)).
  { unfold rest. destruct (src =? tgt) eqn:Est.
    - apply Z.eqb_eq in Est. subst tgt. rewrite Hsrc1. congruence.
    - apply Z.eqb_neq in Est. rewrite withCards_same, <- Htl. unfold lists1.
      apply find_updateFirst_other; [|reflexivity].
      intros y Hy. apply Z.eqb_eq in Hy. apply Z.eqb_neq. congruence. }
  split; [|repeat split; try assumption; lia].
  rewrite moveCardOptimistic_unfold. cbn [board]. rewrite Hsl, Hc.
  cbv zeta. fold i. fold remaining. fold lists1. rewrite Htgt1.
  reflexivity.
Qed.

Lemma hasCard_false_find (cardId listId : Z) (b : Board.t) (l : BoardList.t) :
  hasCard cardId listId (mkState (Some b)) = false ->
  find (fun l => BoardList.id l =? listId) (Board.lists b) = Some l ->
  find (fun c => Card.id c =? cardId) (BoardList.cards l) = None.
Proof.
  unfold hasCard. cbn [board].
  induction (Board.lists b) as [|y ls IH]; [discriminate|]. cbn.
  intros H. apply orb_false_elim in H as [Hy Hls].
  destruct (BoardList.id y =? listId).
  - intros E. injection E as ->. cbn in Hy.
    destruct (find _ (BoardList.cards l)) as [x|] eqn:Ex; [|reflexivity].
    apply find_some in Ex as [Hin Hx].
    assert (existsb (fun c => Card.id c =? cardId) (BoardList.cards l) = true)
      by (apply existsb_exists; eauto).
    congruence.
  - now apply IH.
Qed.

(** X4.  A move to the place the card is at changes nothing: when the
    card is found in the source list and names that list as its
    [list_id], [moveCardOptimistic] into the same list at the card's own
    index returns the card and leaves the board as it is. *)
Theorem moveCardOptimistic_own_place (cardId src : Z) (st : BoardState)
  (b : Board.t) (sl : BoardList.t) (c : Card.t) :
  board st = Some b ->
  find (fun l => BoardList.id l =? src) (Board.lists b) = Some sl ->
  find (fun c => Card.id c =? cardId) (BoardList.cards sl) = Some c ->
  Card.list_id c = src ->
  moveCardOptimistic cardId src src
    (findIndex (fun c => Card.id c =? cardId) (BoardList.cards sl)) st
  = Ret (mkMoveCardResult (Some b) (Some c), st).
Proof.
  destruct st as [b0]. cbn [board]. intros -> Hsl Hc Hl.
  destruct (moveCardOptimistic_found cardId src src
              (findIndex (fun c => Card.id c =? cardId) (BoardList.cards sl))
              b sl sl c Hsl Hc Hsl) as (E & _ & _ & Hn & Hi).
  rewrite E. clear E. rewrite Z.eqb_refl.
  replace (withListId c src) with c
    by (rewrite <- Hl; symmetry; apply withListId_same).
  rewrite (len_removeAt _ _ _ Hn).
  rewrite insertIndexOf_in_range by lia.
  rewrite (insertAt_removeAt _ _ _ Hn).
  rewrite updateFirst_twice by reflexivity.
  rewrite (updateFirst_fix _ _ _ sl Hsl) by (now destruct sl).
  now rewrite withLists_same.
Qed.

Lemma moveCardOptimistic_own_place_witness :
  moveCardOptimistic 2 10 10 1 sampleState
  = Ret (mkMoveCardResult (Some sampleBoard) (Some cardB), sampleState).
Proof.
  exact (moveCardOptimistic_own_place 2 10 sampleState sampleBoard
           (BoardList.mk 10 "Todo" "n" 1 [cardA; cardB; cardC]) cardB
           eq_refl eq_refl eq_refl eq_refl).
Defined.

(** X5.  A move into another list is undone by the move back: when the
    card is found in the source list, names that list as its [list_id],
    and the target list holds no card with its id, [moveCardOptimistic]
    to the target list followed by [moveCardOptimistic] from the target
    list to the index the card had in the source list gives the board as
    it was before, at whatever index the card was put; the second move
    returns the card as it was.  When the board has no target list, both
    moves return no card and each leaves the board as it is. *)
Theorem moveCardOptimistic_undo (cardId src tgt newIndex : Z)
  (st : BoardState) (b : Board.t) (sl : BoardList.t) (c : Card.t) :
  board st = Some b ->
  src <> tgt ->
  find (fun l => BoardList.id l =? src) (Board.lists b) = Some sl ->
  find (fun c => Card.id c =? cardId) (BoardList.cards sl) = Some c ->
  Card.list_id c = src ->
  hasCard cardId tgt st = false ->
  exists res st1 res',
    moveCardOptimistic cardId src tgt newIndex st = Ret (res, st1) /\
    moveCardOptimistic cardId tgt src
      (findIndex (fun c => Card.id c =? cardId) (BoardList.cards sl)) st1
    = Ret (res', st) /\
    (hasList tgt st = true ->
     card res = Some (withListId c tgt) /\ card res' = Some c) /\
    (hasList tgt st = false ->
     card res = None /\ st1 = st /\ card res' = None).
Proof.
  destruct st as [b0]. cbn [board]. intros -> Hne Hsl Hc Hl Hfresh.
  destruct (find (fun l => BoardList.id l =? tgt) (Board.lists b))
    as [tl|] eqn:Htl.
  2:{ exists (mkMoveCardResult (Some b) None), (mkState (Some b)),
        (mkMoveCardResult (Some b) None).
      assert (Hnl : hasList tgt (mkState (Some b)) = false).
      { unfold hasList. cbn [board].
        destruct (existsb _ (Board.lists b)) eqn:E; [|reflexivity].
        apply existsb_exists in E as (y & Hy & Ey).
        pose proof (find_none _ _ Htl y Hy) as Hy'. cbn in Hy'.
        congruence. }
      split; [|split; [|split]].
      - rewrite moveCardOptimistic_unfold. cbn [board]. rewrite Hsl, Hc.
        cbv zeta.
        match goal with
        | |- context [find ?q (updateFirst ?p ?f ?l)] =>
            rewrite (proj2 (find_updateFirst_none p q f l
                              (fun y => eq_refl)) Htl)
        end.
        reflexivity.
      - rewrite moveCardOptimistic_unfold. cbn [board]. now rewrite Htl.
      - congruence.
      - intros _. repeat split. }
  assert (Hyes : hasList tgt (mkState (Some b)) = true).
  { unfold hasList. cbn [board]. apply existsb_exists.
    apply find_some in Htl. now exists tl. }
  pose proof (hasCard_false_find _ _ _ _ Hfresh Htl) as Hnone.
  destruct (moveCardOptimistic_found cardId src tgt newIndex b sl tl c
              Hsl Hc Htl) as (E & Htgt1 & Hsrc1 & Hn & Hi).
  apply Z.eqb_neq in Hne. rewrite Hne in E, Htgt1.
  rewrite withCards_same in Htgt1.
  set (i := findIndex (fun c => Card.id c =? cardId) (BoardList.cards sl))
    in *.
  set (lists1 := updateFirst (fun l => BoardList.id l =? src)
                   (fun l => withCards l (removeAt i (BoardList.cards sl)))
                   (Board.lists b)) in *.
  set (k := insertIndexOf newIndex (len (BoardList.cards tl))) in *.
  set (c' := withListId c tgt) in *.
  set (lists2 := updateFirst (fun l => BoardList.id l =? tgt)
                   (fun l => withCards l (insertAt k c' (BoardList.cards tl)))
                   lists1) in *.
  assert (Hk : 0 <= k <= len (BoardList.cards tl)).
  { apply insertIndexOf_bounds, len_nonneg. }
  assert (Hc' : (Card.id c' =? cardId) = true).
  { apply find_some in Hc as [_ Hc]. exact Hc. }
  destruct (find_insertAt (fun c => Card.id c =? cardId) c' k
              (BoardList.cards tl) Hnone Hc' Hk) as [Hf2 Hi2].
  assert (Htgt2 : find (fun l => BoardList.id l =? tgt) lists2
                  = Some (withCards tl (insertAt k c' (BoardList.cards tl)))).
  { unfold lists2. rewrite find_updateFirst_same by reflexivity.
    now rewrite Htgt1. }
  assert (Hsrc2 : find (fun l => BoardList.id l =? src) lists2
                  = Some (withCards sl (removeAt i (BoardList.cards sl)))).
  { rewrite <- Hsrc1. unfold lists2.
    apply find_updateFirst_other; [|reflexivity].
    intros y Hy. apply Z.eqb_eq in Hy. apply Z.eqb_neq in Hne.
    apply Z.eqb_neq. congruence. }
  destruct (moveCardOptimistic_found cardId tgt src i (withLists b lists2)
              (withCards tl (insertAt k c' (BoardList.cards tl)))
              (withCards sl (removeAt i (BoardList.cards sl))) c')
    as (E2 & _); [exact Htgt2|exact Hf2|exact Hsrc2|].
  cbn [withCards withLists Board.lists BoardList.cards] in E2.
  rewrite Hi2 in E2.
  assert (Hts : (tgt =? src) = false).
  { apply Z.eqb_neq. apply Z.eqb_neq in Hne. congruence. }
  rewrite Hts in E2.
  rewrite (removeAt_insertAt _ _ c' Hk) in E2.
  rewrite (len_removeAt _ _ _ Hn) in E2.
  rewrite insertIndexOf_in_range in E2 by lia.
  assert (Hback : c = withListId c' src).
  { rewrite <- Hl. symmetry. exact (withListId_same c). }
  rewrite <- Hback in E2.
  rewrite (insertAt_removeAt _ _ _ Hn) in E2.
  exists (mkMoveCardResult (Some b) (Some c')),
    (mkState (Some (withLists b lists2))),
    (mkMoveCardResult (Some (withLists b lists2)) (Some c)).
  split; [exact E|].
  split; [|split; [intros _; split; reflexivity|congruence]].
  rewrite E2, withLists_twice.
  assert (E3 : updateFirst (fun l => BoardList.id l =? tgt)
                 (fun l => withCards l (BoardList.cards tl)) lists2 = lists1).
  { unfold lists2. rewrite updateFirst_twice by reflexivity.
    apply (updateFirst_fix _ _ _ tl Htgt1). now destruct tl. }
  rewrite E3. unfold lists1. rewrite updateFirst_twice by reflexivity.
  rewrite (updateFirst_fix _ _ _ sl Hsl) by (now destruct sl).
  now rewrite withLists_same.
Qed.

Lemma moveCardOptimistic_undo_witness :
  10 <> 20 /\
  hasCard 1 20 sampleState = false /\
  exists res st1 res',
    moveCardOptimistic 1 10 20 0 sampleState = Ret (res, st1) /\
    moveCardOptimistic 1 20 10 0 st1 = Ret (res', sampleState) /\
    (hasList 20 sampleState = true ->
     card res = Some (withListId cardA 20) /\ card res' = Some cardA) /\
    (hasList 20 sampleState = false ->
     card res = None /\ st1 = sampleState /\ card res' = None).
Proof.
  split; [lia|]. split; [reflexivity|].
  apply (moveCardOptimistic_undo 1 10 20 0 sampleState sampleBoard
           (BoardList.mk 10 "Todo" "n" 1 [cardA; cardB; cardC]) cardA);
    [reflexivity|lia|reflexivity|reflexivity|reflexivity|reflexivity].
Defined.

Lemma moveCardOptimistic_absent (cardId src tgt newIndex : Z)
  (st : BoardState) :
  hasCard cardId src st = false ->
  moveCardOptimistic cardId src tgt newIndex st
  = Ret (mkMoveCardResult (board st) None, st).
Proof.
  destruct st as [[b|]]; [|reflexivity]. intros H.
  rewrite moveCardOptimistic_unfold. cbn [board].
  destruct (find (fun l => BoardList.id l =? src) (Board.lists b))
    as [sl|] eqn:Hsl; [|reflexivity].
  now rewrite (hasCard_false_find _ _ _ _ H Hsl).
Qed.

Lemma existsb_filter_negb {A : Type} (p : A -> bool) (l : list A) :
  existsb p (filter (fun c => negb (p c)) l) = false.
Proof.
  induction l as [|x l IH]; [reflexivity|]. cbn.
  destruct (p x) eqn:E; cbn; [exact IH|]. now rewrite E, IH.
Qed.

Lemma hasCard_removeCard (cardId listId : Z) (st : BoardState) :
  hasCard cardId listId (removeCard cardId listId st) = false.
Proof.
  destruct st as [[b|]]; [|reflexivity]. unfold hasCard, removeCard.
  cbn [board withLists Board.lists].
  induction (Board.lists b) as [|l ls IH]; [reflexivity|].
  cbn [map existsb]. rewrite IH, orb_false_r.
  destruct (BoardList.id l =? listId) eqn:E.
  - cbn [withCards BoardList.id BoardList.cards].
    now rewrite E, existsb_filter_negb.
  - now rewrite E.
Qed.

(** X6.  [removeCard] takes every card with the given id out of every
    list with the given id and never adds a card; a second [removeCard]
    changes nothing more; and a [moveCardOptimistic] of the removed card
    out of that list finds no card: it returns no card and leaves the
    board as [removeCard] left it. *)
Theorem removeCard_then_move (cardId listId : Z) (st : BoardState) :
  hasCard cardId listId (removeCard cardId listId st) = false /\
  removeCard cardId listId (removeCard cardId listId st)
  = removeCard cardId listId st /\
  (totalCards (removeCard cardId listId st) <= totalCards st)%nat /\
  forall tgt newIndex,
    moveCardOptimistic cardId listId tgt newIndex
      (removeCard cardId listId st)
    = Ret (mkMoveCardResult (board (removeCard cardId listId st)) None,
           removeCard cardId listId st).
Proof.
  pose proof (hasCard_removeCard cardId listId st) as H.
  split; [exact H|]. split; [now apply removeCard_absent|]. split.
  - destruct st as [[b|]]; [|reflexivity].
    unfold totalCards, allCards, removeCard.
    cbn [board withLists Board.lists].
    induction (Board.lists b) as [|l ls IH]; [reflexivity|].
    cbn [map flat_map]. rewrite !length_app.
    apply Nat.add_le_mono; [|exact IH].
    destruct (BoardList.id l =? listId); [|reflexivity].
    apply filter_length_le.
  - intros tgt newIndex. now apply moveCardOptimistic_absent.
Qed.

(** ** The two variants of the store *)

Lemma sortLists_of_sorted (st : BoardState) :
  boardSorted st -> sortLists st = st.
Proof.
  destruct st as [[b|]]; [|reflexivity]. unfold boardSorted, sortLists.
  cbn [board]. intros Hs.
  assert (E : map (fun l => withCards l (sortCards (BoardList.cards l)))
                (Board.lists b) = Board.lists b).
  { rewrite <- (map_id (Board.lists b)) at 2. apply map_ext_in.
    intros l Hl. rewrite Forall_forall in Hs.
    rewrite (sortCards_of_sorted _ (Hs l Hl)). apply withCards_same. }
  now rewrite E, withLists_same.
Qed.

Lemma sortLists_sorted (st : BoardState) : boardSorted (sortLists st).
Proof.
  destruct st as [[b|]]; [|exact I]. unfold boardSorted, sortLists.
  cbn [board withLists Board.lists]. apply Forall_forall.
  intros l Hl. apply in_map_iff in Hl as (l0 & <- & _).
  apply sortCards_sorted.
Qed.

(** X7.  The [moveCardOptimistic] of [frontend/src/store/boardStore.ts]
    and the one of the store with [sortCards] compute the same result
    and the same board on every input: the branch for a move down
    within one list chooses the same insertion index as the other
    branch. *)
Theorem plain_moveCardOptimistic_same (cardId src tgt newIndex : Z)
  (st : BoardState) :
  PlainStore.moveCardOptimistic cardId src tgt newIndex st
  = moveCardOptimistic cardId src tgt newIndex st.
Proof.
  unfold PlainStore.moveCardOptimistic, moveCardOptimistic.
  destruct (board st) as [b|]; [|reflexivity].
  destruct (find _ (Board.lists (jsonClone b))) as [sl|]; [|reflexivity].
  cbv zeta.
  destruct (findIndex _ (BoardList.cards sl) =? -1); [reflexivity|].
  destruct (splice _ 1 [] (BoardList.cards sl)) as [removed remaining].
  destruct (find _ _) as [tl|]; [|reflexivity].
  destruct (hd_error removed) as [c|]; [|reflexivity].
  now destruct ((src =? tgt) && _).
Qed.

(** X8.  The store with [sortCards] is the store of
    [frontend/src/store/boardStore.ts] followed by the sorting of every
    list, for [setBoard], [updateCard] and [updateCardAfterMove], and
    for [addCard] on a board whose lists ascend; so the two stores hold
    the same board after such an operation exactly when the lists of the
    plain store's board ascend by [position]. *)
Theorem sorting_store_is_plain_store_sorted :
  (forall b st, setBoard b st = sortLists (PlainStore.setBoard b st)) /\
  (forall cardId updates st,
     updateCard cardId updates st
     = sortLists (PlainStore.updateCard cardId updates st)) /\
  (forall cardId updates st,
     updateCardAfterMove cardId updates st
     = sortLists (PlainStore.updateCardAfterMove cardId updates st)) /\
  (forall updatedCard st,
     onSuccess updatedCard st
     = sortLists (PlainStore.onSuccess updatedCard st)) /\
  (forall listId c st,
     boardSorted st ->
     addCard listId c st = sortLists (PlainStore.addCard listId c st)) /\
  (forall st, sortLists st = st <-> boardSorted st).
Proof.
  assert (Hu : forall cardId updates st,
             updateCardAfterMove cardId updates st
             = sortLists (PlainStore.updateCardAfterMove cardId updates st)).
  { intros cardId updates [[b|]]; [|reflexivity].
    unfold updateCardAfterMove, PlainStore.updateCardAfterMove, sortLists.
    cbn [board withLists Board.lists]. unfold withLists.
    cbn [Board.lists Board.id Board.name Board.description Board.owner_id
         Board.created_at Board.updated_at].
    do 3 f_equal. rewrite map_map. reflexivity. }
  split; [reflexivity|]. split; [exact Hu|]. split; [exact Hu|].
  split; [intros u st; apply Hu|]. split.
  - intros listId c [[b|]]; [|reflexivity].
    unfold boardSorted, addCard, PlainStore.addCard, sortLists.
    cbn [board withLists Board.lists]. unfold withLists.
    cbn [Board.lists Board.id Board.name Board.description Board.owner_id
         Board.created_at Board.updated_at].
    intros Hs. do 3 f_equal. rewrite map_map. apply map_ext_in.
    intros l Hl. destruct (BoardList.id l =? listId); [reflexivity|].
    rewrite Forall_forall in Hs.
    rewrite (sortCards_of_sorted _ (Hs l Hl)). symmetry.
    apply withCards_same.
  - intros st. split; [|apply sortLists_of_sorted].
    intros H. rewrite <- H. apply sortLists_sorted.
Qed.

Lemma fold_sortInsert_place (c : Card.t) (cards : list Card.t) :
  sortedByPosition cards ->
  fold_right (sortInsert compareCards) [c] cards
  = filter (fun x => compareCards x c <=? 0) cards
    ++ c :: filter (fun x => negb (compareCards x c <=? 0)) cards.
Proof.
  induction cards as [|x r IH]; [reflexivity|]. intros Hs.
  apply StronglySorted_inv in Hs as [Hr Hx].
  cbn [fold_right filter]. rewrite (IH Hr).
  destruct (compareCards x c <=? 0) eqn:E; cbn [negb].
  - apply sortInsert_le_all. apply compareCards_le in E.
    apply Forall_app. split.
    + apply Forall_forall. intros z Hz. apply filter_In in Hz as [Hz _].
      rewrite Forall_forall in Hx. now apply Hx.
    + constructor; [exact E|].
      apply Forall_forall. intros z Hz. apply filter_In in Hz as [Hz _].
      rewrite Forall_forall in Hx. now apply Hx.
  - assert (Hgt : forall z, In z r -> (compareCards z c <=? 0) = false).
    { intros z Hz. destruct (compareCards z c <=? 0) eqn:Ez; [|reflexivity].
      apply compareCards_le in Ez. rewrite Forall_forall in Hx.
      pose proof (positionLe_trans _ _ _ (Hx z Hz) Ez) as Hxc.
      apply compareCards_le in Hxc. congruence. }
    assert (E1 : filter (fun x => compareCards x c <=? 0) r = []).
    { clear -Hgt. induction r as [|z r IH]; [reflexivity|]. cbn.
      rewrite (Hgt z) by now left. apply IH. intros y Hy. apply Hgt.
      now right. }
    assert (E2 : filter (fun x => negb (compareCards x c <=? 0)) r = r).
    { clear -Hgt. induction r as [|z r IH]; [reflexivity|]. cbn.
      rewrite (Hgt z) by now left. cbn. f_equal. apply IH. intros y Hy.
      apply Hgt. now right. }
    rewrite E1, E2. cbn [app sortInsert]. rewrite E.
    now rewrite (sortInsert_le_all x r Hx).
Qed.

Lemma placeByPosition_last (c : Card.t) (cards : list Card.t) :
  Forall (fun x => positionLe x c) cards ->
  placeByPosition c cards = cards ++ [c].
Proof.
  unfold placeByPosition. intros H.
  induction cards as [|x r IH]; [reflexivity|].
  apply Forall_cons_iff in H as [Hx Hr]. apply compareCards_le in Hx.
  cbn [filter]. rewrite Hx. cbn [negb app]. now rewrite (IH Hr).
Qed.

(** X9.  On a board whose lists ascend by [position], [addCard] puts
    the new card into every list with the given id after the cards whose
    [position] is not greater than its own, equal ones included, and
    before the cards whose [position] is greater; the other cards keep
    their order and the other lists stay as they are.  When no card of
    such a list has a greater [position], the card comes last, as in the
    store without sorting. *)
Theorem addCard_place (listId : Z) (c : Card.t) (st : BoardState)
  (b : Board.t) :
  boardSorted st ->
  board st = Some b ->
  addCard listId c st
  = mkState (Some (withLists b
      (map (fun l => if BoardList.id l =? listId
                     then withCards l (placeByPosition c (BoardList.cards l))
                     else l)
         (Board.lists b)))) /\
  (Forall (fun l => BoardList.id l = listId ->
                    Forall (fun x => positionLe x c) (BoardList.cards l))
     (Board.lists b) ->
   addCard listId c st = PlainStore.addCard listId c st).
Proof.
  destruct st as [b0]. unfold boardSorted, addCard, PlainStore.addCard.
  cbn [board]. intros Hs [= ->]. rewrite Forall_forall in Hs. split.
  - do 3 f_equal. apply map_ext_in. intros l Hl.
    destruct (BoardList.id l =? listId); [|reflexivity]. f_equal.
    unfold sortCards, arraySort. rewrite fold_right_app. cbn [fold_right].
    apply fold_sortInsert_place. now apply Hs.
  - intros Hle. rewrite Forall_forall in Hle. do 3 f_equal.
    apply map_ext_in. intros l Hl.
    destruct (BoardList.id l =? listId) eqn:E; [|reflexivity]. f_equal.
    apply Z.eqb_eq in E.
    unfold sortCards, arraySort. rewrite fold_right_app.
    cbn [fold_right sortInsert].
    rewrite fold_sortInsert_place by now apply Hs.
    apply placeByPosition_last. now apply Hle.
Qed.

Lemma addCard_place_witness :
  boardSorted sampleState /\
  addCard 10 cardE sampleState
  = mkState (Some (withLists sampleBoard
      [ BoardList.mk 10 "Todo" "n" 1 [cardA; cardB; cardE; cardC];
        BoardList.mk 20 "Done" "t" 1 [cardD] ])).
Proof.
  split; [exact sampleState_sorted|].
  exact (proj1 (addCard_place 10 cardE sampleState sampleBoard
                  sampleState_sorted eq_refl)).
Defined.

(** ** The drag-and-drop handler: exceptions and drops on a list *)

Lemma arrayGet_some {A : Type} (l : list A) (i : Z) :
  0 <= i < len l -> exists x, arrayGet l i = Some x.
Proof.
  intros H. destruct (arrayGet l i) as [x|] eqn:E; [now exists x|].
  apply arrayGet_none_iff in E. lia.
Qed.

(** [dropAt] throws exactly for a negative index into a list the board
    holds; otherwise it returns, with a call when the list is found. *)
Lemma dropAt_cases (b : Board.t) (active : Card.t) (tgt i : Z) :
  match find (fun l => BoardList.id l =? tgt) (Board.lists b) with
  | None => dropAt b active tgt i = Ret None
  | Some targetList =>
      let remaining :=
        cardsWithout (Card.id active) (BoardList.cards targetList) in
      if i <? 0 then dropAt b active tgt i = TypeError
      else
        exists before after,
          dropAt b active tgt i
          = Ret (Some (mkVars (Card.id active) (Card.list_id active) tgt i
                         (Card.version active) before after)) /\
          (len remaining <= i ->
           before = option_map Card.id (arrayGet remaining (len remaining - 1))
           /\ after = None)
  end.
Proof.
  unfold dropAt, cardsWithout.
  destruct (find _ (Board.lists b)) as [targetList|]; [|reflexivity].
  cbv zeta.
  generalize (filter (fun c => negb (Card.id c =? Card.id active))
                (BoardList.cards targetList)).
  intros rem. pose proof (len_nonneg rem) as Hlen.
  destruct (i <? 0) eqn:Eneg.
  - apply Z.ltb_lt in Eneg.
    destruct (i =? 0) eqn:E0; [apply Z.eqb_eq in E0; lia|].
    destruct (i >=? len rem) eqn:E1.
    { rewrite Z.geb_leb in E1. apply Z.leb_le in E1. lia. }
    assert (E : arrayGet rem (i - 1) = None)
      by (apply arrayGet_none_iff; lia).
    now rewrite E.
  - apply Z.ltb_ge in Eneg.
    destruct (i =? 0) eqn:E0.
    + apply Z.eqb_eq in E0. subst i.
      destruct (len rem >? 0) eqn:E2.
      * rewrite Z.gtb_ltb in E2. apply Z.ltb_lt in E2.
        destruct (arrayGet_some rem 0) as [x Hx]; [lia|].
        rewrite Hx. cbn. eexists _, _. split; [reflexivity|]. lia.
      * rewrite Z.gtb_ltb in E2. apply Z.ltb_ge in E2.
        cbn. eexists _, _. split; [reflexivity|]. intros _.
        assert (E : arrayGet rem (len rem - 1) = None)
          by (apply arrayGet_none_iff; lia).
        now rewrite E.
    + apply Z.eqb_neq in E0.
      destruct (i >=? len rem) eqn:E1.
      * destruct (len rem >? 0) eqn:E2.
        -- rewrite Z.gtb_ltb in E2. apply Z.ltb_lt in E2.
           destruct (arrayGet_some rem (len rem - 1)) as [x Hx]; [lia|].
           rewrite Hx. cbn. eexists _, _. split; [reflexivity|].
           now intros _.
        -- rewrite Z.gtb_ltb in E2. apply Z.ltb_ge in E2.
           cbn. eexists _, _. split; [reflexivity|]. intros _.
           assert (E : arrayGet rem (len rem - 1) = None)
             by (apply arrayGet_none_iff; lia).
           now rewrite E.
      * rewrite Z.geb_leb in E1. apply Z.leb_gt in E1.
        destruct (arrayGet_some rem (i - 1)) as [x Hx]; [lia|].
        destruct (arrayGet_some rem i) as [y Hy]; [lia|].
        rewrite Hx, Hy. cbn. eexists _, _. split; [reflexivity|]. lia.
Qed.

(** [dropAt] at an index within the remaining cards: the call it makes. *)
Lemma dropAt_in_range (b : Board.t) (active : Card.t) (tgt i : Z)
  (targetList : BoardList.t) :
  find (fun l => BoardList.id l =? tgt) (Board.lists b) = Some targetList ->
  let remaining :=
    cardsWithout (Card.id active) (BoardList.cards targetList) in
  0 <= i <= len remaining ->
  dropAt b active tgt i
  = Ret (Some (mkVars (Card.id active) (Card.list_id active) tgt i
                 (Card.version active)
                 (option_map Card.id (arrayGet remaining (i - 1)))
                 (option_map Card.id (arrayGet remaining i)))).
Proof.
  intros Hf remaining Hi.
  pose proof (dropAt_cases b active tgt i) as D. rewrite Hf in D.
  cbv zeta in D.
  assert (E : (i <? 0) = false) by (apply Z.ltb_ge; lia).
  rewrite E in D. destruct D as (before & after & D & _).
  destruct (dropAt_call _ _ _ _ _ D) as (tl & Hf' & _ & _ & Hspec).
  rewrite Hf in Hf'. injection Hf' as <-. cbv zeta in Hspec.
  destruct Hspec as (_ & _ & Hnb). fold remaining in Hnb.
  destruct (Hnb (proj2 Hi)) as [Hb Ha].
  cbn [beforeCardId afterCardId] in Hb, Ha. now rewrite D, Hb, Ha.
Qed.

(** C7.  Every drop into a list of the board, other than the drop of a
    card on its own place, leads to a call of [moveCard] that names the
    neighbours of the insertion index.  With [i] the insertion index of
    the drop (the index of the card under the pointer, or the number of
    the list's other cards for a drop on the list's area) and the
    remaining cards those of the target list without the dragged one,
    for [i] from 0 to the number of remaining cards [handleDragEnd] calls
    [moveCard] with the dragged card's id, list and version, the target
    list, the index [i], the id of the remaining card at [i - 1] as
    [beforeCardId] and the id of the one at [i] as [afterCardId];
    [beforeCardId] is absent exactly when [i = 0], [afterCardId] exactly
    when [i] is the number of remaining cards, and both when no card
    remains.  The index is in that range for every drop on a list's area,
    and for every drop on a card that a list with distinct card ids
    holds.  Conversely, every call the handler makes has this form. *)
Theorem handleDragEnd_neighbours (b : Board.t) :
  (forall active overData tgt targetList,
     dropTarget overData = Some tgt ->
     find (fun l => BoardList.id l =? tgt) (Board.lists b)
       = Some targetList ->
     samePosition active overData targetList = false ->
     let remaining :=
       cardsWithout (Card.id active) (BoardList.cards targetList) in
     let i := dropIndex active overData targetList in
     let before := option_map Card.id (arrayGet remaining (i - 1)) in
     let after := option_map Card.id (arrayGet remaining i) in
     0 <= i <= len remaining ->
     handleDragEnd (Some b) (mkDragEnd (Some active) (Some overData))
     = Ret (Some (mkVars (Card.id active) (Card.list_id active) tgt i
                    (Card.version active) before after)) /\
     (before = None <-> i = 0) /\
     (after = None <-> i = len remaining) /\
     (remaining = [] -> before = None /\ after = None)) /\
  (forall active overData targetList,
     let remaining :=
       cardsWithout (Card.id active) (BoardList.cards targetList) in
     let i := dropIndex active overData targetList in
     (forall listId, overData = OverList listId -> 0 <= i <= len remaining) /\
     (forall overCard,
        overData = OverCard overCard ->
        NoDup (map Card.id (BoardList.cards targetList)) ->
        In overCard (BoardList.cards targetList) ->
        0 <= i <= len remaining)) /\
  (forall ev v,
     handleDragEnd (Some b) ev = Ret (Some v) ->
     exists active targetList,
       activeCard ev = Some active /\
       find (fun l => BoardList.id l =? targetListId v) (Board.lists b)
         = Some targetList /\
       let remaining :=
         cardsWithout (Card.id active) (BoardList.cards targetList) in
       let i := newIndex v in
       0 <= i /\
       (remaining = [] -> beforeCardId v = None /\ afterCardId v = None) /\
       (i <= len remaining ->
        beforeCardId v = option_map Card.id (arrayGet remaining (i - 1)) /\
        afterCardId v = option_map Card.id (arrayGet remaining i) /\
        (beforeCardId v = None <-> i = 0) /\
        (afterCardId v = None <-> i = len remaining)) /\
       (NoDup (map Card.id (BoardList.cards targetList)) ->
        i <= len remaining)).
Proof.
  split; [|split].
  - intros active overData tgt targetList Ht Hf Hsame remaining i before after Hi.
    assert (Hcall : handleDragEnd (Some b)
                      (mkDragEnd (Some active) (Some overData))
                    = dropAt b active tgt i).
    { unfold handleDragEnd. cbn [over activeCard].
      destruct overData as [overCard|listId|]; cbn in Ht; [| |discriminate];
        injection Ht as <-; rewrite Hf; cbv zeta.
      - cbn [samePosition] in Hsame. unfold i, dropIndex.
        destruct (Card.list_id active =? Card.list_id overCard);
          [|reflexivity].
        cbn [andb] in Hsame. now rewrite Hsame.
      - reflexivity. }
    rewrite Hcall. split; [now apply dropAt_in_range|].
    pose proof (len_nonneg remaining) as Hlen.
    assert (Hb : before = None <-> i = 0).
    { unfold before.
      destruct (arrayGet remaining (i - 1)) eqn:E; cbn.
      - split; [discriminate|]. intros Hz.
        assert (arrayGet remaining (i - 1) = None)
          by (apply arrayGet_none_iff; lia).
        congruence.
      - apply arrayGet_none_iff in E. split; [lia|reflexivity]. }
    assert (Ha : after = None <-> i = len remaining).
    { unfold after.
      destruct (arrayGet remaining i) eqn:E; cbn.
      - split; [discriminate|]. intros Hz.
        assert (arrayGet remaining i = None)
          by (apply arrayGet_none_iff; lia).
        congruence.
      - apply arrayGet_none_iff in E. split; [lia|reflexivity]. }
    split; [exact Hb|]. split; [exact Ha|].
    intros Hempty. assert (Hl0 : len remaining = 0) by now rewrite Hempty.
    split; [apply Hb|apply Ha]; lia.
  - intros active overData targetList remaining i. split.
    + intros listId ->. unfold i, dropIndex. fold remaining.
      pose proof (len_nonneg remaining). lia.
    + intros overCard -> Hnd Hin. unfold i, dropIndex.
      pose proof (findIndex_bounds (fun c => Card.id c =? Card.id overCard)
                    (BoardList.cards targetList)) as Hb.
      pose proof (cardsWithout_length (Card.id active) _ Hnd) as Hlen.
      fold remaining in Hlen.
      assert (Hne : findIndex (fun c => Card.id c =? Card.id overCard)
                      (BoardList.cards targetList) <> -1).
      { intros E. apply findIndex_none in E.
        pose proof (find_none _ _ E overCard Hin) as Hx. cbn in Hx.
        rewrite Z.eqb_refl in Hx. discriminate. }
      lia.
  - intros ev v. apply handleDragEnd_call_neighbours.
Qed.

Lemma handleDragEnd_neighbours_witness :
  let ev := mkDragEnd (Some cardA) (Some (OverCard cardB)) in
  let v := mkVars 1 10 10 1 1 (Some 2) (Some 3) in
  dropTarget (OverCard cardB) = Some 10 /\
  samePosition cardA (OverCard cardB)
    (BoardList.mk 10 "Todo" "n" 1 [cardA; cardB; cardC]) = false /\
  handleDragEnd (Some sampleBoard) ev = Ret (Some v).
Proof.
  intros ev v. split; [reflexivity|]. split; [reflexivity|].
  apply (proj1 (handleDragEnd_neighbours sampleBoard) cardA (OverCard cardB)
           10 (BoardList.mk 10 "Todo" "n" 1 [cardA; cardB; cardC]));
    [reflexivity|reflexivity|reflexivity|vm_compute; split; discriminate].
Defined.

(** X10.  [handleDragEnd] throws, by reading [id] of [undefined], exactly
    when the card under the pointer names a list of the board that does
    not hold it, unless the dragged card names the same list and is not
    in it either (then the handler returns early).  In every other case
    it returns; without a board it returns without a call. *)
Theorem handleDragEnd_throws (board : option Board.t) (ev : DragEndEvent) :
  (handleDragEnd board ev = TypeError <->
   exists b, board = Some b /\ dropsOnMissingCard b ev = true) /\
  (board = None -> handleDragEnd board ev = Ret None).
Proof.
  split.
  2:{ intros ->. unfold handleDragEnd. now destruct (over ev). }
  destruct board as [b|].
  2:{ unfold handleDragEnd. destruct (over ev); split; try discriminate;
      intros (b & Hb & _); discriminate. }
  assert (Hiff : handleDragEnd (Some b) ev = TypeError
                 <-> dropsOnMissingCard b ev = true).
  2:{ rewrite Hiff. split; [intros H; now exists b|].
      now intros (b' & [= <-] & H). }
  unfold handleDragEnd, dropsOnMissingCard.
  destruct ev as [[a|] [[o|lid| ]|]]; cbn [over activeCard];
    try (split; discriminate).
  - destruct (find (fun l => BoardList.id l =? Card.list_id o) (Board.lists b))
      as [tl|] eqn:Hf; [|split; discriminate].
    set (oi := findIndex (fun c => Card.id c =? Card.id o) (BoardList.cards tl)).
    set (old := findIndex (fun c => Card.id c =? Card.id a)
                  (BoardList.cards tl)).
    pose proof (dropAt_cases b a (Card.list_id o) oi) as D.
    rewrite Hf in D. cbv zeta in D.
    pose proof (findIndex_bounds (fun c => Card.id c =? Card.id o)
                  (BoardList.cards tl)) as Hb. fold oi in Hb.
    destruct (oi <? 0) eqn:En.
    + apply Z.ltb_lt in En. assert (E : oi = -1) by lia.
      rewrite D, E. cbn [Z.eqb andb Pos.eqb].
      destruct (Card.list_id a =? Card.list_id o), (old =? -1);
        cbn; split; congruence.
    + apply Z.ltb_ge in En. destruct D as (before & after & D & _).
      rewrite D. assert (E : (oi =? -1) = false) by (apply Z.eqb_neq; lia).
      rewrite E.
      destruct (Card.list_id a =? Card.list_id o), (old =? oi);
        cbn; split; discriminate.
  - destruct (find (fun l => BoardList.id l =? lid) (Board.lists b))
      as [tl|] eqn:Hf; [|split; discriminate].
    set (n := len (filter (fun c => negb (Card.id c =? Card.id a))
                     (BoardList.cards tl))).
    pose proof (dropAt_cases b a lid n) as D.
    rewrite Hf in D. cbv zeta in D.
    assert (E : (n <? 0) = false)
      by (apply Z.ltb_ge; apply len_nonneg).
    rewrite E in D. destruct D as (before & after & D & _).
    rewrite D. split; discriminate.
Qed.

(** X11.  A drop on the area of a list moves the card to the end of that
    list: the call names the number of the list's other cards as the new
    index, the last of them, when there is one, as [beforeCardId], and no
    [afterCardId]; the card's own id, list and version are passed on.
    Without the list on the board there is no call. *)
Theorem handleDragEnd_on_list (b : Board.t) (a : Card.t) (listId : Z) :
  handleDragEnd (Some b) (mkDragEnd (Some a) (Some (OverList listId)))
  = Ret (option_map
           (fun targetList =>
              let remaining :=
                cardsWithout (Card.id a) (BoardList.cards targetList) in
              mkVars (Card.id a) (Card.list_id a) listId (len remaining)
                (Card.version a)
                (option_map Card.id (arrayGet remaining (len remaining - 1)))
                None)
           (find (fun l => BoardList.id l =? listId) (Board.lists b))).
Proof.
  unfold handleDragEnd. cbn [over activeCard].
  destruct (find (fun l => BoardList.id l =? listId) (Board.lists b))
    as [tl|] eqn:Hf; [|reflexivity].
  pose proof (dropAt_cases b a listId
                (len (cardsWithout (Card.id a) (BoardList.cards tl)))) as D.
  rewrite Hf in D. cbv zeta in D.
  assert (E : (len (cardsWithout (Card.id a) (BoardList.cards tl)) <? 0)
              = false)
    by (apply Z.ltb_ge; apply len_nonneg).
  rewrite E in D. destruct D as (before & after & D & Hn).
  destruct Hn as [-> ->]; [lia|]. exact D.
Qed.

(** ** From the drop to the optimistic board *)

Lemma NoDup_map_app_disjoint {A B : Type} (f : A -> B) (l1 l2 : list A)
  (x y : A) :
  NoDup (map f (l1 ++ l2)) -> In x l1 -> In y l2 -> f x <> f y.
Proof.
  induction l1 as [|a l1 IH]; [contradiction|]. cbn [map app].
  intros Hnd [->|Hx] Hy.
  - apply NoDup_cons_iff in Hnd as [Hn _]. intros E. apply Hn.
    rewrite E. apply in_map, in_or_app. now right.
  - apply NoDup_cons_iff in Hnd as [_ Hnd]. now apply IH.
Qed.

Lemma uniqueCardIds_list (ls : list BoardList.t) (l : BoardList.t) :
  NoDup (map Card.id (flat_map BoardList.cards ls)) -> In l ls ->
  NoDup (map Card.id (BoardList.cards l)).
Proof.
  induction ls as [|a r IH]; [contradiction|]. cbn [flat_map].
  rewrite map_app. intros Hnd [->|Hl].
  - now apply NoDup_app_remove_r in Hnd.
  - apply NoDup_app_remove_l in Hnd. now apply IH.
Qed.

Lemma uniqueCardIds_other (ls : list BoardList.t) (l1 l2 : BoardList.t)
  (x y : Card.t) :
  NoDup (map Card.id (flat_map BoardList.cards ls)) ->
  In l1 ls -> In l2 ls -> l1 <> l2 ->
  In x (BoardList.cards l1) -> In y (BoardList.cards l2) ->
  Card.id x <> Card.id y.
Proof.
  induction ls as [|a r IH]; [contradiction|]. cbn [flat_map].
  intros Hnd [->|H1] [->|H2] Hne Hx Hy.
  - contradiction.
  - apply (NoDup_map_app_disjoint _ _ _ x y Hnd Hx).
    apply in_flat_map. eauto.
  - intros E. symmetry in E. revert E.
    apply (NoDup_map_app_disjoint _ _ _ y x Hnd Hy).
    apply in_flat_map. eauto.
  - rewrite map_app in Hnd. apply NoDup_app_remove_l in Hnd.
    now apply IH.
Qed.

Lemma filter_removeAt (a : Z) (cards : list Card.t) (c : Card.t) :
  NoDup (map Card.id cards) ->
  find (fun c => Card.id c =? a) cards = Some c ->
  cardsWithout a cards
  = removeAt (findIndex (fun c => Card.id c =? a) cards) cards.
Proof.
  unfold cardsWithout, removeAt.
  induction cards as [|x r IH]; [discriminate|]. cbn [map find findIndex filter].
  intros Hnd Hf. apply NoDup_cons_iff in Hnd as [Hx Hnd].
  destruct (Card.id x =? a) eqn:E.
  - cbn. apply Z.eqb_eq in E. apply filter_none_out.
    destruct (existsb _ r) eqn:Ex; [|reflexivity].
    apply existsb_exists in Ex as (y & Hy & Ey). apply Z.eqb_eq in Ey.
    exfalso. apply Hx. rewrite E, <- Ey. now apply in_map.
  - cbn [negb]. rewrite (IH Hnd Hf).
    assert (Hi : findIndex (fun c => Card.id c =? a) r <> -1).
    { intros Hi. apply findIndex_none in Hi. congruence. }
    pose proof (findIndex_bounds (fun c => Card.id c =? a) r) as Hb.
    apply Z.eqb_neq in Hi. rewrite Hi. apply Z.eqb_neq in Hi.
    replace (Z.to_nat (findIndex (fun c => Card.id c =? a) r + 1))
      with (S (Z.to_nat (findIndex (fun c => Card.id c =? a) r))) by lia.
    reflexivity.
Qed.

Lemma arrayGet_insertAt {A : Type} (l : list A) (k : Z) (x : A) :
  0 <= k <= len l ->
  arrayGet (insertAt k x l) k = Some x /\
  arrayGet (insertAt k x l) (k - 1) = arrayGet l (k - 1) /\
  arrayGet (insertAt k x l) (k + 1) = arrayGet l k.
Proof.
  unfold len, arrayGet, insertAt. intros Hk.
  set (n := Z.to_nat k). assert (Hn : (n <= List.length l)%nat) by lia.
  assert (Hf : List.length (firstn n l) = n).
  { rewrite length_firstn. lia. }
  destruct (k <? 0) eqn:E0; [apply Z.ltb_lt in E0; lia|].
  destruct (k + 1 <? 0) eqn:E1; [apply Z.ltb_lt in E1; lia|].
  split; [|split].
  - rewrite nth_error_app2 by lia. rewrite Hf, Nat.sub_diag. reflexivity.
  - destruct (k - 1 <? 0) eqn:E2; [reflexivity|]. apply Z.ltb_ge in E2.
    rewrite nth_error_app1 by lia.
    rewrite nth_error_firstn.
    destruct (Z.to_nat (k - 1) <? n)%nat eqn:E3; [reflexivity|].
    apply Nat.ltb_ge in E3. lia.
  - rewrite nth_error_app2 by lia. rewrite Hf.
    replace (Z.to_nat (k + 1) - n)%nat with 1%nat by lia.
    change (nth_error (x :: skipn n l) 1) with (nth_error (skipn n l) 0).
    rewrite nth_error_skipn. now rewrite Nat.add_0_r.
Qed.

(** The call of a drag end and the optimistic board it leads to, on a
    board with distinct card ids that holds the dragged card in the list
    the card names. *)
Lemma dragEnd_optimistic (b : Board.t) (ev : DragEndEvent)
  (v : MoveCardVars) (a : Card.t) (sl : BoardList.t) (c : Card.t) :
  uniqueCardIds b ->
  handleDragEnd (Some b) ev = Ret (Some v) ->
  activeCard ev = Some a ->
  find (fun l => BoardList.id l =? Card.list_id a) (Board.lists b) = Some sl ->
  find (fun x => Card.id x =? Card.id a) (BoardList.cards sl) = Some c ->
  exists tl,
    find (fun l => BoardList.id l =? targetListId v) (Board.lists b)
      = Some tl /\
    let remaining := cardsWithout (Card.id a) (BoardList.cards tl) in
    let c' := withListId c (targetListId v) in
    let lists1 :=
      updateFirst (fun l => BoardList.id l =? Card.list_id a)
        (fun l => withCards l (cardsWithout (Card.id a) (BoardList.cards sl)))
        (Board.lists b) in
    0 <= newIndex v <= len remaining /\
    v = mkVars (Card.id a) (Card.list_id a) (targetListId v) (newIndex v)
          (Card.version a)
          (option_map Card.id (arrayGet remaining (newIndex v - 1)))
          (option_map Card.id (arrayGet remaining (newIndex v))) /\
    onMutate v (mkState (Some b))
    = Ret (mkMoveCardResult (Some b) (Some c'),
           mkState (Some (withLists b
             (updateFirst (fun l => BoardList.id l =? targetListId v)
                (fun l => withCards l (insertAt (newIndex v) c' remaining))
                lists1)))) /\
    find (fun l => BoardList.id l =? targetListId v) lists1
      = Some (withCards tl remaining) /\
    (Card.list_id a <> targetListId v ->
     remaining = BoardList.cards tl /\
     find (fun l => BoardList.id l =? Card.list_id a) lists1
       = Some (withCards sl (cardsWithout (Card.id a) (BoardList.cards sl)))).
Proof.
  intros Hu Hcall Ha Hsl Hc.
  destruct (handleDragEnd_call b ev v Hcall)
    as (a0 & tl & Ha0 & Htl & Hd & Hrange).
  rewrite Ha in Ha0. injection Ha0 as <-.
  exists tl. split; [exact Htl|]. cbv zeta.
  set (tgt := targetListId v) in *. set (i := newIndex v) in *.
  set (remaining := cardsWithout (Card.id a) (BoardList.cards tl)).
  pose proof (dropAt_cases b a tgt i) as D. rewrite Htl in D. cbv zeta in D.
  destruct (i <? 0) eqn:Eneg; [congruence|]. apply Z.ltb_ge in Eneg.
  destruct D as (before & after & D & _). rewrite Hd in D.
  injection D as Ev.
  destruct (dropAt_call b a tgt i v Hd) as (tl0 & Htl0 & _ & _ & Hn).
  rewrite Htl in Htl0. injection Htl0 as <-. cbv zeta in Hn.
  destruct Hn as (_ & _ & Hn). fold remaining in Hn.
  assert (Hin_sl : In sl (Board.lists b)) by (eapply find_some; eauto).
  assert (Hin_tl : In tl (Board.lists b)) by (eapply find_some; eauto).
  assert (Hnd_sl : NoDup (map Card.id (BoardList.cards sl)))
    by (eapply uniqueCardIds_list; eauto).
  assert (Hnd_tl : NoDup (map Card.id (BoardList.cards tl)))
    by (eapply uniqueCardIds_list; eauto).
  pose proof (cardsWithout_length (Card.id a) _ Hnd_tl) as Hlen.
  fold remaining in Hlen. fold remaining in Hrange.
  assert (Hi : 0 <= i <= len remaining) by lia.
  destruct (Hn (proj2 Hi)) as [Hbefore Hafter].
  split; [exact Hi|]. split.
  { rewrite Ev. f_equal; [now rewrite <- Hbefore, Ev|now rewrite <- Hafter, Ev]. }
  destruct (moveCardOptimistic_found (Card.id a) (Card.list_id a) tgt i
              b sl tl c Hsl Hc Htl) as (E & Htgt1 & Hsrc1 & _ & _).
  rewrite <- (filter_removeAt _ _ c Hnd_sl Hc) in E, Htgt1, Hsrc1.
  assert (Hrest : (if Card.list_id a =? tgt
                   then cardsWithout (Card.id a) (BoardList.cards sl)
                   else BoardList.cards tl) = remaining).
  { destruct (Card.list_id a =? tgt) eqn:Est.
    - apply Z.eqb_eq in Est. rewrite Est in Hsl. unfold remaining.
      congruence.
    - apply Z.eqb_neq in Est. unfold remaining, cardsWithout. symmetry.
      apply filter_none_out.
      destruct (existsb _ (BoardList.cards tl)) eqn:Ex; [|reflexivity].
      apply existsb_exists in Ex as (y & Hy & Ey). apply Z.eqb_eq in Ey.
      apply find_some in Hc as [Hcin Hcid]. apply Z.eqb_eq in Hcid.
      exfalso.
      apply (uniqueCardIds_other (Board.lists b) sl tl c y Hu Hin_sl Hin_tl);
        [|exact Hcin|exact Hy|congruence].
      intros ->. apply find_some in Hsl as [_ Hs]. apply Z.eqb_eq in Hs.
      apply find_some in Htl as [_ Ht]. apply Z.eqb_eq in Ht. congruence. }
  rewrite Hrest in E, Htgt1.
  rewrite insertIndexOf_in_range in E by exact Hi.
  split; [|split; [exact Htgt1|]].
  - unfold onMutate. rewrite Ev at 1 2 3 4. cbn [cardId sourceListId targetListId newIndex].
    exact E.
  - intros Hne. split; [|exact Hsrc1].
    apply Z.eqb_neq in Hne. now rewrite Hne in Hrest.
Qed.

(** X12.  The optimistic board agrees with the request that is sent.  On
    a board with distinct card ids that holds the dragged card in the
    list the card names, whenever a drag end leads to a call of
    [moveCard], the optimistic update finds the card and puts it into the
    target list at the index of the call, directly behind the card whose
    id is sent as [beforeCardId] and directly before the card whose id is
    sent as [afterCardId]; an id is absent exactly when there is no card
    at that place.  The target list is then the list without the dragged
    card, with the card put in at the index. *)
Theorem dragEnd_places_between (st : BoardState) (b : Board.t)
  (ev : DragEndEvent) (v : MoveCardVars) (a : Card.t) (sl : BoardList.t)
  (c : Card.t) :
  board st = Some b ->
  uniqueCardIds b ->
  handleDragEnd (Some b) ev = Ret (Some v) ->
  activeCard ev = Some a ->
  find (fun l => BoardList.id l =? Card.list_id a) (Board.lists b) = Some sl ->
  find (fun x => Card.id x =? Card.id a) (BoardList.cards sl) = Some c ->
  exists res st' b' tl tl',
    onMutate v st = Ret (res, st') /\
    dragEnd ev st = Ret st' /\
    card res = Some (withListId c (targetListId v)) /\
    board st' = Some b' /\
    find (fun l => BoardList.id l =? targetListId v) (Board.lists b)
      = Some tl /\
    find (fun l => BoardList.id l =? targetListId v) (Board.lists b')
      = Some tl' /\
    BoardList.cards tl'
      = insertAt (newIndex v) (withListId c (targetListId v))
          (cardsWithout (Card.id a) (BoardList.cards tl)) /\
    arrayGet (BoardList.cards tl') (newIndex v)
      = Some (withListId c (targetListId v)) /\
    option_map Card.id (arrayGet (BoardList.cards tl') (newIndex v - 1))
      = beforeCardId v /\
    option_map Card.id (arrayGet (BoardList.cards tl') (newIndex v + 1))
      = afterCardId v.
Proof.
  destruct st as [b0]. cbn [board]. intros -> Hu Hcall Ha Hsl Hc.
  destruct (dragEnd_optimistic b ev v a sl c Hu Hcall Ha Hsl Hc)
    as (tl & Htl & Hi & Ev & E & Htgt1 & _).
  set (remaining := cardsWithout (Card.id a) (BoardList.cards tl)) in *.
  set (c' := withListId c (targetListId v)) in *.
  destruct (arrayGet_insertAt remaining (newIndex v) c' Hi)
    as (G0 & G1 & G2).
  eexists _, _, _, tl, (withCards tl (insertAt (newIndex v) c' remaining)).
  split; [exact E|]. split.
  { unfold dragEnd. cbn [board]. rewrite Hcall. cbn [js_bind].
    rewrite E. reflexivity. }
  cbn [card board withLists Board.lists withCards BoardList.cards].
  split; [reflexivity|]. split; [reflexivity|]. split; [exact Htl|].
  split.
  { cbn [withLists Board.lists].
    rewrite find_updateFirst_same by reflexivity. now rewrite Htgt1. }
  split; [reflexivity|]. split; [exact G0|]. rewrite G1, G2.
  rewrite Ev at 2 4. now cbn [beforeCardId afterCardId].
Qed.

Lemma sampleBoard_unique : uniqueCardIds sampleBoard.
Proof.
  unfold uniqueCardIds. cbn. repeat constructor; cbn; intuition lia.
Qed.

Lemma dragEnd_places_between_witness :
  let ev := mkDragEnd (Some cardA) (Some (OverCard cardD)) in
  let v := mkVars 1 10 20 0 1 None (Some 4) in
  uniqueCardIds sampleBoard /\
  handleDragEnd (Some sampleBoard) ev = Ret (Some v) /\
  exists res st' b' tl tl',
    onMutate v sampleState = Ret (res, st') /\
    dragEnd ev sampleState = Ret st' /\
    card res = Some (withListId cardA 20) /\
    board st' = Some b' /\
    find (fun l => BoardList.id l =? 20) (Board.lists sampleBoard)
      = Some tl /\
    find (fun l => BoardList.id l =? 20) (Board.lists b') = Some tl' /\
    BoardList.cards tl'
      = insertAt 0 (withListId cardA 20)
          (cardsWithout 1 (BoardList.cards tl)) /\
    arrayGet (BoardList.cards tl') 0 = Some (withListId cardA 20) /\
    option_map Card.id (arrayGet (BoardList.cards tl') (0 - 1)) = None /\
    option_map Card.id (arrayGet (BoardList.cards tl') (0 + 1)) = Some 4.
Proof.
  intros ev v.
  split; [exact sampleBoard_unique|]. split; [reflexivity|].
  exact (dragEnd_places_between sampleState sampleBoard ev v cardA
           (BoardList.mk 10 "Todo" "n" 1 [cardA; cardB; cardC]) cardA
           eq_refl sampleBoard_unique eq_refl eq_refl eq_refl eq_refl).
Defined.

(** ** From the optimistic board to the server's answer *)

Lemma in_firstn {A : Type} (n : nat) (l : list A) (x : A) :
  In x (firstn n l) -> In x l.
Proof.
  intros H. rewrite <- (firstn_skipn n l). apply in_or_app. now left.
Qed.

Lemma in_skipn {A : Type} (n : nat) (l : list A) (x : A) :
  In x (skipn n l) -> In x l.
Proof.
  intros H. rewrite <- (firstn_skipn n l). apply in_or_app. now right.
Qed.

Lemma sorted_insert_nat (c : Card.t) (n : nat) (l : list Card.t) :
  sortedByPosition l -> (n <= List.length l)%nat ->
  (forall x, (1 <= n)%nat -> nth_error l (n - 1) = Some x -> positionLe x c) ->
  (forall y, nth_error l n = Some y -> positionLe c y) ->
  sortedByPosition (firstn n l ++ c :: skipn n l).
Proof.
  revert l. induction n as [|m IH]; intros l Hs Hn Hb Ha.
  - cbn. constructor; [exact Hs|]. destruct l as [|y r]; [constructor|].
    apply StronglySorted_inv in Hs as [_ Hy].
    assert (Hcy : positionLe c y) by now apply Ha.
    constructor; [exact Hcy|]. eapply Forall_impl; [|exact Hy].
    intros z Hz. eapply positionLe_trans; eauto.
  - destruct l as [|y r]; [cbn in Hn; lia|].
    apply StronglySorted_inv in Hs as [Hr Hy].
    cbn [firstn skipn app]. constructor.
    + apply IH; [exact Hr|cbn in Hn; lia| |].
      * intros x Hm Hx. apply Hb; [lia|].
        replace (S m - 1)%nat with (S (m - 1)) by lia. exact Hx.
      * intros z Hz. now apply Ha.
    + assert (Hyc : positionLe y c).
      { destruct m as [|m'].
        - apply Hb; [lia|reflexivity].
        - destruct (nth_error r m') as [x|] eqn:Ex.
          + apply (positionLe_trans y x c).
            * rewrite Forall_forall in Hy. apply Hy.
              eapply nth_error_In; eauto.
            * apply Hb; [lia|].
              replace (S (S m') - 1)%nat with (S m') by lia. exact Ex.
          + apply nth_error_None in Ex. cbn in Hn. lia. }
      apply Forall_app. split.
      * apply Forall_forall. intros z Hz. rewrite Forall_forall in Hy.
        apply Hy. eapply in_firstn; eauto.
      * constructor; [exact Hyc|].
        apply Forall_forall. intros z Hz. rewrite Forall_forall in Hy.
        apply Hy. eapply in_skipn; eauto.
Qed.

Lemma sorted_insertAt (c : Card.t) (k : Z) (l : list Card.t) :
  sortedByPosition l -> 0 <= k <= len l ->
  (forall x, arrayGet l (k - 1) = Some x -> positionLe x c) ->
  (forall y, arrayGet l k = Some y -> positionLe c y) ->
  sortedByPosition (insertAt k c l).
Proof.
  unfold len, arrayGet, insertAt. intros Hs Hk Hb Ha.
  apply sorted_insert_nat; [exact Hs|lia| |].
  - intros x Hn Hx. apply Hb.
    destruct (k - 1 <? 0) eqn:E; [apply Z.ltb_lt in E; lia|].
    now replace (Z.to_nat (k - 1)) with (Z.to_nat k - 1)%nat by lia.
  - intros y Hy. apply Ha.
    destruct (k <? 0) eqn:E; [apply Z.ltb_lt in E; lia|]. exact Hy.
Qed.

Lemma in_updateFirst {A : Type} (p : A -> bool) (f : A -> A) (l : list A)
  (y : A) :
  In y (updateFirst p f l) ->
  In y l \/ exists x, find p l = Some x /\ y = f x.
Proof.
  induction l as [|z l IH]; [contradiction|]. cbn.
  destruct (p z).
  - intros [<-|H]; [right; eauto|left; now right].
  - intros [<-|H]; [left; now left|].
    destruct (IH H) as [Hin|Hex]; [left; now right|now right].
Qed.

Lemma uniqueCardIds_split (pre post : list BoardList.t) (x l : BoardList.t)
  (y z : Card.t) :
  NoDup (map Card.id (flat_map BoardList.cards (pre ++ x :: post))) ->
  In l (pre ++ post) -> In y (BoardList.cards l) ->
  In z (BoardList.cards x) -> Card.id y <> Card.id z.
Proof.
  rewrite flat_map_app. cbn [flat_map]. intros Hnd Hl Hy Hz.
  apply in_app_or in Hl as [Hl|Hl].
  - apply (NoDup_map_app_disjoint _ _ _ y z Hnd).
    + apply in_flat_map. eauto.
    + apply in_or_app. now left.
  - rewrite map_app in Hnd. apply NoDup_app_remove_l in Hnd.
    intros E. symmetry in E. revert E.
    apply (NoDup_map_app_disjoint _ _ _ z y Hnd Hz).
    apply in_flat_map. eauto.
Qed.

Lemma map_update_absent (k : Z) (f : Card.t -> Card.t) (l : list Card.t) :
  existsb (fun c => Card.id c =? k) l = false ->
  map (fun card => if Card.id card =? k then f card else card) l = l.
Proof.
  induction l as [|x l IH]; [reflexivity|]. cbn.
  intros H. apply orb_false_elim in H as [Hx Hl].
  now rewrite Hx, IH.
Qed.

Lemma find_map_same {A : Type} (p : A -> bool) (h : A -> A) (l : list A) :
  (forall y, p (h y) = p y) ->
  find p (map h l) = option_map h (find p l).
Proof.
  intros Hp. induction l as [|x l IH]; [reflexivity|]. cbn.
  rewrite Hp. now destruct (p x).
Qed.

Lemma map_insertAt {A : Type} (h : A -> A) (k : Z) (x : A) (l : list A) :
  map h (insertAt k x l) = insertAt k (h x) (map h l).
Proof.
  unfold insertAt. now rewrite map_app, firstn_map, skipn_map.
Qed.

(** X13.  The answer of the server does not move the card again.  On a
    board with distinct card ids whose lists ascend by [position], after
    a drag end and its optimistic update, an answer for the moved card
    whose [position] lies between the positions of the cards sent as
    [beforeCardId] and [afterCardId] leaves every list in the order the
    optimistic update gave it: [onSuccess] only overwrites the card's
    [position], [version] and [list_id], the sorting changes nothing, and
    the card stays at the index it was dropped at. *)
Theorem onSuccess_keeps_optimistic_order (st : BoardState) (b : Board.t)
  (ev : DragEndEvent) (v : MoveCardVars) (a : Card.t) (sl : BoardList.t)
  (c u : Card.t) :
  board st = Some b ->
  uniqueCardIds b ->
  boardSorted st ->
  handleDragEnd (Some b) ev = Ret (Some v) ->
  activeCard ev = Some a ->
  find (fun l => BoardList.id l =? Card.list_id a) (Board.lists b) = Some sl ->
  find (fun x => Card.id x =? Card.id a) (BoardList.cards sl) = Some c ->
  Card.id u = cardId v ->
  positionFits b v u ->
  exists res st1 tl b2 tl2,
    onMutate v st = Ret (res, st1) /\
    find (fun l => BoardList.id l =? targetListId v) (Board.lists b)
      = Some tl /\
    onSuccess u st1 = PlainStore.onSuccess u st1 /\
    board (onSuccess u st1) = Some b2 /\
    find (fun l => BoardList.id l =? targetListId v) (Board.lists b2)
      = Some tl2 /\
    BoardList.cards tl2
      = insertAt (newIndex v)
          (withMoveResult u (withListId c (targetListId v)))
          (cardsWithout (Card.id a) (BoardList.cards tl)).
Proof.
  destruct st as [b0]. unfold boardSorted. cbn [board].
  intros -> Hu Hs Hcall Ha Hsl Hc Hid Hfit.
  destruct (dragEnd_optimistic b ev v a sl c Hu Hcall Ha Hsl Hc)
    as (tl & Htl & Hi & Ev & E & Htgt1 & _).
  set (tgt := targetListId v) in *. set (i := newIndex v) in *.
  set (remaining := cardsWithout (Card.id a) (BoardList.cards tl)) in *.
  set (c' := withListId c tgt) in *.
  set (lists1 := updateFirst (fun l => BoardList.id l =? Card.list_id a)
                   (fun l => withCards l
                               (cardsWithout (Card.id a) (BoardList.cards sl)))
                   (Board.lists b)) in *.
  set (lists2 := updateFirst (fun l => BoardList.id l =? tgt)
                   (fun l => withCards l (insertAt i c' remaining)) lists1)
    in *.
  assert (Hk : Card.id u = Card.id a) by (rewrite Hid, Ev; reflexivity).
  assert (Hbefore : beforeCardId v
                    = option_map Card.id (arrayGet remaining (i - 1)))
    by (rewrite Ev; reflexivity).
  assert (Hafter : afterCardId v = option_map Card.id (arrayGet remaining i))
    by (rewrite Ev; reflexivity).
  rewrite Forall_forall in Hs.
  assert (Hin_tl : In tl (Board.lists b)) by (eapply find_some; eauto).
  set (P := PartialCard.mk None None None (Some (Card.position u))
              (Some (Card.list_id u)) (Some (Card.version u)) None).
  set (upd := fun card : Card.t =>
                if Card.id card =? Card.id u then spread card P else card).
  assert (Hrem_sorted : sortedByPosition remaining)
    by (apply filter_sorted, Hs, Hin_tl).
  assert (Habs : forall l,
             existsb (fun x => Card.id x =? Card.id a) l = false ->
             map upd l = l).
  { intros l Hl. unfold upd. apply map_update_absent. now rewrite Hk. }
  assert (Hrem_absent : map upd remaining = remaining).
  { apply Habs, existsb_filter_negb. }
  assert (Hc'id : Card.id c' = Card.id a).
  { apply find_some in Hc as [_ Hc]. apply Z.eqb_eq in Hc. exact Hc. }
  assert (Hupd_c' : upd c' = withMoveResult u c') by reflexivity.
  assert (Hpos : Card.position (upd c') = Card.position u).
  { unfold upd. rewrite Hc'id, Hk, Z.eqb_refl. reflexivity. }
  assert (Hremaining_in : forall x, In x remaining -> In x (allCards b)).
  { intros x Hx. apply filter_In in Hx as [Hx _].
    apply in_flat_map. eauto. }
  assert (Htarget_sorted :
            sortedByPosition (map upd (insertAt i c' remaining))).
  { rewrite map_insertAt, Hrem_absent.
    apply sorted_insertAt; [exact Hrem_sorted|exact Hi| |].
    - intros x Hx. unfold positionLe. rewrite Hpos.
      apply (Hfit x).
      + apply Hremaining_in. unfold arrayGet in Hx.
        destruct (i - 1 <? 0); [discriminate|].
        eapply nth_error_In; eauto.
      + rewrite Hbefore, Hx. reflexivity.
    - intros y Hy. unfold positionLe. rewrite Hpos.
      apply (Hfit y).
      + apply Hremaining_in. unfold arrayGet in Hy.
        destruct (i <? 0); [discriminate|].
        eapply nth_error_In; eauto.
      + rewrite Hafter, Hy. reflexivity. }
  destruct (find_split _ _ _ Hsl) as (pre & post & Hlists & Hupdate).
  assert (Hsorted : forall l2, In l2 lists2 ->
                      sortedByPosition (map upd (BoardList.cards l2))).
  { intros l2 Hin. apply in_updateFirst in Hin as [Hin|(x & Hx & ->)].
    2:{ rewrite Htgt1 in Hx. injection Hx as <-. exact Htarget_sorted. }
    unfold lists1 in Hin. rewrite Hupdate in Hin.
    assert (Hcases : l2 = withCards sl (cardsWithout (Card.id a)
                                          (BoardList.cards sl))
                     \/ In l2 (pre ++ post)).
    { apply in_app_or in Hin as [Hin|[<-|Hin]].
      - right. apply in_or_app. now left.
      - now left.
      - right. apply in_or_app. now right. }
    destruct Hcases as [->|Hl2].
    - cbn [withCards BoardList.cards]. rewrite Habs.
      + apply filter_sorted, Hs. eapply find_some; eauto.
      + apply existsb_filter_negb.
    - rewrite Habs.
      + apply Hs. rewrite Hlists. apply in_app_or in Hl2 as [H|H];
          apply in_or_app; [now left|right; now right].
      + destruct (existsb _ (BoardList.cards l2)) eqn:Ex; [|reflexivity].
        apply existsb_exists in Ex as (y & Hy & Ey). apply Z.eqb_eq in Ey.
        exfalso. unfold uniqueCardIds, allCards in Hu. rewrite Hlists in Hu.
        apply find_some in Hc as [Hcin Hcid]. apply Z.eqb_eq in Hcid.
        apply (uniqueCardIds_split pre post sl l2 y c Hu Hl2 Hy Hcin).
        congruence. }
  assert (Eplain : onSuccess u (mkState (Some (withLists b lists2)))
                   = PlainStore.onSuccess u
                       (mkState (Some (withLists b lists2)))).
  { unfold onSuccess, PlainStore.onSuccess, updateCardAfterMove,
      PlainStore.updateCardAfterMove.
    cbn [board withLists Board.lists]. unfold withLists.
    cbn [Board.lists Board.id Board.name Board.description Board.owner_id
         Board.created_at Board.updated_at].
    do 3 f_equal. apply map_ext_in. intros l2 Hl2. f_equal.
    apply sortCards_of_sorted. exact (Hsorted l2 Hl2). }
  eexists _, _, tl, _, _. split; [exact E|]. split; [exact Htl|].
  split; [exact Eplain|]. rewrite Eplain.
  unfold PlainStore.onSuccess, PlainStore.updateCardAfterMove.
  cbn [board withLists Board.lists]. split; [reflexivity|].
  split.
  - cbn [withLists Board.lists].
    rewrite find_map_same by reflexivity. unfold lists2.
    rewrite find_updateFirst_same by reflexivity. rewrite Htgt1.
    reflexivity.
  - cbn [withCards BoardList.cards].
    fold P. fold upd. rewrite map_insertAt, Hrem_absent, Hupd_c'.
    reflexivity.
Qed.

Lemma cardAMoved_fits :
  positionFits sampleBoard (mkVars 1 10 20 0 1 None (Some 4)) cardAMoved.
Proof.
  intros x Hx. split; [discriminate|].
  cbn in Hx. destruct Hx as [<-|[<-|[<-|[<-|[]]]]];
    intros H; try discriminate H.
  unfold positionLe. cbn. discriminate.
Qed.

Lemma onSuccess_keeps_optimistic_order_witness :
  let ev := mkDragEnd (Some cardA) (Some (OverCard cardD)) in
  let v := mkVars 1 10 20 0 1 None (Some 4) in
  uniqueCardIds sampleBoard /\
  boardSorted sampleState /\
  handleDragEnd (Some sampleBoard) ev = Ret (Some v) /\
  positionFits sampleBoard v cardAMoved /\
  exists res st1 tl b2 tl2,
    onMutate v sampleState = Ret (res, st1) /\
    find (fun l => BoardList.id l =? 20) (Board.lists sampleBoard)
      = Some tl /\
    onSuccess cardAMoved st1 = PlainStore.onSuccess cardAMoved st1 /\
    board (onSuccess cardAMoved st1) = Some b2 /\
    find (fun l => BoardList.id l =? 20) (Board.lists b2) = Some tl2 /\
    BoardList.cards tl2
      = insertAt 0 (withMoveResult cardAMoved (withListId cardA 20))
          (cardsWithout 1 (BoardList.cards tl)).
Proof.
  intros ev v.
  split; [exact sampleBoard_unique|]. split; [exact sampleState_sorted|].
  split; [reflexivity|]. split; [exact cardAMoved_fits|].
  exact (onSuccess_keeps_optimistic_order sampleState sampleBoard ev v cardA
           (BoardList.mk 10 "Todo" "n" 1 [cardA; cardB; cardC]) cardA
           cardAMoved eq_refl sampleBoard_unique sampleState_sorted
           eq_refl eq_refl eq_refl eq_refl eq_refl cardAMoved_fits).
Defined.

(** ** The client: the token and the answers with status 401 *)

Lemma getItem_removeItem (k k' : string) (s : Client.Storage) :
  Client.getItem k' (Client.removeItem k s)
  = if (k' =? k)%string then None else Client.getItem k' s.
Proof.
  unfold Client.getItem, Client.removeItem.
  induction s as [|[a b] s IH]; [now destruct (k' =? k)%string|].
  cbn [filter find fst]. destruct (a =? k)%string eqn:Ea; cbn [negb].
  - rewrite IH. apply String.eqb_eq in Ea. subst a.
    destruct (k' =? k)%string eqn:Ek; [reflexivity|].
    rewrite String.eqb_sym in Ek. now rewrite Ek.
  - cbn [find fst]. destruct (a =? k')%string eqn:Ea'.
    + apply String.eqb_eq in Ea'. subst a. now rewrite Ea.
    + exact IH.
Qed.

Lemma getItem_setItem (k k' v : string) (s : Client.Storage) :
  Client.getItem k' (Client.setItem k v s)
  = if (k' =? k)%string then Some v else Client.getItem k' s.
Proof.
  pose proof (getItem_removeItem k k' s) as H.
  unfold Client.setItem, Client.getItem in *. cbn [find fst].
  rewrite (String.eqb_sym k k').
  destruct (k' =? k)%string; [reflexivity|exact H].
Qed.

Lemma token_round_trip_token (t : string) (w : Client.Browser) :
  Client.isAuthenticated (Client.setAuthToken t w) = negb (t =? "")%string.
Proof.
  unfold Client.isAuthenticated, Client.setAuthToken. cbn [Client.storage].
  now rewrite getItem_setItem.
Qed.

Lemma clearAuthToken_out (w : Client.Browser) :
  Client.isAuthenticated (Client.clearAuthToken w) = false /\
  forall cfg, Client.onRequest cfg (Client.clearAuthToken w) = cfg.
Proof.
  unfold Client.isAuthenticated, Client.onRequest, Client.clearAuthToken.
  cbn [Client.storage]. now rewrite getItem_removeItem.
Qed.

(** X14.  The token in [localStorage] and the [Authorization] header.
    After [setAuthToken(t)] the client counts as authenticated exactly
    when [t] is not the empty string, and then every request gets the
    header [Bearer t]; with the empty token, and after [clearAuthToken],
    the client is not authenticated and the request interceptor leaves
    the configuration as it is.  In any browser state the header is
    written exactly when [isAuthenticated] holds; the url is never
    changed, and no other key of [localStorage] is touched. *)
Theorem token_round_trip (t : string) (w : Client.Browser)
  (cfg : Client.RequestConfig) :
  Client.isAuthenticated (Client.setAuthToken t w) = negb (t =? "")%string /\
  Client.isAuthenticated (Client.clearAuthToken w) = false /\
  Client.onRequest cfg (Client.setAuthToken t w)
  = (if (t =? "")%string then cfg
     else Client.mkRequest (Client.url cfg) (Some (String.append "Bearer " t)))
  /\
  Client.onRequest cfg (Client.clearAuthToken w) = cfg /\
  Client.onRequest cfg w
  = (if Client.isAuthenticated w
     then Client.mkRequest (Client.url cfg)
            (option_map (String.append "Bearer ")
               (Client.getItem "token" (Client.storage w)))
     else cfg) /\
  Client.url (Client.onRequest cfg w) = Client.url cfg /\
  (forall k, k <> "token" ->
     Client.getItem k (Client.storage (Client.setAuthToken t w))
     = Client.getItem k (Client.storage w) /\
     Client.getItem k (Client.storage (Client.clearAuthToken w))
     = Client.getItem k (Client.storage w)).
Proof.
  unfold Client.isAuthenticated, Client.onRequest, Client.setAuthToken,
    Client.clearAuthToken. cbn [Client.storage].
  rewrite getItem_setItem, getItem_removeItem. cbn [String.eqb Ascii.eqb].
  repeat split.
  - cbn. now destruct (t =? "")%string.
  - destruct (Client.getItem "token" (Client.storage w)) as [x|];
      [|reflexivity].
    now destruct (Client.truthy (Some x)).
  - destruct (Client.getItem "token" (Client.storage w)) as [x|];
      [|reflexivity].
    now destruct (Client.truthy (Some x)).
  - rewrite getItem_setItem. apply String.eqb_neq in H. now rewrite H.
  - rewrite getItem_removeItem. apply String.eqb_neq in H. now rewrite H.
Qed.

Lemma prefix_iff (sub s : string) :
  String.prefix sub s = true <-> exists q, s = String.append sub q.
Proof.
  revert s. induction sub as [|a sub IH]; intros s.
  - split; [intros _; now exists s|intros _; now destruct s].
  - destruct s as [|b s]; cbn.
    + split; [discriminate|intros (q & H); discriminate].
    + destruct (ascii_dec a b) as [->|Hne].
      * rewrite IH. split; intros (q & H); exists q; congruence.
      * split; [discriminate|]. intros (q & H). congruence.
Qed.

Lemma includes_iff (sub s : string) :
  Client.includes sub s = true
  <-> exists p q, s = String.append p (String.append sub q).
Proof.
  induction s as [|b s IH]; cbn [Client.includes].
  - rewrite orb_false_r, prefix_iff. split.
    + intros (q & H). now exists ""%string, q.
    + intros (p & q & H). exists q. destruct p; [exact H|discriminate].
  - rewrite orb_true_iff, prefix_iff, IH. split.
    + intros [(q & H)|(p & q & H)].
      * now exists ""%string, q.
      * exists (String b p), q. cbn. now rewrite H.
    + intros (p & q & H). destruct p as [|a p].
      * left. now exists q.
      * right. exists p, q. cbn in H. congruence.
Qed.

Lemma namesAuthEndpoint_iff (error : Client.AxiosError) :
  namesAuthEndpoint error <-> Client.isAuthEndpoint error = Some true.
Proof.
  unfold namesAuthEndpoint, Client.isAuthEndpoint. split.
  - intros (c & u & p & q & -> & Hu & E). rewrite Hu. cbn. f_equal.
    apply includes_iff. eauto.
  - destruct (Client.config error) as [c|]; [|discriminate].
    destruct (Client.url c) as [u|] eqn:Hu; [|discriminate].
    cbn. intros [= H]. apply includes_iff in H as (p & q & H).
    exists c, u, p, q. auto.
Qed.

(** X15.  An answer with status 401.  The error handler of the response
    interceptor always rejects with the error it was given.  For status
    401 on a request whose url does not contain ["/auth/"] (or that has
    no url) it removes the token and sends the browser to ["/"]: the
    client is no longer authenticated, later requests get no
    [Authorization] header, and no other key of [localStorage] changes.
    For any other status, and for any url that contains ["/auth/"], as
    the urls of [auth.login] and [auth.register] do, it leaves the
    browser as it is, so a rejected login does not cost a stored
    token. *)
Theorem unauthorized_response (error : Client.AxiosError)
  (w : Client.Browser) :
  snd (Client.onResponseError error w) = error /\
  (Client.status error = Some 401 -> ~ namesAuthEndpoint error ->
   Client.isAuthenticated (fst (Client.onResponseError error w)) = false /\
   Client.href (fst (Client.onResponseError error w)) = "/"%string /\
   (forall cfg,
      Client.onRequest cfg (fst (Client.onResponseError error w)) = cfg) /\
   (forall k, k <> "token"%string ->
      Client.getItem k
        (Client.storage (fst (Client.onResponseError error w)))
      = Client.getItem k (Client.storage w))) /\
  (Client.status error <> Some 401 \/ namesAuthEndpoint error ->
   fst (Client.onResponseError error w) = w) /\
  (forall status,
     fst (Client.onResponseError (errorOf "/auth/login" status) w) = w /\
     fst (Client.onResponseError (errorOf "/auth/register" status) w) = w) /\
  fst (Client.onResponseError (errorOf "/boards" 401) w)
  = Client.clearAuthToken (Client.mkBrowser (Client.storage w) "/").
Proof.
  split; [reflexivity|]. split; [|split; [|split]].
  - intros Hs Hn. unfold Client.onResponseError. rewrite Hs.
    cbn [statusIs Z.eqb Pos.eqb andb fst].
    assert (E : orElse (Client.isAuthEndpoint error) false = false).
    { destruct (Client.isAuthEndpoint error) as [[|]|] eqn:E;
        [|reflexivity|reflexivity].
      exfalso. apply Hn. now apply namesAuthEndpoint_iff. }
    rewrite E. cbn [negb].
    unfold Client.isAuthenticated, Client.onRequest. cbn [Client.storage
      Client.href]. rewrite getItem_removeItem. cbn [String.eqb Ascii.eqb].
    repeat split. intros k Hk. rewrite getItem_removeItem.
    apply String.eqb_neq in Hk. now rewrite Hk.
  - intros H. unfold Client.onResponseError. cbn [fst].
    destruct H as [H|H].
    + assert (E : statusIs (Client.status error) 401 = false).
      { destruct (Client.status error) as [s|]; [|reflexivity]. cbn.
        apply Z.eqb_neq. congruence. }
      now rewrite E.
    + apply namesAuthEndpoint_iff in H. rewrite H. cbn.
      now rewrite andb_false_r.
  - intros status. unfold Client.onResponseError. cbn.
    rewrite !andb_false_r. now split.
  - reflexivity.
Qed.

(** ** Signing in and out *)

Lemma concat_empty_iff (l : list string) :
  String.concat ", " l = ""%string <-> l = [] \/ l = [""%string].
Proof.
  destruct l as [|x [|y r]]; cbn.
  - split; [now left|reflexivity].
  - split; [intros ->; now right|].
    intros [H|H]; [discriminate|congruence].
  - split.
    + destruct x; discriminate.
    + intros [H|H]; discriminate.
Qed.

Lemma messageOf_empty_iff (d : option App.Detail) :
  App.messageOf d = ""%string
  <-> exists items,
        d = Some (App.DetailArray items) /\
        (items = [] \/ exists x, items = [x] /\ App.itemText x = ""%string).
Proof.
  destruct d as [[s|items|t]|]; cbn [App.messageOf].
  - split; [|intros (items & H & _); discriminate].
    unfold Client.truthy. destruct (s =? "")%string eqn:E; cbn [negb].
    + discriminate.
    + apply String.eqb_neq in E. intros H. contradiction.
  - rewrite concat_empty_iff. split.
    + intros [H|H]; exists items; (split; [reflexivity|]).
      * left. now destruct items.
      * right. destruct items as [|x [|y r]]; try discriminate.
        exists x. split; [reflexivity|]. now injection H.
    + intros (items' & [= <-] & [->|(x & -> & Hx)]); [now left|].
      right. cbn. now rewrite Hx.
  - split; [discriminate|intros (items & H & _); discriminate].
  - split; [discriminate|intros (items & H & _); discriminate].
Qed.

(** X16.  What [handleAuth] and [handleLogout] leave behind.  After
    [handleAuth] the form is never left loading.  When the call is
    rejected, the token and the signed-in flag are as before and the
    extracted message is stored; the error box is rendered unless the
    message is empty, which happens exactly when the [detail] of the
    rejection is an empty array or an array of one entry without a
    non-empty [msg] or [message].  After a login that resolves, the
    component is signed in whatever the token, but the client counts as
    authenticated, and a reloaded page starts signed in, only for a
    token that is not the empty string.  After [handleLogout] the
    component is signed out, the client is not authenticated, a reloaded
    page starts signed out and requests get no [Authorization]
    header. *)
Theorem handleAuth_outcomes :
  (forall r l st w,
     App.isLoading (fst (fst (App.handleAuth r l st w))) = false) /\
  (forall d r l st w,
     (if App.isRegister st then r = App.Rejected d else l = App.Rejected d) ->
     snd (fst (App.handleAuth r l st w)) = w /\
     App.isLoggedIn (fst (fst (App.handleAuth r l st w))) = App.isLoggedIn st /\
     App.authError (fst (fst (App.handleAuth r l st w)))
     = Some (App.messageOf d) /\
     (App.errorShown (fst (fst (App.handleAuth r l st w))) = false
      <-> exists items,
            d = Some (App.DetailArray items) /\
            (items = [] \/
             exists x, items = [x] /\ App.itemText x = ""%string))) /\
  (forall t r st w,
     App.isRegister st = false ->
     App.isLoggedIn (fst (fst (App.handleAuth r (App.Resolved t) st w)))
     = true /\
     Client.isAuthenticated (snd (fst (App.handleAuth r (App.Resolved t) st w)))
     = negb (t =? "")%string /\
     App.isLoggedIn
       (App.initial (snd (fst (App.handleAuth r (App.Resolved t) st w))))
     = negb (t =? "")%string) /\
  (forall st w,
     App.isLoggedIn (fst (App.handleLogout st w)) = false /\
     Client.isAuthenticated (snd (App.handleLogout st w)) = false /\
     App.isLoggedIn (App.initial (snd (App.handleLogout st w))) = false /\
     forall cfg, Client.onRequest cfg (snd (App.handleLogout st w)) = cfg).
Proof.
  split; [|split; [|split]].
  - intros r l st w. unfold App.handleAuth.
    destruct (App.isRegister st); [now destruct r|now destruct l].
  - intros d r l st w H. unfold App.handleAuth.
    assert (E : App.errorShown
                  (App.mkApp (App.isLoggedIn st) false (App.boardsList st)
                     (App.selectedBoardId st) (App.email st)
                     (App.password st) (App.fullName st) (App.isRegister st)
                     (Some (App.messageOf d))) = false
                <-> App.messageOf d = ""%string).
    { unfold App.errorShown, Client.truthy. cbn [App.authError].
      rewrite negb_false_iff. apply String.eqb_eq. }
    rewrite messageOf_empty_iff in E.
    destruct (App.isRegister st); subst; cbn [fst snd App.isLoggedIn
      App.authError]; repeat split; apply E.
  - intros t r st w H. unfold App.handleAuth. rewrite H.
    cbn [fst snd App.isLoggedIn App.initial].
    pose proof (token_round_trip_token t w) as E.
    now rewrite E.
  - intros st w. unfold App.handleLogout. cbn [fst snd App.isLoggedIn
      App.initial].
    pose proof (clearAuthToken_out w) as [E1 E2]. now rewrite E1.
Qed.

(** ** A drop that moves nothing *)

(** X17.  A drop of the last card of a list on the area of its own list
    moves nothing and is sent all the same.  When the list the dragged
    card names has distinct card ids and holds the card at its last
    index, the drop on the list's area calls [moveCard] for the same
    list with the card's own index, and the optimistic update leaves the
    board as it is; unlike the drop of a card on itself, the handler
    does not return early. *)
Theorem drop_on_own_list_last (st : BoardState) (b : Board.t) (a : Card.t)
  (sl : BoardList.t) :
  board st = Some b ->
  find (fun l => BoardList.id l =? Card.list_id a) (Board.lists b) = Some sl ->
  NoDup (map Card.id (BoardList.cards sl)) ->
  find (fun c => Card.id c =? Card.id a) (BoardList.cards sl) = Some a ->
  findIndex (fun c => Card.id c =? Card.id a) (BoardList.cards sl)
    = len (BoardList.cards sl) - 1 ->
  let ev := mkDragEnd (Some a) (Some (OverList (Card.list_id a))) in
  exists v,
    handleDragEnd (board st) ev = Ret (Some v) /\
    cardId v = Card.id a /\
    targetListId v = sourceListId v /\
    newIndex v = len (BoardList.cards sl) - 1 /\
    afterCardId v = None /\
    dragEnd ev st = Ret st.
Proof.
  destruct st as [b0]. cbn [board]. intros -> Hsl Hnd Hc Hlast. cbv zeta.
  pose proof (handleDragEnd_on_list b a (Card.list_id a)) as Hcall.
  rewrite Hsl in Hcall. cbn [option_map] in Hcall. cbv zeta in Hcall.
  destruct (moveCardOptimistic_found (Card.id a) (Card.list_id a)
              (Card.list_id a)
              (findIndex (fun c => Card.id c =? Card.id a) (BoardList.cards sl))
              b sl sl a Hsl Hc Hsl) as (E & _ & _ & Hn & Hi).
  assert (Hlen : len (cardsWithout (Card.id a) (BoardList.cards sl))
                 = len (BoardList.cards sl) - 1).
  { rewrite (filter_removeAt _ _ a Hnd Hc). apply (len_removeAt _ _ _ Hn). }
  rewrite Hlen in Hcall.
  eexists. split; [exact Hcall|].
  cbn [cardId targetListId sourceListId newIndex afterCardId].
  repeat split.
  unfold dragEnd. cbn [board]. rewrite Hcall. cbn [js_bind].
  unfold onMutate. cbn [cardId targetListId sourceListId newIndex].
  rewrite <- Hlast, E. cbn [js_bind snd]. do 3 f_equal.
  rewrite Z.eqb_refl, withListId_same.
  rewrite (len_removeAt _ _ _ Hn).
  rewrite insertIndexOf_in_range by lia.
  rewrite (insertAt_removeAt _ _ _ Hn).
  rewrite updateFirst_twice by reflexivity.
  rewrite (updateFirst_fix _ _ _ sl Hsl) by (now destruct sl).
  apply withLists_same.
Qed.

Lemma drop_on_own_list_last_witness :
  let ev := mkDragEnd (Some cardC) (Some (OverList 10)) in
  NoDup (map Card.id [cardA; cardB; cardC]) /\
  exists v,
    handleDragEnd (board sampleState) ev = Ret (Some v) /\
    cardId v = 3 /\
    targetListId v = sourceListId v /\
    newIndex v = 2 /\
    afterCardId v = None /\
    dragEnd ev sampleState = Ret sampleState.
Proof.
  intros ev.
  assert (Hnd : NoDup (map Card.id [cardA; cardB; cardC])).
  { cbn. repeat constructor; cbn; intuition lia. }
  split; [exact Hnd|].
  exact (drop_on_own_list_last sampleState sampleBoard cardC
           (BoardList.mk 10 "Todo" "n" 1 [cardA; cardB; cardC])
           eq_refl eq_refl Hnd eq_refl eq_refl).
Defined.

(** ** The versions a session sends *)




















